(** * The ranked combinator of OpenDiamond (src/lib/libtools/rcomb.c)

    A shallow embedding of the permutation-search engine: the CLR max-heap,
    the permutation container, the partial-order matrix with its Warshall
    closure, and the two resumable search drivers (hill climbing and
    best-first search).

    Conventions of the embedding.
    - C [int] indices and sizes are [nat]: every index the code forms is
      non-negative and bounded by an allocation size.  The two products
      [n * n] that size an allocation are not, and are computed with the
      32-bit wrap-around ([int_mul]).  Keys, scores and status codes are
      [Z].
    - A C array is a [list] read with stdpp's total lookup [l !!! i] and
      written with [<[i:=x]> l].
    - [for] loops with a fixed range are folds over [seq].  The [while]
      loops of the drivers are [Fixpoint]s on a fuel argument that return
      [Timeout] when the fuel is exhausted; each driver supplies a bound
      and the development proves the bound is never reached
      ([hc_scan_done], [hc_passes_done], [best_first_step_terminates]).
      The two loops of the heap return their state when the fuel ends, and
      [heapify_fuel] and [heap_insert_fuel] show that more fuel than they
      are given changes nothing.
    - A failing [assert] of the heap or of the drivers is the outcome
      [AssertFail], tagged with the assertion that failed.  The index and
      capacity assertions of the permutation and partial-order accessors
      ([i < capacity], [n <= capacity], [u < dim]) are carried as
      hypotheses of the theorems instead.
    - [printf] tracing is not modelled.  [pmPrint] is modelled by the
      text it leaves in its buffer, a [string]; elements are printed in
      decimal with stdpp's [pretty], and [bufsiz] is a [nat]. *)

From stdpp Require Import base tactics option list numbers sorting.
From stdpp Require Import strings pretty.
From Stdlib Require Import ZArith Lia.

Local Open Scope nat_scope.

(* ---------------------------------------------------------------------- *)
(** ** Outcomes of fallible code *)

(** The assertions that are modelled as failures. *)
Inductive assertion : Type :=
| HeapOverflow     (* heap_insert: size < capacity *)
| HeapUnderflow    (* heap_extract_max, heap_max: size > 0 *)
| NoResult         (* best_first_step, VISIT: pmLength(best_seq) == n *)
| InvalidRepair.   (* make_valid_perm: is_valid_partial_perm *)

Inductive outcome (A : Type) : Type :=
| Done (a : A)
| AssertFail (why : assertion)
| Timeout.
Arguments Done {A} a.
Arguments AssertFail {A} why.
Arguments Timeout {A}.

#[global] Instance outcome_ret : MRet outcome := fun _ a => Done a.
#[global] Instance outcome_bind : MBind outcome := fun _ _ f m =>
  match m with
  | Done a => f a
  | AssertFail why => AssertFail why
  | Timeout => Timeout
  end.

(* ---------------------------------------------------------------------- *)
(** ** The products of two [int]s *)

(** Two allocations are sized by a product of two [int]s, [n * n], which
    no allocation bounds: the matrix of [poNew] and the queue of
    [best_first_init].  The product is modelled as the 32-bit machine
    computes it, with the two's-complement wrap-around (the overflow is
    undefined in C; the wrap is what the compiled code does).  A size that
    comes out negative stands for no slot at all. *)
Definition INT_MAX : Z := 2147483647.

Definition int_wrap (z : Z) : Z :=
  ((z + 2147483648) mod 4294967296 - 2147483648)%Z.

Definition int_mul (a b : nat) : Z := int_wrap (Z.of_nat a * Z.of_nat b).
Arguments int_mul : simpl never.

(* ---------------------------------------------------------------------- *)
(** ** Heap implementation (CLR) *)

Record heap_elt_t (V : Type) : Type := HeapElt { key : Z; val : V }.
Arguments HeapElt {V} key val.
Arguments key {V} h.
Arguments val {V} h.

(** [data] has [capacity + 1] slots; slot 0 is unused. *)
Record heap_t (V : Type) : Type := Heap {
  h_size : nat;
  h_capacity : nat;
  h_data : list (heap_elt_t V)
}.
Arguments Heap {V} h_size h_capacity h_data.
Arguments h_size {V} h.
Arguments h_capacity {V} h.
Arguments h_data {V} h.

Definition PARENT (n : nat) : nat := Nat.shiftr n 1.
Definition LEFT (n : nat) : nat := Nat.shiftl n 1.
Definition RIGHT (n : nat) : nat := Nat.shiftl n 1 + 1.

Section heap.
Context {V : Type} `{!Inhabited V}.

#[global] Instance heap_elt_inhabited : Inhabited (heap_elt_t V) :=
  populate (HeapElt 0%Z inhabitant).

(** [malloc] leaves the slots indeterminate; they are filled with the
    inhabitant here and never read before they are written. *)
Definition heap_new (n : nat) : heap_t V :=
  Heap 0 n (replicate (n + 1) inhabitant).

Definition heap_size (heap : heap_t V) : nat := h_size heap.

(** [heapify], as written: the left child is considered when
    [l < size], and the second test compares [data[i]] with
    [data[largest]]. *)
Fixpoint heapify_loop (fuel : nat) (heap : heap_t V) (i : nat) : heap_t V :=
  match fuel with
  | 0 => heap
  | S fuel' =>
      let d := h_data heap in
      let l := LEFT i in
      let r := RIGHT i in
      let largest :=
        if (l <? h_size heap) && (key (d !!! i) <? key (d !!! l))%Z
        then l else i in
      let largest :=
        if (r <? h_size heap) && (key (d !!! largest) <? key (d !!! i))%Z
        then r else largest in
      if largest =? i then heap
      else
        let tmp := d !!! i in
        let d := <[i := d !!! largest]> d in
        let d := <[largest := tmp]> d in
        heapify_loop fuel' (Heap (h_size heap) (h_capacity heap) d) largest
  end.

(** Every recursive call moves to an index [largest] with
    [i < largest < size], so [size] levels of recursion are enough. *)
Definition heapify (heap : heap_t V) (i : nat) : heap_t V :=
  heapify_loop (h_size heap) heap i.

Definition heap_extract_max (heap : heap_t V) : outcome (V * heap_t V) :=
  if 0 <? h_size heap then
    let max := h_data heap !!! 1 in
    let d := <[1 := h_data heap !!! h_size heap]> (h_data heap) in
    let heap := Heap (h_size heap - 1) (h_capacity heap) d in
    Done (val max, heapify heap 1)
  else AssertFail HeapUnderflow.

Definition heap_max (heap : heap_t V) : outcome V :=
  if 0 <? h_size heap then Done (val (h_data heap !!! 1))
  else AssertFail HeapUnderflow.

(** The sift-up loop of [heap_insert]; [i] halves at each turn. *)
Fixpoint heap_insert_loop (fuel : nat) (d : list (heap_elt_t V))
    (k : Z) (i : nat) : list (heap_elt_t V) * nat :=
  match fuel with
  | 0 => (d, i)
  | S fuel' =>
      if (1 <? i) && (key (d !!! PARENT i) <? k)%Z
      then heap_insert_loop fuel' (<[i := d !!! PARENT i]> d) k (PARENT i)
      else (d, i)
  end.

Definition heap_insert (heap : heap_t V) (k : Z) (v : V)
    : outcome (heap_t V) :=
  if h_size heap <? h_capacity heap then
    let size := h_size heap + 1 in
    let '(d, i) := heap_insert_loop size (h_data heap) k size in
    Done (Heap size (h_capacity heap) (<[i := HeapElt k v]> d))
  else AssertFail HeapOverflow.

(** The keys currently stored, in array order. *)
Definition heap_keys (heap : heap_t V) : list Z :=
  key <$> take (h_size heap) (drop 1 (h_data heap)).

Definition heap_vals (heap : heap_t V) : list V :=
  val <$> take (h_size heap) (drop 1 (h_data heap)).

End heap.

(* ---------------------------------------------------------------------- *)
(** ** Permutations *)

(** Element identifiers.  [pelt_t] is declared in rcomb.h; the code only
    stores loop indices into it and passes it to the partial order. *)
Abbreviation pelt_t := nat (only parsing).

(** The [valid] field holds the integrity sentinel and is only asserted
    on; it is left out. *)
Record permutation_t : Type := Perm {
  pm_size : nat;
  pm_capacity : nat;
  pm_elements : list pelt_t
}.

(** [malloc] leaves the buffer indeterminate; it is zero-filled here. *)
Definition pmNew (n : nat) : permutation_t := Perm 0 n (replicate n 0).

#[global] Instance permutation_inhabited : Inhabited permutation_t :=
  populate (pmNew 0).

(** [for(i=0; i<k; i++) dst[i] = src[i];] *)
Definition copy_elements (k : nat) (dst src : list pelt_t) : list pelt_t :=
  foldl (fun d i => <[i := src !!! i]> d) dst (seq 0 k).

Definition pmCopy (copy ptr : permutation_t) : permutation_t :=
  Perm (pm_size ptr) (pm_capacity copy)
       (copy_elements (pm_size ptr) (pm_elements copy) (pm_elements ptr)).

Definition pmCopyAll (copy ptr : permutation_t) : permutation_t :=
  Perm (pm_size ptr) (pm_capacity copy)
       (copy_elements (pm_capacity ptr) (pm_elements copy) (pm_elements ptr)).

Definition pmDup (ptr : permutation_t) : permutation_t :=
  let copy := pmNew (pm_capacity ptr) in
  Perm (pm_size ptr) (pm_capacity copy)
       (copy_elements (pm_capacity ptr) (pm_elements copy) (pm_elements ptr)).

Definition pmElt (pm : permutation_t) (i : nat) : pelt_t :=
  pm_elements pm !!! i.

Definition pmSetElt (pm : permutation_t) (i : nat) (v : pelt_t) : permutation_t :=
  Perm (if pm_size pm <=? i then i + 1 else pm_size pm) (pm_capacity pm)
       (<[i := v]> (pm_elements pm)).

Definition pmSize (pm : permutation_t) : nat := pm_size pm.

Definition pmSetSize (pm : permutation_t) (n : nat) : permutation_t :=
  Perm n (pm_capacity pm) (pm_elements pm).

Definition pmIdentity (pm : permutation_t) : permutation_t :=
  Perm (pm_capacity pm) (pm_capacity pm)
       (foldl (fun d i => <[i := i]> d) (pm_elements pm) (seq 0 (pm_capacity pm))).

Definition pmLength (pm : permutation_t) : nat := pm_size pm.

Definition pmSwap (pm : permutation_t) (i j : nat) : permutation_t :=
  let tmp := pm_elements pm !!! i in
  let e := <[i := pm_elements pm !!! j]> (pm_elements pm) in
  Perm (pm_size pm) (pm_capacity pm) (<[j := tmp]> e).

Definition pmEqual (pm1 pm2 : permutation_t) : bool :=
  if negb (pm_size pm1 =? pm_size pm2) then false
  else forallb (fun i => pm_elements pm1 !!! i =? pm_elements pm2 !!! i)
               (seq 0 (pm_size pm1)).

(* ---------------------------------------------------------------------- *)
(** ** Partial orders *)

(** Modelled from the spec: the enumeration [po_relation_t] of rcomb.h,
    which is not among the sources.  The spec names its four values and
    gives the table of [inverse]; in the code [poInverse] is
    [rel == PO_INCOMPARABLE ? rel : -rel], which is that table when [PO_EQ]
    is 0 and [PO_LT] and [PO_GT] are opposite. *)
Inductive po_relation_t : Type :=
| PO_LT
| PO_EQ
| PO_GT
| PO_INCOMPARABLE.

#[global] Instance po_relation_eq_dec : EqDecision po_relation_t.
Proof. solve_decision. Defined.

#[global] Instance po_relation_inhabited : Inhabited po_relation_t :=
  populate PO_INCOMPARABLE.

(** The matrix is stored row-major in [data], entry [(u,v)] at
    [u * dim + v]. *)
Record partial_order_t : Type := PO {
  dim : nat;
  po_data : list po_relation_t
}.

Definition poNew (n : nat) : partial_order_t :=
  PO n (replicate (Z.to_nat (int_mul n n)) PO_INCOMPARABLE).

Definition poGet (po : partial_order_t) (u v : nat) : po_relation_t :=
  po_data po !!! (u * dim po + v).

Definition poIsMin (po : partial_order_t) (u : nat) : bool :=
  forallb (fun i => negb (bool_decide (poGet po u i = PO_GT))) (seq 0 (dim po)).

Definition poInverse (rel : po_relation_t) : po_relation_t :=
  match rel with
  | PO_INCOMPARABLE => PO_INCOMPARABLE
  | PO_LT => PO_GT
  | PO_GT => PO_LT
  | PO_EQ => PO_EQ
  end.

Definition poSetOrder (po : partial_order_t) (u v : nat) (rel : po_relation_t)
    : partial_order_t :=
  let d := <[u * dim po + v := rel]> (po_data po) in
  PO (dim po) (<[v * dim po + u := poInverse rel]> d).

Definition poIncomparable (po : partial_order_t) (u v : nat) : bool :=
  let cmp := po_data po !!! (u * dim po + v) in
  bool_decide (cmp = PO_INCOMPARABLE).

Definition poComparable (po : partial_order_t) (u v : nat) : bool :=
  let cmp := po_data po !!! (u * dim po + v) in
  negb (bool_decide (cmp = PO_INCOMPARABLE)).

(** The body of the innermost loop of [poClosure]. *)
Definition closure_visit (k i : nat) (po : partial_order_t) (j : nat)
    : partial_order_t :=
  if poIncomparable po i j then
    if bool_decide (poGet po i k = poGet po k j)
    then poSetOrder po i j (poGet po i k)
    else po
  else po.

Definition closure_row (n k : nat) (po : partial_order_t) (i : nat)
    : partial_order_t :=
  foldl (closure_visit k i) po (seq 0 n).

Definition closure_pivot (n : nat) (po : partial_order_t) (k : nat)
    : partial_order_t :=
  foldl (closure_row n k) po (seq 0 n).

(** Warshall's algorithm: [for k, for i, for j]. *)
Definition poClosure (po : partial_order_t) : partial_order_t :=
  let n := dim po in
  foldl (closure_pivot n) po (seq 0 n).

(* ---------------------------------------------------------------------- *)
(** ** Status codes and the evaluation callback *)

(** Modelled from the spec: the status codes of rcomb.h, which is not
    among the sources.  The code relies on [RC_ERR_NONE] being 0 ([err]
    starts at 0 and is tested with [!err]); the other two are distinct
    non-zero codes, and nothing below depends on their values beyond
    that. *)
Definition RC_ERR_NONE : Z := 0.
Definition RC_ERR_COMPLETE : Z := 1.
Definition RC_ERR_NODATA : Z := 2.

(** [int evf(void *context, const permutation_t *perm, int *score)]:
    the callback returns a status and a score and may update the data
    behind [context]. *)
Definition evaluation_func_t (C : Type) : Type :=
  C -> permutation_t -> Z * Z * C.

(* ---------------------------------------------------------------------- *)
(** ** Hill climbing *)

Record hc_state_t : Type := HC {
  hc_n : nat;
  hc_i : nat;
  hc_j : nat;
  hc_improved : bool;
  hc_best_seq : permutation_t;
  hc_next_seq : permutation_t
}.

Definition hill_climb_init (start : permutation_t) : hc_state_t :=
  HC (pmLength start) 0 1 true (pmDup start) (pmNew (pmLength start)).

(** Verify all the pairwise swaps that would be necessary to do a general
    swap between [u] and [v]. *)
Definition check_valid_swap (po : partial_order_t) (perm : permutation_t)
    (u v : nat) : bool :=
  if poComparable po (pmElt perm u) (pmElt perm v) then false
  else
    forallb
      (fun i => negb (poComparable po (pmElt perm u) (pmElt perm i)
                      || poComparable po (pmElt perm i) (pmElt perm v)))
      (seq (u + 1) (v - (u + 1))).

(** What the scan over the pairs leaves behind: the status, the cursor,
    the best score so far, the state and the oracle's context. *)
Record hc_scan_t (C : Type) : Type := HcScan {
  sc_err : Z;
  sc_i : nat;
  sc_j : nat;
  sc_best_score : Z;
  sc_hc : hc_state_t;
  sc_ctx : C
}.
Arguments HcScan {C} _ _ _ _ _ _.
Arguments sc_err {C} _.
Arguments sc_i {C} _.
Arguments sc_j {C} _.
Arguments sc_best_score {C} _.
Arguments sc_hc {C} _.
Arguments sc_ctx {C} _.

Section hill_climb.
Context {C : Type}.
Variable po : partial_order_t.
Variable evf : evaluation_func_t C.

(** The inner loop [while(i < n-1)].  A non-zero [sc_err] is the
    [goto done]; a zero one is the normal exit of the loop. *)
Fixpoint hc_scan (fuel : nat) (hc : hc_state_t) (ctx : C) (i j : nat)
    (best_score : Z) : outcome (hc_scan_t C) :=
  match fuel with
  | 0 => Timeout
  | S fuel' =>
      let n := hc_n hc in
      if i <? n - 1 then
        let valid_swap := check_valid_swap po (hc_next_seq hc) i j in
        let next_ij (i j : nat) : nat * nat :=
          let j := j + 1 in
          if n <=? j then (i + 1, i + 1 + 1) else (i, j) in
        if valid_swap then
          let next := pmSwap (hc_next_seq hc) i j in
          let '(err, next_score, ctx) := evf ctx next in
          if negb (err =? 0)%Z then
            Done (HcScan err i j best_score
                    (HC n (hc_i hc) (hc_j hc) (hc_improved hc)
                        (hc_best_seq hc) next) ctx)
          else
            let '(improved, best_score, best) :=
              if (best_score <? next_score)%Z
              then (true, next_score, pmCopy (hc_best_seq hc) next)
              else (hc_improved hc, best_score, hc_best_seq hc) in
            let next := pmSwap next i j in
            let '(i', j') := next_ij i j in
            hc_scan fuel' (HC n (hc_i hc) (hc_j hc) improved best next)
                    ctx i' j' best_score
        else
          let '(i', j') := next_ij i j in
          hc_scan fuel' hc ctx i' j' best_score
      else Done (HcScan 0 i j best_score hc ctx)
  end.

(** The number of turns the inner loop can still take from [(i,j)]. *)
Definition hc_scan_bound (n i j : nat) : nat :=
  (n - i) * (n + 1) + (n - j) + 1.

(** The outer loop [while(!err && hc->improved)]. *)
Fixpoint hc_passes (fuel : nat) (hc : hc_state_t) (ctx : C) (err : Z)
    (best_score : Z) : outcome (Z * hc_state_t * C) :=
  match fuel with
  | 0 => Timeout
  | S fuel' =>
      if (err =? 0)%Z && hc_improved hc then
        let hc := HC (hc_n hc) (hc_i hc) (hc_j hc) (hc_improved hc)
                     (hc_best_seq hc)
                     (pmCopy (hc_next_seq hc) (hc_best_seq hc)) in
        sc ← hc_scan (hc_scan_bound (hc_n hc) (hc_i hc) (hc_j hc))
                     hc ctx (hc_i hc) (hc_j hc) best_score;
        let hc := sc_hc sc in
        if (sc_err sc =? 0)%Z then
          (* reset loop *)
          hc_passes fuel'
            (HC (hc_n hc) 0 1 false (hc_best_seq hc) (hc_next_seq hc))
            (sc_ctx sc) (sc_err sc) (sc_best_score sc)
        else
          (* done: *)
          hc_passes fuel'
            (HC (hc_n hc) (sc_i sc) (sc_j sc) (hc_improved hc)
                (hc_best_seq hc) (hc_next_seq hc))
            (sc_ctx sc) (sc_err sc) (sc_best_score sc)
      else Done (err, hc, ctx)
  end.

(** A turn of the outer loop ends with [err] set or with [improved]
    cleared, so the loop is left after at most one turn; the bound 2
    covers that turn and the exit test. *)
Definition hill_climb_step (hc : hc_state_t) (ctx : C)
    : outcome (Z * hc_state_t * C) :=
  (* evaluate (re-evaluate?) current state *)
  let '(err, best_score, ctx) := evf ctx (hc_best_seq hc) in
  let '(err, hc) :=
    if negb (err =? 0)%Z
    then (RC_ERR_NODATA,
          HC (hc_n hc) (hc_i hc) (hc_j hc) (hc_improved hc) (hc_best_seq hc)
             (pmCopy (hc_next_seq hc) (hc_best_seq hc)))
    else (err, hc) in
  r ← hc_passes 2 hc ctx err best_score;
  let '(err, hc, ctx) := r in
  (* check if we are done *)
  let err :=
    if (err =? 0)%Z && negb (hc_improved hc) then RC_ERR_COMPLETE else err in
  Done (err, hc, ctx).

Definition hill_climb_result (hc : hc_state_t) : permutation_t := hc_best_seq hc.

End hill_climb.

(* ---------------------------------------------------------------------- *)
(** ** Best-first search *)

Inductive rc_bfs_state_t : Type :=
| RC_BFS_INIT
| RC_BFS_VISIT
| RC_BFS_EXPAND
| RC_BFS_DONE.

Record bf_state_t (C : Type) : Type := BF {
  bf_n : nat;
  bf_i : nat;
  bf_j : nat;
  bf_improved : bool;
  bf_pq : heap_t permutation_t;
  bf_po : partial_order_t;
  bf_best_seq : permutation_t;
  bf_next_seq : permutation_t;
  bf_evfunc : evaluation_func_t C;
  bf_evcontext : C;
  bf_state : rc_bfs_state_t
}.
Arguments BF {C} _ _ _ _ _ _ _ _ _ _ _.
Arguments bf_n {C} _.
Arguments bf_i {C} _.
Arguments bf_j {C} _.
Arguments bf_improved {C} _.
Arguments bf_pq {C} _.
Arguments bf_po {C} _.
Arguments bf_best_seq {C} _.
Arguments bf_next_seq {C} _.
Arguments bf_evfunc {C} _.
Arguments bf_evcontext {C} _.
Arguments bf_state {C} _.

(** Assumes that [perm[0..n-1]] contains all the filters, and checks
    [perm[0..len-1]]. *)
Definition is_valid_partial_perm (po : partial_order_t) (perm : permutation_t)
    (n : nat) : bool :=
  forallb
    (fun i =>
       forallb
         (fun j => negb (bool_decide
                           (poGet po (pmElt perm i) (pmElt perm j) = PO_GT)))
         (seq (i + 1) (n - (i + 1))))
    (seq 0 (pmLength perm)).

(** One turn of the inner loop of [make_valid_perm]; the state is the
    permutation and [v1]. *)
Definition make_valid_visit (po : partial_order_t) (i : nat)
    (st : permutation_t * pelt_t) (j : nat) : permutation_t * pelt_t :=
  let '(perm, v1) := st in
  let v2 := pmElt perm j in
  if bool_decide (poGet po v1 v2 = PO_GT)
  then (pmSwap perm i j, v2)
  else (perm, v1).

Definition make_valid_row (po : partial_order_t) (n : nat)
    (perm : permutation_t) (i : nat) : permutation_t :=
  let v1 := pmElt perm i in
  fst (foldl (make_valid_visit po i) (perm, v1) (seq (i + 1) (n - (i + 1)))).

(** Basically, run topo sort on [perm[len..n-1]]. *)
Definition make_valid_perm (po : partial_order_t) (perm : permutation_t)
    (n : nat) : outcome permutation_t :=
  let start := pmLength perm in
  let perm := foldl (make_valid_row po n) perm (seq start (n - start)) in
  if is_valid_partial_perm po perm n then Done perm
  else AssertFail InvalidRepair.

Section best_first.
Context {C : Type}.

Definition best_first_init (n : nat) (po : partial_order_t)
    (evf : evaluation_func_t C) (context : C) : bf_state_t C :=
  BF n 0 0 true (heap_new (Z.to_nat (int_mul n n))) po (pmNew n) (pmNew n)
     evf context RC_BFS_INIT.

(** [case RC_BFS_INIT]: the loop [while(bf->i < n)]. *)
Fixpoint bf_init_loop (fuel : nat) (bf : bf_state_t C)
    : outcome (Z * bf_state_t C) :=
  match fuel with
  | 0 => Timeout
  | S fuel' =>
      let n := bf_n bf in
      if bf_i bf <? n then
        if poIsMin (bf_po bf) (bf_i bf) then
          (* setup the permutation so that the unused part contains the
             filters not used *)
          let perm := pmNew n in
          let perm := pmIdentity perm in
          let perm := pmSwap perm 0 (bf_i bf) in
          let perm := pmSetSize perm 1 in
          let '(err, next_score, ctx) := bf_evfunc bf (bf_evcontext bf) perm in
          if negb (err =? 0)%Z then
            let next := pmCopyAll (bf_next_seq bf) perm in
            next ← make_valid_perm (bf_po bf) next n;
            let next := pmSetSize next n in
            Done (RC_ERR_NODATA,
                  BF n (bf_i bf) (bf_j bf) (bf_improved bf) (bf_pq bf)
                     (bf_po bf) (bf_best_seq bf) next (bf_evfunc bf) ctx
                     (bf_state bf))
          else
            pq ← heap_insert (bf_pq bf) next_score perm;
            bf_init_loop fuel'
              (BF n (bf_i bf + 1) (bf_j bf) (bf_improved bf) pq (bf_po bf)
                  (bf_best_seq bf) (bf_next_seq bf) (bf_evfunc bf) ctx
                  (bf_state bf))
        else
          bf_init_loop fuel'
            (BF n (bf_i bf + 1) (bf_j bf) (bf_improved bf) (bf_pq bf)
                (bf_po bf) (bf_best_seq bf) (bf_next_seq bf) (bf_evfunc bf)
                (bf_evcontext bf) (bf_state bf))
      else
        Done (RC_ERR_NONE,
              BF n (bf_i bf) (bf_j bf) (bf_improved bf) (bf_pq bf) (bf_po bf)
                 (bf_best_seq bf) (bf_next_seq bf) (bf_evfunc bf)
                 (bf_evcontext bf) RC_BFS_VISIT)
  end.

(** [case RC_BFS_VISIT]. *)
Definition bf_visit (bf : bf_state_t C) : outcome (Z * bf_state_t C) :=
  if heap_size (bf_pq bf) =? 0 then
    if pmLength (bf_best_seq bf) =? bf_n bf
    then Done (RC_ERR_COMPLETE, bf)
    else AssertFail NoResult
  else
    r ← heap_extract_max (bf_pq bf);
    let '(top, pq) := r in
    let best := pmCopyAll (bf_best_seq bf) top in
    (* found full permutation *)
    if pmLength best =? bf_n bf then
      Done (RC_ERR_COMPLETE,
            BF (bf_n bf) (bf_i bf) (bf_j bf) (bf_improved bf) pq (bf_po bf)
               best (bf_next_seq bf) (bf_evfunc bf) (bf_evcontext bf)
               RC_BFS_DONE)
    else
      Done (RC_ERR_NONE,
            BF (bf_n bf) (bf_i bf) (pmSize best) (bf_improved bf) pq
               (bf_po bf) best (bf_next_seq bf) (bf_evfunc bf)
               (bf_evcontext bf) RC_BFS_EXPAND).

(** [case RC_BFS_EXPAND]: the loop [while(bf->j < n)]. *)
Fixpoint bf_expand_loop (fuel : nat) (bf : bf_state_t C)
    : outcome (Z * bf_state_t C) :=
  match fuel with
  | 0 => Timeout
  | S fuel' =>
      let n := bf_n bf in
      if bf_j bf <? n then
        let pos := pmSize (bf_best_seq bf) in
        let next := pmCopyAll (bf_next_seq bf) (bf_best_seq bf) in
        let next := pmSwap next pos (bf_j bf) in
        let next := pmSetSize next (pos + 1) in
        if is_valid_partial_perm (bf_po bf) next n then
          let '(err, score, ctx) := bf_evfunc bf (bf_evcontext bf) next in
          if negb (err =? 0)%Z then
            next ← make_valid_perm (bf_po bf) next n;
            let next := pmSetSize next n in
            Done (RC_ERR_NODATA,
                  BF n (bf_i bf) (bf_j bf) (bf_improved bf) (bf_pq bf)
                     (bf_po bf) (bf_best_seq bf) next (bf_evfunc bf) ctx
                     (bf_state bf))
          else
            pq ← heap_insert (bf_pq bf) score (pmDup next);
            bf_expand_loop fuel'
              (BF n (bf_i bf) (bf_j bf + 1) (bf_improved bf) pq (bf_po bf)
                  (bf_best_seq bf) next (bf_evfunc bf) ctx (bf_state bf))
        else
          bf_expand_loop fuel'
            (BF n (bf_i bf) (bf_j bf + 1) (bf_improved bf) (bf_pq bf)
                (bf_po bf) (bf_best_seq bf) next (bf_evfunc bf)
                (bf_evcontext bf) (bf_state bf))
      else
        Done (RC_ERR_NONE,
              BF n (bf_i bf) (bf_j bf) (bf_improved bf) (bf_pq bf) (bf_po bf)
                 (bf_best_seq bf) (bf_next_seq bf) (bf_evfunc bf)
                 (bf_evcontext bf) RC_BFS_VISIT)
  end.

(** [case RC_BFS_DONE]: drain the queue. *)
Fixpoint bf_drain_loop (fuel : nat) (pq : heap_t permutation_t)
    : outcome (heap_t permutation_t) :=
  match fuel with
  | 0 => Timeout
  | S fuel' =>
      if negb (heap_size pq =? 0) then
        r ← heap_extract_max pq;
        bf_drain_loop fuel' (snd r)
      else Done pq
  end.

(** Each loop is given one turn more than the distance of its counter
    from its bound. *)
Definition best_first_step (bf : bf_state_t C) : outcome (Z * bf_state_t C) :=
  match bf_state bf with
  | RC_BFS_INIT => bf_init_loop (bf_n bf - bf_i bf + 1) bf
  | RC_BFS_VISIT => bf_visit bf
  | RC_BFS_EXPAND => bf_expand_loop (bf_n bf - bf_j bf + 1) bf
  | RC_BFS_DONE =>
      pq ← bf_drain_loop (heap_size (bf_pq bf) + 1) (bf_pq bf);
      Done (RC_ERR_NONE,
            BF (bf_n bf) (bf_i bf) (bf_j bf) (bf_improved bf) pq (bf_po bf)
               (bf_best_seq bf) (bf_next_seq bf) (bf_evfunc bf)
               (bf_evcontext bf) RC_BFS_INIT)
  end.

Definition best_first_result (bf : bf_state_t C) : permutation_t := bf_best_seq bf.
Definition best_first_next (bf : bf_state_t C) : permutation_t := bf_next_seq bf.

End best_first.

(* ---------------------------------------------------------------------- *)
(** ** Scenarios and properties *)

(** A client of the heap: a sequence of operations run from left to
    right; the run fails as soon as an operation's assertion fails. *)
Inductive heap_op : Type :=
| HInsert (k : Z)
| HExtractMax.

Definition heap_apply (heap : heap_t Z) (op : heap_op) : outcome (heap_t Z) :=
  match op with
  | HInsert k => heap_insert heap k k
  | HExtractMax => r ← heap_extract_max heap; Done (snd r)
  end.

Fixpoint heap_run (heap : heap_t Z) (ops : list heap_op) : outcome (heap_t Z) :=
  match ops with
  | [] => Done heap
  | op :: ops' => h ← heap_apply heap op; heap_run h ops'
  end.

(** [n] successive calls of [heap_extract_max], collecting the values. *)
Fixpoint heap_extract_n (n : nat) (heap : heap_t Z) : outcome (list Z * heap_t Z) :=
  match n with
  | 0 => Done ([], heap)
  | S n' =>
      r ← heap_extract_max heap;
      r' ← heap_extract_n n' (snd r);
      Done (fst r :: fst r', snd r')
  end.

(** The key at the root is at least every key in the heap. *)
Definition heap_root_is_max {V} `{!Inhabited V} (heap : heap_t V) : Prop :=
  ∀ k, k ∈ heap_keys heap → (k ≤ key (h_data heap !!! 1%nat))%Z.

(** Scenario oracle: always OK, score [- sum (i * perm[i])]. *)
Definition weighted_score (pm : permutation_t) : Z :=
  (- foldr Z.add 0
       (imap (fun i x => Z.of_nat i * Z.of_nat x)
             (take (pm_size pm) (pm_elements pm))))%Z.

Definition weighted_oracle : evaluation_func_t unit :=
  fun ctx pm => (0%Z, weighted_score pm, ctx).

Definition identity_perm (n : nat) : permutation_t := pmIdentity (pmNew n).
Arguments identity_perm : simpl never.

(** An oracle that fails on every permutation with status [e]. *)
Definition failing_oracle (e : Z) : evaluation_func_t unit :=
  fun ctx pm => (e, 0%Z, ctx).


(** *** Heaps *)

(** The buffer has [capacity + 1] slots and the heap is not over-full. *)
Definition heap_wf {V} (heap : heap_t V) : Prop :=
  length (h_data heap) = h_capacity heap + 1 ∧ h_size heap ≤ h_capacity heap.

(** Every value stored in the slots [1 .. size] satisfies [P]. *)
Definition heap_all {V} `{!Inhabited V} (P : V → Prop) (heap : heap_t V) : Prop :=
  ∀ k, 1 ≤ k ≤ h_size heap → P (val (h_data heap !!! k)).

(** *** Permutations *)

(** [pm] has capacity [n] and its buffer holds each of [0 .. n-1] once. *)
Definition perm_full (n : nat) (pm : permutation_t) : Prop :=
  pm_capacity pm = n ∧ pm_elements pm ≡ₚ seq 0 n.

(** Validity of a partial permutation: no decided position is GT a later
    position. *)
Definition valid_partial (po : partial_order_t) (perm : permutation_t)
    (n : nat) : Prop :=
  ∀ i j, i < pmLength perm → i < j < n →
         poGet po (pmElt perm i) (pmElt perm j) ≠ PO_GT.

(** Precedence validity of a full ordering. *)
Definition precedence_valid (po : partial_order_t) (perm : permutation_t)
    (n : nat) : Prop :=
  ∀ i j, i < j < n → poGet po (pmElt perm i) (pmElt perm j) ≠ PO_GT.

(** [e'] is [e] with the positions from [i] on permuted. *)
Definition tail_perm (i : nat) (e e' : list pelt_t) : Prop :=
  take i e' = take i e ∧ drop i e' ≡ₚ drop i e.

(** The element at position [i] is not GT any later element. *)
Definition row_valid (po : partial_order_t) (e : list pelt_t) (i : nat) : Prop :=
  ∀ x, x ∈ drop (S i) e → poGet po (e !!! i) x ≠ PO_GT.

(** GT is transitive, and asymmetric, on the elements below [n]. *)
Definition gt_transitive (n : nat) (po : partial_order_t) : Prop :=
  ∀ a b c, a < n → b < n → c < n →
           poGet po a b = PO_GT → poGet po b c = PO_GT → poGet po a c = PO_GT.

Definition gt_asymmetric (n : nat) (po : partial_order_t) : Prop :=
  ∀ a b, a < n → b < n → poGet po a b = PO_GT → poGet po b a ≠ PO_GT.

(** *** Partial-order matrices *)

(** The buffer has [dim * dim] entries. *)
Definition po_wf (po : partial_order_t) : Prop :=
  length (po_data po) = dim po * dim po.

(** The mirror invariant: [M[v][u] = inverse(M[u][v])]. *)
Definition po_mirror (po : partial_order_t) : Prop :=
  ∀ u v, u < dim po → v < dim po → poGet po v u = poInverse (poGet po u v).

(** Every comparable entry of [po] is the value [T] gives to the pair. *)
Definition po_agrees (po : partial_order_t) (T : nat → nat → po_relation_t)
    : Prop :=
  ∀ u v, u < dim po → v < dim po →
         poGet po u v ≠ PO_INCOMPARABLE → poGet po u v = T u v.

(** [T] composes each of LT, EQ and GT with itself on [[0,n)]. *)
Definition rel_transitive (n : nat) (T : nat → nat → po_relation_t) : Prop :=
  ∀ u w v r, u < n → w < n → v < n → r ≠ PO_INCOMPARABLE →
             T u w = r → T w v = r → T u v = r.

(** [po'] has the comparable entries of [po], unchanged. *)
Definition po_extends (po po' : partial_order_t) : Prop :=
  dim po' = dim po
  ∧ ∀ u v, u < dim po → v < dim po →
           poGet po u v ≠ PO_INCOMPARABLE → poGet po' u v = poGet po u v.

(** The state of the matrix during the pass for pivot [k], relative to
    the matrix [po0] the pass started from: entries are only ever filled in,
    each filled entry comes from equal entries of row and column [k] of
    [po0], and every pair in [visited] that row and column [k] relate has
    been filled. *)
Record stage_inv (po0 : partial_order_t) (k : nat)
    (visited : nat → nat → Prop) (po : partial_order_t) : Prop := StageInv {
  si_dim : dim po = dim po0;
  si_wf : po_wf po;
  si_mirror : po_mirror po;
  si_keep : ∀ i j, i < dim po0 → j < dim po0 →
    poGet po0 i j ≠ PO_INCOMPARABLE → poGet po i j = poGet po0 i j;
  si_origin : ∀ i j, i < dim po0 → j < dim po0 →
    poGet po i j ≠ PO_INCOMPARABLE →
    poGet po i j = poGet po0 i j
    ∨ (poGet po0 i k = poGet po i j ∧ poGet po0 k j = poGet po i j);
  si_filled : ∀ i j, i < dim po0 → j < dim po0 → visited i j →
    poGet po0 i k ≠ PO_INCOMPARABLE → poGet po0 i k = poGet po0 k j →
    poGet po i j ≠ PO_INCOMPARABLE
}.

(** The matrix after the passes for the pivots below [k]: it agrees with
    [T] and is closed through every pivot below [k]. *)
Record closed_upto (T : nat → nat → po_relation_t) (n k : nat)
    (po : partial_order_t) : Prop := ClosedUpto {
  cu_dim : dim po = n;
  cu_wf : po_wf po;
  cu_mirror : po_mirror po;
  cu_agrees : po_agrees po T;
  cu_trans : ∀ w i j, w < k → i < n → j < n →
    poGet po i w ≠ PO_INCOMPARABLE → poGet po i w = poGet po w j →
    poGet po i j = poGet po i w
}.

(** The relation that compares the elements by a rank. *)
Definition rank_relation (rank : nat → nat) (u v : nat) : po_relation_t :=
  match Nat.compare (rank u) (rank v) with
  | Lt => PO_LT
  | Eq => PO_EQ
  | Gt => PO_GT
  end.

(** Matrices of the scenarios, each built by [poSetOrder] calls on a
    fresh matrix. *)
Definition po_chain3 : partial_order_t :=
  poSetOrder (poSetOrder (poNew 3) 0 1 PO_LT) 1 2 PO_LT.

Definition po_cycle3 : partial_order_t := poSetOrder po_chain3 0 2 PO_GT.

Definition po_eq_chain3 : partial_order_t :=
  poSetOrder (poSetOrder (poNew 3) 0 1 PO_EQ) 1 2 PO_EQ.

Definition po_clash4 : partial_order_t :=
  poSetOrder
    (poSetOrder (poSetOrder (poSetOrder (poNew 4) 0 1 PO_LT) 0 2 PO_EQ)
                1 2 PO_LT)
    2 3 PO_LT.

(** *** The best-first driver *)

(** What the driver keeps in its queue: a buffer holding [0 .. n-1], at
    most [n] decided positions, and a valid decided prefix. *)
Definition queued_ok (n : nat) (po : partial_order_t) (p : permutation_t)
    : Prop :=
  perm_full n p ∧ pm_size p ≤ n ∧ valid_partial po p n.

(** What the host sees in [next_seq] after a repair. *)
Definition repaired (n : nat) (po : partial_order_t) (pm : permutation_t)
    : Prop :=
  pmLength pm = n ∧ perm_full n pm ∧ precedence_valid po pm n.

Record bf_inv {C : Type} (n : nat) (po : partial_order_t)
    (bf : bf_state_t C) : Prop := BfInv {
  bi_n : bf_n bf = n;
  bi_po : bf_po bf = po;
  bi_heap_wf : heap_wf (bf_pq bf);
  bi_capacity : h_capacity (bf_pq bf) = Z.to_nat (int_mul n n);
  bi_heap : heap_all (queued_ok n po) (bf_pq bf);
  bi_best : pm_capacity (bf_best_seq bf) = n
            ∧ length (pm_elements (bf_best_seq bf)) = n;
  bi_next : pm_capacity (bf_next_seq bf) = n
            ∧ length (pm_elements (bf_next_seq bf)) = n;
  bi_expand : bf_state bf = RC_BFS_EXPAND →
              pm_elements (bf_best_seq bf) ≡ₚ seq 0 n
              ∧ pm_size (bf_best_seq bf) < n
}.

(** Between two steps the host may change the data behind the oracle's
    context (it collects the statistics the oracle asked for). *)
Definition bf_set_context {C : Type} (bf : bf_state_t C) (c : C) : bf_state_t C :=
  BF (bf_n bf) (bf_i bf) (bf_j bf) (bf_improved bf) (bf_pq bf) (bf_po bf)
     (bf_best_seq bf) (bf_next_seq bf) (bf_evfunc bf) c (bf_state bf).

(** The states of a run: what [best_first_init] builds, followed by any
    number of steps that return, interleaved with the host's updates. *)
Inductive bf_reach {C : Type} (n : nat) (po : partial_order_t)
    (evf : evaluation_func_t C) : bf_state_t C → Prop :=
| bf_reach_init (c : C) :
    bf_reach n po evf (best_first_init n po evf c)
| bf_reach_step (bf bf' : bf_state_t C) (e : Z) :
    bf_reach n po evf bf →
    best_first_step bf = Done (e, bf') →
    bf_reach n po evf bf'
| bf_reach_host (bf : bf_state_t C) (c : C) :
    bf_reach n po evf bf →
    bf_reach n po evf (bf_set_context bf c).

(** A partial order that was not closed: 1 > 3 and 3 > 2, nothing said
    about 1 and 2. *)
Definition po_open4 : partial_order_t :=
  poSetOrder (poSetOrder (poNew 4) 1 3 PO_GT) 3 2 PO_GT.

(** An oracle that always scores 0. *)
Definition flat_oracle : evaluation_func_t unit :=
  fun ctx pm => (0%Z, 0%Z, ctx).

(** [k] successive steps of the driver; the run stops at the first step
    that does not return. *)
Fixpoint bf_steps {C : Type} (k : nat) (bf : bf_state_t C)
    : outcome (bf_state_t C) :=
  match k with
  | 0 => Done bf
  | S k' => r ← best_first_step bf; bf_steps k' r.2
  end.

(** A partial order on three elements with the single edge 1 > 2. *)
Definition po_swap3 : partial_order_t := poSetOrder (poNew 3) 1 2 PO_GT.

(** An oracle that prefers short prefixes: the score is minus the number
    of decided positions. *)
Definition shortest_first_oracle : evaluation_func_t unit :=
  fun ctx pm => (0%Z, (- Z.of_nat (pm_size pm))%Z, ctx).

(** *** Order and contents of the heap *)

(** The heap property: no live slot has a key above its parent's. *)
Definition heap_ordered {V} `{!Inhabited V} (heap : heap_t V) : Prop :=
  ∀ i, 2 ≤ i ≤ h_size heap →
       (key (h_data heap !!! i) ≤ key (h_data heap !!! PARENT i))%Z.

(** The live entries, slots [1 .. size], in array order. *)
Definition heap_entries {V} (heap : heap_t V) : list (heap_elt_t V) :=
  take (h_size heap) (drop 1 (h_data heap)).

(** *** Hill climbing *)

(** A permutation object whose length, capacity and buffer are all [n]. *)
Definition pm_filled (n : nat) (pm : permutation_t) : Prop :=
  pm_size pm = n ∧ pm_capacity pm = n ∧ length (pm_elements pm) = n.

(** The states the hill climber works on: both buffers hold [n] slots,
    the current best has length [n], and the cursor, while it is inside
    the scan, points at a pair [i < j < n]. *)
Definition hc_full (hc : hc_state_t) : Prop :=
  pm_filled (hc_n hc) (hc_best_seq hc)
  ∧ pm_capacity (hc_next_seq hc) = hc_n hc
  ∧ length (pm_elements (hc_next_seq hc)) = hc_n hc
  ∧ (hc_i hc < hc_n hc - 1 → hc_i hc < hc_j hc < hc_n hc).

(** [best'] is [best], or [best] with one accepted pair exchanged. *)
Definition one_swap_of (po : partial_order_t) (n : nat)
    (best best' : permutation_t) : Prop :=
  best' = best
  ∨ ∃ a b, a < b < n ∧ check_valid_swap po best a b = true
           ∧ best' = pmSwap best a b.

(** An oracle that always succeeds, with the score [f] gives. *)
Definition score_oracle {C : Type} (f : permutation_t → Z)
    : evaluation_func_t C :=
  fun ctx pm => (0%Z, f pm, ctx).

(** *** The result of the best-first search *)

(** What holds of [best_seq] and of the INIT cursor in every state of a
    run: a [best_seq] of full length is a precedence-valid permutation;
    once the INIT phase is over its cursor has reached [n]; and in the
    DONE phase [best_seq] has full length. *)
Definition bf_result_ok {C : Type} (n : nat) (po : partial_order_t)
    (bf : bf_state_t C) : Prop :=
  (pmLength (bf_best_seq bf) = n →
   perm_full n (bf_best_seq bf) ∧ precedence_valid po (bf_best_seq bf) n)
  ∧ (bf_state bf ≠ RC_BFS_INIT → n ≤ bf_i bf)
  ∧ (bf_state bf = RC_BFS_DONE → pmLength (bf_best_seq bf) = n).

(** What keeps the search from running dry: in the INIT phase the queue
    is not empty, or [best_seq] is already full, or a minimal element is
    still ahead of the cursor; in the VISIT phase the queue is not empty
    or [best_seq] is full; in the EXPAND phase the queue is not empty or a
    valid child is still ahead of the cursor. *)
Definition bf_live {C : Type} (n : nat) (po : partial_order_t)
    (bf : bf_state_t C) : Prop :=
  match bf_state bf with
  | RC_BFS_INIT =>
      0 < heap_size (bf_pq bf) ∨ pmLength (bf_best_seq bf) = n
      ∨ ∃ u, bf_i bf ≤ u < n ∧ poIsMin po u = true
  | RC_BFS_VISIT =>
      0 < heap_size (bf_pq bf) ∨ pmLength (bf_best_seq bf) = n
  | RC_BFS_EXPAND =>
      0 < heap_size (bf_pq bf)
      ∨ ∃ j, bf_j bf ≤ j < n
             ∧ valid_partial po
                 (pmSetSize (pmSwap (bf_best_seq bf)
                                    (pmSize (bf_best_seq bf)) j)
                            (pmSize (bf_best_seq bf) + 1)) n
  | RC_BFS_DONE => True
  end.

(** *** Printing a permutation *)

(** [sprintf(buf2, "%s%d", (i?" ":""), pm->elements[i])]: the decimal
    text of element [i], after a blank for every element but the first. *)
Definition pmPrint_item (pm : permutation_t) (i : nat) : string :=
  (match i with 0 => "" | S _ => " " end) +:+ pretty (pm_elements pm !!! i).

(** The loop of [pmPrint] over the indices still to visit, with its
    [break]: the text written so far is [buf]. *)
Fixpoint pmPrint_loop (pm : permutation_t) (bufsiz : nat) (todo : list nat)
    (buf : string) : string :=
  match todo with
  | [] => buf
  | i :: todo' =>
      let buf2 := pmPrint_item pm i in
      if bufsiz <? String.length buf + String.length buf2 then buf
      else pmPrint_loop pm bufsiz todo' (buf +:+ buf2)
  end.

(** The text [pmPrint] leaves in [buf]. *)
Definition pmPrint (pm : permutation_t) (bufsiz : nat) : string :=
  pmPrint_loop pm bufsiz (seq 0 (pm_size pm)) "[" +:+ "]".

(** The items of the decided prefix, and their text put together. *)
Definition pmPrint_items (pm : permutation_t) : list string :=
  pmPrint_item pm <$> seq 0 (pm_size pm).

Definition pmPrint_text (items : list string) : string :=
  foldr String.append "" items.

(** *** The candidates the drivers put to the oracle *)





(* ====================================================================== *)
(** * Theorems *)

(** ** The heap *)

(** C2.  After inserting the keys 3, 1, 4, 1, 5, 9, 2, 6 (value = key)
    into an empty heap of capacity 8, eight calls of [heap_extract_max]
    succeed and return 9, 6, 4, 3, 2, 1, 5, 1 in that order: the third
    call already returns 4 while 5 is still in the heap, so the values do
    not come out in the order 9, 6, 5, 4, 3, 2, 1, 1. *)
Theorem heap_extraction_order_scenario :
  ∃ h h',
    heap_run (heap_new 8)
      (HInsert <$> [3; 1; 4; 1; 5; 9; 2; 6]%Z) = Done h
    ∧ heap_keys h = [9; 6; 5; 4; 1; 3; 2; 1]%Z
    ∧ heap_extract_n 8 h = Done ([9; 6; 4; 3; 2; 1; 5; 1]%Z, h')
    ∧ heap_size h' = 0.
Proof. do 2 eexists. vm_compute. repeat split; reflexivity. Qed.

(** C3.  Inserting 5, 4, 3 into an empty heap of capacity 3 and
    extracting once (every precondition holds) leaves the keys 3 and 4 in
    the heap with 3 at the root: the root key is smaller than another key
    of the heap. *)
Theorem heap_root_violation_scenario :
  ∃ h,
    heap_run (heap_new 3) [HInsert 5; HInsert 4; HInsert 3; HExtractMax] = Done h
    ∧ heap_keys h = [3; 4]%Z
    ∧ key (h_data h !!! 1) = 3%Z
    ∧ ¬ heap_root_is_max h.
Proof.
  eexists. split; [vm_compute; reflexivity|].
  split; [reflexivity|]. split; [reflexivity|].
  intros Hmax. specialize (Hmax 4%Z).
  assert (Hin : 4%Z ∈ [3; 4]%Z) by (apply list_elem_of_In; simpl; auto).
  specialize (Hmax Hin). vm_compute in Hmax. by apply Hmax.
Qed.

(** ** Hill climbing *)

(** C1.  For n = 4, an empty partial order and the oracle
    [- sum (i * perm[i])], the first step from [0,1,2,3] accepts three
    improving swaps and still returns COMPLETE after that single pass,
    with [best_seq = [3,1,2,0]] and the improved flag cleared; a further
    step returns COMPLETE again and leaves [best_seq] unchanged.  The
    search never reaches [3,2,1,0]. *)
Theorem hill_climb_single_pass_scenario :
  let po := poNew 4 in
  let hc1 := HC 4 0 1 false (Perm 4 4 [3; 1; 2; 0]) (Perm 4 4 [0; 1; 2; 3]) in
  let goal := Perm 4 4 [3; 2; 1; 0] in
  hill_climb_step po weighted_oracle (hill_climb_init (identity_perm 4)) tt
    = Done (RC_ERR_COMPLETE, hc1, tt)
  ∧ hill_climb_step po weighted_oracle hc1 tt = Done (RC_ERR_COMPLETE, hc1, tt)
  ∧ (weighted_score (identity_perm 4) < weighted_score (hc_best_seq hc1))%Z
  ∧ (weighted_score (hc_best_seq hc1) < weighted_score goal)%Z.
Proof. vm_compute. repeat split; reflexivity. Qed.

Section hill_climb_facts.
Context {C : Type}.
Variable po : partial_order_t.
Variable evf : evaluation_func_t C.

Lemma hc_scan_bound_next (n i j : nat) :
  i < n - 1 →
  hc_scan_bound n (i + 1) (i + 1 + 1) < hc_scan_bound n i j
  ∧ (j + 1 < n → hc_scan_bound n i (j + 1) < hc_scan_bound n i j).
Proof.
  intros Hi. unfold hc_scan_bound.
  replace (n - i) with (S (n - (i + 1))) by lia.
  rewrite Nat.mul_succ_l.
  generalize ((n - (i + 1)) * (n + 1)). intros m.
  split; [|intros Hj]; lia.
Qed.

(** The scan always comes to an end within its bound, keeps [n], and a
    non-zero status it reports is the one the oracle gave for the
    permutation it leaves in [next_seq]. *)
Lemma hc_scan_done (fuel : nat) :
  ∀ hc ctx i j best_score,
    hc_scan_bound (hc_n hc) i j ≤ fuel →
    ∃ sc, hc_scan po evf fuel hc ctx i j best_score = Done sc
          ∧ hc_n (sc_hc sc) = hc_n hc
          ∧ (sc_err sc ≠ 0%Z →
             ∃ c s, evf c (hc_next_seq (sc_hc sc))
                    = (sc_err sc, s, sc_ctx sc)).
Proof.
  induction fuel as [|fuel IH]; intros hc ctx i j bs Hfuel.
  { exfalso. unfold hc_scan_bound in Hfuel. nia. }
  simpl. destruct (Nat.ltb_spec i (hc_n hc - 1)) as [Hi|Hi]; last first.
  { eexists. split; [reflexivity|]. simpl. split; [done|]. by intros []. }
  destruct (hc_scan_bound_next (hc_n hc) i j Hi) as [Hwrap Hstay].
  assert (Hnext : ∀ i' j',
    (let j0 := j + 1 in
     if hc_n hc <=? j0 then (i + 1, i + 1 + 1) else (i, j0)) = (i', j') →
    hc_scan_bound (hc_n hc) i' j' ≤ fuel).
  { intros i' j'. simpl.
    destruct (Nat.leb_spec (hc_n hc) (j + 1)); intros [= <- <-]; lia. }
  destruct (check_valid_swap po (hc_next_seq hc) i j).
  - destruct (evf ctx (pmSwap (hc_next_seq hc) i j)) as [[err sc] ctx'] eqn:He.
    destruct (Z.eqb_spec err 0) as [->|Herr]; simpl.
    + destruct (bs <? sc)%Z;
        destruct (if hc_n hc <=? j + 1 then _ else _) as [i' j'] eqn:Hij;
        (edestruct IH as (r & -> & Hn & Hor); [|eexists; split; [done|]; split; [exact Hn|exact Hor]]);
        simpl; by apply Hnext.
    + eexists. split; [reflexivity|]. simpl. split; [done|].
      intros _. eauto.
  - destruct (if hc_n hc <=? j + 1 then _ else _) as [i' j'] eqn:Hij.
    edestruct IH as (r & -> & Hn & Hor); [by apply Hnext|].
    eexists. split; [done|]. split; [exact Hn|exact Hor].
Qed.


End hill_climb_facts.

(** ** Status codes of the best-first driver *)

Section best_first_status.
Context {C : Type}.

Lemma bf_init_loop_status (fuel : nat) :
  ∀ (bf bf' : bf_state_t C) e,
    bf_init_loop fuel bf = Done (e, bf') →
    e = RC_ERR_NONE ∨ e = RC_ERR_NODATA.
Proof.
  induction fuel as [|fuel IH]; intros bf bf' e; simpl; [done|].
  destruct (bf_i bf <? bf_n bf); [|intros [= <- _]; by left].
  destruct (poIsMin _ _); [|by apply IH].
  destruct (bf_evfunc bf _ _) as [[err sc] ctx].
  destruct (negb (err =? 0)%Z).
  - destruct (make_valid_perm _ _ _); simpl; [|done..].
    intros [= <- _]. by right.
  - destruct (heap_insert _ _ _); simpl; [|done..]. by apply IH.
Qed.

Lemma bf_expand_loop_status (fuel : nat) :
  ∀ (bf bf' : bf_state_t C) e,
    bf_expand_loop fuel bf = Done (e, bf') →
    e = RC_ERR_NONE ∨ e = RC_ERR_NODATA.
Proof.
  induction fuel as [|fuel IH]; intros bf bf' e; simpl; [done|].
  destruct (bf_j bf <? bf_n bf); [|intros [= <- _]; by left].
  destruct (is_valid_partial_perm _ _ _); [|by apply IH].
  destruct (bf_evfunc bf _ _) as [[err sc] ctx].
  destruct (negb (err =? 0)%Z).
  - destruct (make_valid_perm _ _ _); simpl; [|done..].
    intros [= <- _]. by right.
  - destruct (heap_insert _ _ _); simpl; [|done..]. by apply IH.
Qed.


End best_first_status.

(** ** The partial-order matrix *)

Lemma foldl_seq_ind {A} (P : nat → A → Prop) (f : A → nat → A) (a : A) (n : nat) :
  P 0 a →
  (∀ m x, m < n → P m x → P (S m) (f x m)) →
  P n (foldl f a (seq 0 n)).
Proof.
  intros H0 Hstep. induction n as [|n IH]; [done|].
  rewrite seq_S, foldl_snoc. simpl. apply Hstep; [lia|].
  apply IH. intros m x Hm. apply Hstep. lia.
Qed.

Lemma po_index_inj (n u v u' v' : nat) :
  v < n → v' < n → u * n + v = u' * n + v' → u = u' ∧ v = v'.
Proof.
  intros Hv Hv' Heq. apply (Nat.div_mod_unique n); [done..|].
  by rewrite !(Nat.mul_comm n).
Qed.

Lemma po_index_lt (n u v : nat) : u < n → v < n → u * n + v < n * n.
Proof. intros. nia. Qed.

Lemma poSetOrder_dim po u v r : dim (poSetOrder po u v r) = dim po.
Proof. reflexivity. Qed.

Lemma poSetOrder_wf po u v r : po_wf po → po_wf (poSetOrder po u v r).
Proof. unfold po_wf. simpl. by rewrite !length_insert. Qed.

Lemma int_mul_small (a b : nat) :
  (Z.of_nat a * Z.of_nat b ≤ INT_MAX)%Z → Z.to_nat (int_mul a b) = a * b.
Proof.
  intros Hle. unfold int_mul, int_wrap, INT_MAX in *.
  rewrite Z.mod_small by lia. lia.
Qed.

Lemma poNew_wf n : (Z.of_nat n * Z.of_nat n ≤ INT_MAX)%Z → po_wf (poNew n).
Proof.
  intros Hn. unfold po_wf. simpl. by rewrite length_replicate, int_mul_small.
Qed.

(** Reading the matrix after [poSetOrder]: the mirror entry is written
    last, so on the diagonal it is the inverse that stays. *)
Lemma poGet_poSetOrder po u v r u' v' :
  po_wf po → u < dim po → v < dim po → u' < dim po → v' < dim po →
  poGet (poSetOrder po u v r) u' v'
  = if decide (u' = v ∧ v' = u) then poInverse r
    else if decide (u' = u ∧ v' = v) then r
    else poGet po u' v'.
Proof.
  intros Hwf Hu Hv Hu' Hv'. unfold poGet, poSetOrder. simpl.
  pose proof (po_index_lt _ _ _ Hu Hv) as Huv.
  pose proof (po_index_lt _ _ _ Hv Hu) as Hvu.
  destruct (decide (u' = v ∧ v' = u)) as [[-> ->]|Hne1].
  { apply list_lookup_total_insert_eq. rewrite length_insert. by rewrite Hwf. }
  rewrite list_lookup_total_insert_ne; last first.
  { intros Heq. apply po_index_inj in Heq as [-> ->]; [|done..]. by apply Hne1. }
  destruct (decide (u' = u ∧ v' = v)) as [[-> ->]|Hne2].
  { apply list_lookup_total_insert_eq. by rewrite Hwf. }
  rewrite list_lookup_total_insert_ne; [done|].
  intros Heq. apply po_index_inj in Heq as [-> ->]; [|done..]. by apply Hne2.
Qed.

Lemma poInverse_involutive r : poInverse (poInverse r) = r.
Proof. by destruct r. Qed.

Lemma poInverse_incomparable r :
  poInverse r = PO_INCOMPARABLE ↔ r = PO_INCOMPARABLE.
Proof. by destruct r. Qed.

(** Writing INCOMPARABLE over a pair that is already incomparable both
    ways changes nothing. *)
Lemma poSetOrder_incomparable_id po u v :
  po_wf po → u < dim po → v < dim po →
  poGet po u v = PO_INCOMPARABLE → poGet po v u = PO_INCOMPARABLE →
  poSetOrder po u v PO_INCOMPARABLE = po.
Proof.
  intros Hwf Hu Hv Huv Hvu. destruct po as [n d]. unfold poGet in *.
  unfold poSetOrder, po_wf in *. simpl in *. f_equal.
  assert (d !! (u * n + v) = Some PO_INCOMPARABLE) as H1.
  { rewrite <- Huv. apply list_lookup_lookup_total_lt.
    rewrite Hwf. by apply po_index_lt. }
  assert (d !! (v * n + u) = Some PO_INCOMPARABLE) as H2.
  { rewrite <- Hvu. apply list_lookup_lookup_total_lt.
    rewrite Hwf. by apply po_index_lt. }
  rewrite (list_insert_id _ _ _ H1). by apply list_insert_id.
Qed.

Lemma poIncomparable_spec po u v :
  poIncomparable po u v = bool_decide (poGet po u v = PO_INCOMPARABLE).
Proof. reflexivity. Qed.

Lemma closure_visit_dim k i po j : dim (closure_visit k i po j) = dim po.
Proof.
  unfold closure_visit.
  destruct (poIncomparable po i j); [|done]. by destruct (bool_decide _).
Qed.

Lemma closure_visit_wf k i po j : po_wf po → po_wf (closure_visit k i po j).
Proof.
  intros Hwf. unfold closure_visit.
  destruct (poIncomparable po i j); [|done].
  destruct (bool_decide _); [|done]. by apply poSetOrder_wf.
Qed.

(** One visit, read entry by entry: the pair [(i,j)] and its mirror are
    filled with the common value of row and column [k] when they are
    incomparable; nothing else changes. *)
Lemma closure_visit_get po k i j a b :
  po_wf po → po_mirror po →
  k < dim po → i < dim po → j < dim po → a < dim po → b < dim po →
  poGet (closure_visit k i po j) a b
  = if decide (((a = i ∧ b = j) ∨ (a = j ∧ b = i))
               ∧ poGet po a b = PO_INCOMPARABLE
               ∧ poGet po a k = poGet po k b)
    then poGet po a k else poGet po a b.
Proof.
  intros Hwf Hm Hk Hi Hj Ha Hb. unfold closure_visit.
  rewrite poIncomparable_spec.
  pose proof (Hm i j Hi Hj) as Hji.
  pose proof (Hm i k Hi Hk) as Hki.
  pose proof (Hm k j Hk Hj) as Hjk.
  destruct (bool_decide_reflect (poGet po i j = PO_INCOMPARABLE)) as [Hij|Hij].
  - destruct (bool_decide_reflect (poGet po i k = poGet po k j)) as [Heq|Hne].
    + rewrite poGet_poSetOrder by done.
      destruct (decide (a = j ∧ b = i)) as [[-> ->]|Hne1].
      * rewrite decide_True; [by rewrite Hjk, Heq|].
        split; [by right|]. split; [by rewrite Hji, Hij|].
        by rewrite Hjk, Hki, Heq.
      * destruct (decide (a = i ∧ b = j)) as [[-> ->]|Hne2].
        -- by rewrite decide_True by (split; [by left|done]).
        -- rewrite decide_False; [done|]. intros [[?|?] _]; tauto.
    + rewrite decide_False; [done|].
      intros [[[-> ->]|[-> ->]] [_ Heq]]; [done|].
      apply Hne. rewrite Hjk, Hki in Heq.
      apply (f_equal poInverse) in Heq. by rewrite !poInverse_involutive in Heq.
  - rewrite decide_False; [done|].
    intros [[[-> ->]|[-> ->]] [Hinc _]]; [done|].
    apply Hij. apply poInverse_incomparable. by rewrite <- Hji.
Qed.

Section closure_stage.
Variable po0 : partial_order_t.
Variable k : nat.
Hypothesis Hwf0 : po_wf po0.
Hypothesis Hmirror0 : po_mirror po0.
Hypothesis Hk : k < dim po0.

Lemma stage_inv_start : stage_inv po0 k (fun _ _ => False) po0.
Proof. split; auto; done. Qed.

Lemma stage_inv_visited (V V' : nat → nat → Prop) po :
  (∀ i j, i < dim po0 → j < dim po0 → V' i j → V i j) →
  stage_inv po0 k V po → stage_inv po0 k V' po.
Proof. intros HV [? ? ? ? ? Hfill]. split; auto. Qed.

(** Row and column [k] do not change during the pass for pivot [k]. *)
Lemma stage_inv_pivot_row V po i :
  stage_inv po0 k V po → i < dim po0 →
  poGet po i k = poGet po0 i k ∧ poGet po k i = poGet po0 k i.
Proof.
  intros [Hdim _ _ Hkeep Horigin _] Hi. split.
  - destruct (decide (poGet po i k = PO_INCOMPARABLE)) as [Hinc|Hinc].
    + destruct (decide (poGet po0 i k = PO_INCOMPARABLE)) as [Hinc0|Hinc0];
        [congruence|].
      by apply Hkeep.
    + destruct (Horigin i k Hi Hk Hinc) as [?|[? _]]; done.
  - destruct (decide (poGet po k i = PO_INCOMPARABLE)) as [Hinc|Hinc].
    + destruct (decide (poGet po0 k i = PO_INCOMPARABLE)) as [Hinc0|Hinc0];
        [congruence|].
      by apply Hkeep.
    + destruct (Horigin k i Hk Hi Hinc) as [?|[_ ?]]; done.
Qed.

Lemma closure_visit_stage V po i j :
  stage_inv po0 k V po → i < dim po0 → j < dim po0 →
  stage_inv po0 k (fun a b => V a b ∨ (a = i ∧ b = j)) (closure_visit k i po j).
Proof.
  intros Hinv Hi Hj.
  pose proof (stage_inv_pivot_row V po) as Hpiv.
  destruct Hinv as [Hdim Hwf Hm Hkeep Horigin Hfill].
  assert (Hget : ∀ a b, a < dim po0 → b < dim po0 →
    poGet (closure_visit k i po j) a b
    = if decide (((a = i ∧ b = j) ∨ (a = j ∧ b = i))
                 ∧ poGet po a b = PO_INCOMPARABLE
                 ∧ poGet po a k = poGet po k b)
      then poGet po a k else poGet po a b).
  { intros a b Ha Hb. apply closure_visit_get; rewrite ?Hdim; done. }
  assert (Hrow : ∀ a, a < dim po0 →
    poGet po a k = poGet po0 a k ∧ poGet po k a = poGet po0 k a).
  { intros a Ha. apply Hpiv; [|done]. by split. }
  split.
  - by rewrite closure_visit_dim.
  - by apply closure_visit_wf.
  - intros a b. rewrite closure_visit_dim, Hdim. intros Ha Hb.
    rewrite !Hget by done.
    pose proof (Hm a b) as Hba. rewrite Hdim in Hba. specialize (Hba Ha Hb).
    pose proof (Hm a k) as Hka. rewrite Hdim in Hka. specialize (Hka Ha Hk).
    pose proof (Hm k b) as Hbk. rewrite Hdim in Hbk. specialize (Hbk Hk Hb).
    destruct (decide (((a = i ∧ b = j) ∨ (a = j ∧ b = i))
                      ∧ poGet po a b = PO_INCOMPARABLE
                      ∧ poGet po a k = poGet po k b)) as [(Hab & Hinc & Heq)|Hno].
    + rewrite decide_True; [by rewrite Hbk, Heq|].
      split; [tauto|]. split; [by rewrite Hba, Hinc|].
      by rewrite Hbk, Hka, Heq.
    + rewrite decide_False; [done|].
      intros (Hab & Hinc & Heq). apply Hno. split; [tauto|].
      split.
      * apply poInverse_incomparable. by rewrite <- Hba.
      * rewrite Hbk, Hka in Heq. apply (f_equal poInverse) in Heq.
        by rewrite !poInverse_involutive in Heq.
  - intros a b Ha Hb Hab0. rewrite Hget by done.
    rewrite decide_False; [by apply Hkeep|].
    intros (_ & Hinc & _). rewrite Hkeep in Hinc; done.
  - intros a b Ha Hb. rewrite Hget by done.
    destruct (Hrow a Ha) as [Hak _]. destruct (Hrow b Hb) as [_ Hkb].
    destruct (decide _) as [(_ & _ & Heq)|_].
    + intros _. right. by rewrite <- Hak, <- Hkb, Heq.
    + by apply Horigin.
  - intros a b Ha Hb Hvis Hak0 Heq0. rewrite Hget by done.
    destruct (Hrow a Ha) as [Hak _]. destruct (Hrow b Hb) as [_ Hkb].
    destruct (decide _) as [_|Hno]; [by rewrite Hak|].
    destruct Hvis as [Hvis|[-> ->]]; [by apply Hfill|].
    intros Hinc. apply Hno. split; [tauto|]. split; [done|].
    by rewrite Hak, Hkb.
Qed.

Lemma closure_row_stage V po i :
  stage_inv po0 k V po → i < dim po0 →
  stage_inv po0 k (fun a b => V a b ∨ a = i) (closure_row (dim po0) k po i).
Proof.
  intros Hinv Hi. unfold closure_row.
  eapply stage_inv_visited; last first.
  - apply (foldl_seq_ind
             (fun j po' => stage_inv po0 k (fun a b => V a b ∨ (a = i ∧ b < j)) po')).
    + eapply stage_inv_visited; [|exact Hinv].
      intros a b _ _ [?|[_ ?]]; [done|lia].
    + intros j po' Hj Hpo'. eapply stage_inv_visited;
        [|apply (closure_visit_stage _ _ i j Hpo' Hi Hj)].
      simpl. intros a b _ _ [?|[-> Hb]]; [tauto|].
      destruct (decide (b = j)) as [->|?]; [tauto|]. left. right. lia.
  - simpl. intros a b _ Hb [?| ->]; [by left|]. by right.
Qed.

(** After the pass for pivot [k] every pair that row and column [k]
    relate is comparable. *)
Lemma closure_pivot_stage :
  stage_inv po0 k (fun _ _ => True) (closure_pivot (dim po0) po0 k).
Proof.
  unfold closure_pivot.
  assert (Hall : stage_inv po0 k (fun a b => a < dim po0)
                   (foldl (closure_row (dim po0) k) po0 (seq 0 (dim po0)))).
  { apply (foldl_seq_ind (fun i po' => stage_inv po0 k (fun a b => a < i) po')).
    - eapply stage_inv_visited; [|exact stage_inv_start]. simpl. lia.
    - intros i po' Hi Hpo'. eapply stage_inv_visited;
        [|apply (closure_row_stage _ _ i Hpo' Hi)].
      simpl. intros a b _ _ Ha. destruct (decide (a = i)); [tauto|]. left. lia. }
  destruct Hall as [? ? ? ? ? Hfill]. split; auto.
Qed.

End closure_stage.

Lemma po_extends_refl po : po_extends po po.
Proof. by split. Qed.

Lemma po_extends_trans po1 po2 po3 :
  po_extends po1 po2 → po_extends po2 po3 → po_extends po1 po3.
Proof.
  intros [Hd12 H12] [Hd23 H23]. split; [congruence|].
  intros u v Hu Hv Hne. rewrite <- (H12 u v Hu Hv Hne).
  apply H23; rewrite ?Hd12; try done. by rewrite (H12 u v Hu Hv Hne).
Qed.

(** A pass for one pivot keeps the shape and the mirror invariant of the
    matrix and only fills incomparable entries. *)
Lemma closure_pivot_extends po k :
  po_wf po → po_mirror po → k < dim po →
  po_wf (closure_pivot (dim po) po k)
  ∧ po_mirror (closure_pivot (dim po) po k)
  ∧ po_extends po (closure_pivot (dim po) po k).
Proof.
  intros Hwf Hm Hk.
  destruct (closure_pivot_stage po k Hwf Hm Hk) as [Hdim ? ? Hkeep _ _].
  split; [done|]. split; [done|]. by split.
Qed.

Lemma closure_pivots_extend (ks : list nat) :
  ∀ po, po_wf po → po_mirror po → Forall (fun k => k < dim po) ks →
  po_wf (foldl (closure_pivot (dim po)) po ks)
  ∧ po_mirror (foldl (closure_pivot (dim po)) po ks)
  ∧ po_extends po (foldl (closure_pivot (dim po)) po ks).
Proof.
  induction ks as [|k ks IH]; intros po Hwf Hm Hks; simpl.
  { split; [done|]. split; [done|]. apply po_extends_refl. }
  apply Forall_cons in Hks as [Hk Hks].
  destruct (closure_pivot_extends po k Hwf Hm Hk) as (Hwf' & Hm' & Hext).
  assert (Hdim : dim (closure_pivot (dim po) po k) = dim po) by apply Hext.
  specialize (IH (closure_pivot (dim po) po k) Hwf' Hm').
  rewrite Hdim in IH. destruct (IH Hks) as (? & ? & Hext').
  split; [done|]. split; [done|]. by eapply po_extends_trans.
Qed.

Section closure_correct.
Variable T : nat → nat → po_relation_t.
Variable n : nat.
Hypothesis HT : rel_transitive n T.

Lemma closed_upto_pivot po k :
  closed_upto T n k po → k < n →
  closed_upto T n (S k) (closure_pivot n po k).
Proof.
  intros [Hdim Hwf Hm Hagree Htrans] Hk. subst n.
  destruct (closure_pivot_stage po k Hwf Hm Hk)
    as [Hdim' Hwf' Hm' Hkeep Horigin Hfill].
  set (po' := closure_pivot (dim po) po k) in *.
  assert (Hagree' : po_agrees po' T).
  { intros u v. rewrite Hdim'. intros Hu Hv Hne.
    destruct (Horigin u v Hu Hv Hne) as [Heq|[Huk Hkv]].
    - rewrite Heq. apply Hagree; [done..|]. by rewrite <- Heq.
    - symmetry. apply (HT u k v (poGet po' u v)); try done.
      + rewrite <- Huk. symmetry. apply Hagree; [done..|]. by rewrite Huk.
      + rewrite <- Hkv. symmetry. apply Hagree; [done..|]. by rewrite Hkv. }
  assert (Hpin : ∀ w i j, w < dim po → i < dim po → j < dim po →
    poGet po' i w ≠ PO_INCOMPARABLE → poGet po' i w = poGet po' w j →
    poGet po' i j ≠ PO_INCOMPARABLE → poGet po' i j = poGet po' i w).
  { intros w i j Hw Hi Hj Hne Heq Hij.
    rewrite (Hagree' i j) by (rewrite ?Hdim'; done).
    apply (HT i w j); try done.
    - symmetry. apply Hagree'; rewrite ?Hdim'; done.
    - rewrite Heq. symmetry. apply Hagree'; rewrite ?Hdim'; try done.
      by rewrite <- Heq. }
  assert (Hrow : ∀ a, a < dim po →
    poGet po' a k = poGet po a k ∧ poGet po' k a = poGet po k a).
  { intros a Ha. apply (stage_inv_pivot_row po k Hk (fun _ _ => True)); [|done].
    by split. }
  split; [done..|].
  intros w i j Hw Hi Hj Hne Heq.
  assert (Hwn : w < dim po) by lia.
  apply Hpin; [done..|].
  symmetry in Heq. remember (poGet po' i w) as r eqn:Hr. symmetry in Hr.
  assert (Hfill' : ∀ a b, a < dim po → b < dim po →
    poGet po a k = r → poGet po k b = r → poGet po' a b ≠ PO_INCOMPARABLE).
  { intros a b Ha Hb Hak Hkb.
    apply Hfill; [done..| |]; [by rewrite Hak|by rewrite Hak, Hkb]. }
  destruct (decide (w = k)) as [->|Hwk].
  { apply Hfill'; [done..| |].
    - by rewrite <- (proj1 (Hrow i Hi)).
    - by rewrite <- (proj2 (Hrow j Hj)). }
  assert (Htr : ∀ a b, a < dim po → b < dim po →
    poGet po a w = r → poGet po w b = r → poGet po a b = r).
  { intros a b Ha Hb Haw Hwb.
    rewrite (Htrans w a b); [done|lia|done..| |]; [by rewrite Haw|].
    by rewrite Haw, Hwb. }
  assert (Hiw : poGet po i w = r ∨ (poGet po i k = r ∧ poGet po k w = r)).
  { destruct (Horigin i w Hi Hwn) as [H|[H1 H2]]; [by rewrite Hr|..];
      rewrite Hr in *; auto. }
  assert (Hwj : poGet po w j = r ∨ (poGet po w k = r ∧ poGet po k j = r)).
  { destruct (Horigin w j Hwn Hj) as [H|[H1 H2]]; [by rewrite Heq|..];
      rewrite Heq in *; auto. }
  destruct Hiw as [Hiw|[Hik Hkw]]; destruct Hwj as [Hwj|[Hwk2 Hkj]].
  - rewrite Hkeep; [|done..|]; by rewrite (Htr i j).
  - apply Hfill'; [done..| |done]. by apply Htr.
  - apply Hfill'; [done..|]. by apply Htr.
  - by apply Hfill'.
Qed.

(** Warshall's invariant carried through all the pivots. *)
Lemma poClosure_closed po :
  dim po = n → po_wf po → po_mirror po → po_agrees po T →
  closed_upto T n n (poClosure po).
Proof.
  intros Hdim Hwf Hm Hagree. unfold poClosure. rewrite Hdim.
  apply (foldl_seq_ind (fun k po' => closed_upto T n k po')).
  - split; [done..|]. intros; lia.
  - intros k po' Hk Hpo'. by apply closed_upto_pivot.
Qed.

(** On a matrix that is closed through every pivot a visit changes
    nothing. *)
Lemma closed_visit_id po k i j :
  closed_upto T n n po → k < n → i < n → j < n → closure_visit k i po j = po.
Proof.
  intros [Hdim Hwf Hm _ Htrans] Hk Hi Hj. unfold closure_visit.
  rewrite poIncomparable_spec.
  destruct (bool_decide_reflect (poGet po i j = PO_INCOMPARABLE)) as [Hij|]; [|done].
  destruct (bool_decide_reflect (poGet po i k = poGet po k j)) as [Heq|]; [|done].
  destruct (decide (poGet po i k = PO_INCOMPARABLE)) as [Hinc|Hinc].
  - rewrite Hinc. apply poSetOrder_incomparable_id; rewrite ?Hdim; try done.
    rewrite (Hm i j) by (rewrite Hdim; done). by rewrite Hij.
  - exfalso. apply Hinc. rewrite <- (Htrans k i j Hk Hi Hj Hinc Heq). done.
Qed.

Lemma closed_closure_id po : closed_upto T n n po → poClosure po = po.
Proof.
  intros Hc. unfold poClosure. rewrite (cu_dim _ _ _ _ Hc).
  apply (foldl_seq_ind (fun _ po' => po' = po)); [done|].
  intros k ? Hk ->. unfold closure_pivot.
  apply (foldl_seq_ind (fun _ po' => po' = po)); [done|].
  intros i ? Hi ->. unfold closure_row.
  apply (foldl_seq_ind (fun _ po' => po' = po)); [done|].
  intros j ? Hj ->. by apply closed_visit_id.
Qed.

End closure_correct.

Lemma rank_relation_transitive (n : nat) (rank : nat → nat) :
  rel_transitive n (rank_relation rank).
Proof.
  intros u w v r _ _ _ _. unfold rank_relation.
  destruct (Nat.compare_spec (rank u) (rank w));
    destruct (Nat.compare_spec (rank w) (rank v));
    destruct (Nat.compare_spec (rank u) (rank v));
    intros <-; intros; try done; lia.
Qed.

Lemma po_chain3_mirror : po_mirror po_chain3.
Proof.
  intros u v Hu Hv. change (dim po_chain3) with 3 in *.
  do 3 (destruct u as [|u];
        [do 3 (destruct v as [|v]; [reflexivity|]); lia|]); lia.
Qed.

Lemma po_chain3_agrees : po_agrees po_chain3 (rank_relation id).
Proof.
  intros u v Hu Hv. change (dim po_chain3) with 3 in *.
  do 3 (destruct u as [|u];
        [do 3 (destruct v as [|v]; [by vm_compute|]); lia|]); lia.
Qed.

(** C5, as the code has it.  On a matrix with the mirror invariant whose
    comparable entries agree with a relation [T] that is transitive on
    LT, EQ and GT (an input free of contradictory orderings), the closure
    is transitive on LT and on GT. *)
Theorem closure_strict_transitive (po : partial_order_t)
    (T : nat → nat → po_relation_t) (u v w : nat) (rel : po_relation_t) :
  po_wf po → po_mirror po → po_agrees po T → rel_transitive (dim po) T →
  u < dim po → v < dim po → w < dim po →
  rel = PO_LT ∨ rel = PO_GT →
  poGet (poClosure po) u w = rel → poGet (poClosure po) w v = rel →
  poGet (poClosure po) u v = rel.
Proof.
  intros Hwf Hm Hagree HT Hu Hv Hw Hrel Huw Hwv.
  destruct (poClosure_closed T (dim po) HT po eq_refl Hwf Hm Hagree)
    as [_ _ _ _ Htrans].
  rewrite (Htrans w u v Hw Hu Hv); [done| |congruence].
  rewrite Huw. by destruct Hrel as [-> | ->].
Qed.

Lemma closure_strict_transitive_witness :
  poGet (poClosure po_chain3) 0 2 = PO_LT.
Proof.
  apply (closure_strict_transitive po_chain3 (rank_relation id) 0 2 1 PO_LT).
  - reflexivity.
  - exact po_chain3_mirror.
  - exact po_chain3_agrees.
  - apply rank_relation_transitive.
  - simpl; lia.
  - simpl; lia.
  - simpl; lia.
  - by left.
  - reflexivity.
  - reflexivity.
Defined.

Lemma po_cycle3_mirror : po_mirror po_cycle3.
Proof.
  intros u v Hu Hv. change (dim po_cycle3) with 3 in *.
  do 3 (destruct u as [|u];
        [do 3 (destruct v as [|v]; [reflexivity|]); lia|]); lia.
Qed.

(** C5, refuted as stated: after [poSetOrder] of (0,1) = LT, (1,2) = LT
    and (0,2) = GT the mirror invariant holds, and the closure keeps
    [get(0,1) = LT], [get(1,2) = LT] and [get(0,2) = GT]. *)
Lemma closure_keeps_contradiction :
  po_mirror po_cycle3
  ∧ poGet (poClosure po_cycle3) 0 1 = PO_LT
  ∧ poGet (poClosure po_cycle3) 1 2 = PO_LT
  ∧ poGet (poClosure po_cycle3) 0 2 = PO_GT
  ∧ poGet (poClosure po_cycle3) 0 2 ≠ PO_LT.
Proof. split; [exact po_cycle3_mirror|]. by vm_compute. Qed.

(** C6, as the code has it.  On a matrix with the mirror invariant whose
    comparable entries agree with a relation that is transitive on LT, EQ
    and GT, a second closure changes nothing. *)
Theorem closure_idempotent (po : partial_order_t)
    (T : nat → nat → po_relation_t) :
  po_wf po → po_mirror po → po_agrees po T → rel_transitive (dim po) T →
  poClosure (poClosure po) = poClosure po.
Proof.
  intros Hwf Hm Hagree HT.
  apply (closed_closure_id T (dim po)).
  by apply poClosure_closed.
Qed.

Lemma closure_idempotent_witness :
  poClosure (poClosure po_chain3) = poClosure po_chain3.
Proof.
  apply (closure_idempotent po_chain3 (rank_relation id)).
  - reflexivity.
  - exact po_chain3_mirror.
  - exact po_chain3_agrees.
  - apply rank_relation_transitive.
Defined.

Lemma po_clash4_mirror : po_mirror po_clash4.
Proof.
  intros u v Hu Hv. change (dim po_clash4) with 4 in *.
  do 4 (destruct u as [|u];
        [do 4 (destruct v as [|v]; [reflexivity|]); lia|]); lia.
Qed.

(** C6, refuted as stated: on the matrix with 0 < 1, 0 = 2, 1 < 2 and
    2 < 3 the first closure leaves (0,3) incomparable although it has
    made 1 < 3, and the second closure fills (0,3). *)
Lemma closure_not_idempotent :
  po_wf po_clash4 ∧ po_mirror po_clash4
  ∧ poGet (poClosure po_clash4) 0 3 = PO_INCOMPARABLE
  ∧ poGet (poClosure (poClosure po_clash4)) 0 3 = PO_LT
  ∧ poClosure (poClosure po_clash4) ≠ poClosure po_clash4.
Proof.
  split; [reflexivity|]. split; [exact po_clash4_mirror|].
  split; [reflexivity|]. split; [reflexivity|].
  intros Heq. apply (f_equal (fun po => poGet po 0 3)) in Heq.
  by vm_compute in Heq.
Qed.

Lemma seq_split_at (n k : nat) :
  k < n → seq 0 n = seq 0 k ++ k :: seq (S k) (n - S k).
Proof.
  intros Hk. replace n with (k + S (n - S k)) at 1 by lia.
  by rewrite seq_app.
Qed.

(** An incomparable pair that row and column [k] relate by the same
    comparable value is filled by the closure. *)
Lemma poClosure_fills (po : partial_order_t)
    (i k j : nat) (rel : po_relation_t) :
  po_wf po → po_mirror po →
  i < dim po → k < dim po → j < dim po →
  rel ≠ PO_INCOMPARABLE →
  poGet po i k = rel → poGet po k j = rel →
  poGet po i j = PO_INCOMPARABLE →
  poGet (closure_visit k i po j) i j = rel
  ∧ poGet (poClosure po) i j ≠ PO_INCOMPARABLE.
Proof.
  intros Hwf Hm Hi Hk Hj Hrel Hik Hkj Hij. split.
  - rewrite closure_visit_get by done.
    rewrite decide_True; [done|]. split; [by left|]. split; [done|congruence].
  - unfold poClosure. rewrite (seq_split_at (dim po) k Hk), foldl_app. simpl.
    destruct (closure_pivots_extend (seq 0 k) po Hwf Hm)
      as (Hwf1 & Hm1 & Hdim1 & Hext1).
    { apply Forall_forall. intros x Hx%list_elem_of_In%in_seq. lia. }
    set (po1 := foldl (closure_pivot (dim po)) po (seq 0 k)) in *.
    rewrite <- Hdim1 in Hk. rewrite <- Hdim1 at 1 2.
    destruct (closure_pivot_stage po1 k Hwf1 Hm1 Hk)
      as [Hdim2 Hwf2 Hm2 _ _ Hfill2].
    set (po2 := closure_pivot (dim po1) po1 k) in *.
    assert (Hne2 : poGet po2 i j ≠ PO_INCOMPARABLE).
    { apply Hfill2; rewrite ?Hdim1; try done.
      - rewrite Hext1 by (done || congruence). congruence.
      - rewrite !Hext1 by (done || congruence). congruence. }
    rewrite <- Hdim2.
    destruct (closure_pivots_extend (seq (S k) (dim po - S k)) po2 Hwf2 Hm2)
      as (_ & _ & _ & Hext3).
    { apply Forall_forall. intros x Hx%list_elem_of_In%in_seq.
      rewrite Hdim2, Hdim1. lia. }
    rewrite Hext3; [done| | |done]; by rewrite Hdim2, Hdim1.
Qed.


(** Every entry the closure has filled is, in the closed matrix, the
    common value of the two entries through some pivot. *)
Lemma poClosure_filled_origin (po : partial_order_t) :
  po_wf po → po_mirror po →
  ∀ i j, i < dim po → j < dim po →
    poGet po i j = PO_INCOMPARABLE →
    poGet (poClosure po) i j ≠ PO_INCOMPARABLE →
    ∃ k, k < dim po
         ∧ poGet (poClosure po) i k = poGet (poClosure po) i j
         ∧ poGet (poClosure po) k j = poGet (poClosure po) i j.
Proof.
  intros Hwf Hm.
  pose (P := fun (_ : nat) (po' : partial_order_t) =>
    po_wf po' ∧ po_mirror po' ∧ dim po' = dim po
    ∧ ∀ i j, i < dim po → j < dim po →
        poGet po i j = PO_INCOMPARABLE →
        poGet po' i j ≠ PO_INCOMPARABLE →
        ∃ k, k < dim po ∧ poGet po' i k = poGet po' i j
             ∧ poGet po' k j = poGet po' i j).
  assert (Hfinal : P (dim po) (poClosure po)); [|apply Hfinal].
  unfold poClosure. apply (foldl_seq_ind P).
  { split; [done|]. split; [done|]. split; [done|]. intros i j _ _ ? ?. done. }
  intros m x Hmm (Hwfx & Hmx & Hdimx & Horig).
  rewrite <- Hdimx in Hmm. rewrite <- Hdimx at 1.
  destruct (closure_pivot_stage x m Hwfx Hmx Hmm)
    as [Hdim' Hwf' Hm' Hkeep' Horig' _].
  set (x' := closure_pivot (dim x) x m) in *.
  split; [done|]. split; [done|]. split; [congruence|].
  intros i j Hi Hj Hij Hne. rewrite <- Hdimx in Hi, Hj.
  destruct (Horig' i j Hi Hj Hne) as [Hsame|[Hik Hkj]].
  - rewrite Hsame in Hne.
    destruct (Horig i j) as (k & Hk & Hxik & Hxkj);
      [by rewrite <- Hdimx..|done|done|].
    rewrite <- Hdimx in Hk.
    exists k. split; [by rewrite <- Hdimx|].
    rewrite Hsame.
    rewrite (Hkeep' i k), (Hkeep' k j) by (done || congruence). done.
  - exists m. split; [by rewrite <- Hdimx|].
    rewrite (Hkeep' i m), (Hkeep' m j) by (done || congruence). done.
Qed.

(** C4, as the code has it.  On a matrix with the mirror invariant (as
    every matrix the closure goes through is):
    - a visit of [(k,i,j)] changes an entry only if it is [(i,j)] or its
      mirror, it is incomparable and [M[i][k]] equals [M[k][j]], and the
      entry then gets that common value;
    - so [poClosure] fills an incomparable [M[i][j]] only when
      [M[i][k]] equals [M[k][j]] for some pivot [k]: an entry that was
      incomparable and is comparable in the closed matrix equals there
      both [M[i][k]] and [M[k][j]] for some [k];
    - the common value is taken whichever of LT, EQ and GT it is: where
      [M[i][k] = M[k][j]] is comparable and [M[i][j]] is incomparable, the
      visit of [(k,i,j)] writes that value and the closure does not leave
      [M[i][j]] incomparable.  Equality is propagated like the strict
      relations. *)
Theorem closure_fills_common_relation (po : partial_order_t) :
  po_wf po → po_mirror po →
  (∀ k i j a b,
     k < dim po → i < dim po → j < dim po → a < dim po → b < dim po →
     poGet (closure_visit k i po j) a b ≠ poGet po a b →
     ((a = i ∧ b = j) ∨ (a = j ∧ b = i))
     ∧ poGet po a b = PO_INCOMPARABLE
     ∧ poGet po a k = poGet po k b
     ∧ poGet (closure_visit k i po j) a b = poGet po a k)
  ∧ (∀ i j, i < dim po → j < dim po →
       poGet po i j = PO_INCOMPARABLE →
       poGet (poClosure po) i j ≠ PO_INCOMPARABLE →
       ∃ k, k < dim po
            ∧ poGet (poClosure po) i k = poGet (poClosure po) i j
            ∧ poGet (poClosure po) k j = poGet (poClosure po) i j)
  ∧ (∀ i k j rel,
       i < dim po → k < dim po → j < dim po →
       rel ≠ PO_INCOMPARABLE →
       poGet po i k = rel → poGet po k j = rel →
       poGet po i j = PO_INCOMPARABLE →
       poGet (closure_visit k i po j) i j = rel
       ∧ poGet (poClosure po) i j ≠ PO_INCOMPARABLE).
Proof.
  intros Hwf Hm. split; [|split].
  - intros k i j a b Hk Hi Hj Ha Hb.
    rewrite closure_visit_get by done.
    destruct (decide _) as [(Hpair & Hinc & Heq)|_]; [done|]. by intros [].
  - by apply poClosure_filled_origin.
  - intros i k j rel. by apply poClosure_fills.
Qed.

Lemma po_eq_chain3_mirror : po_mirror po_eq_chain3.
Proof.
  intros u v Hu Hv. change (dim po_eq_chain3) with 3 in *.
  do 3 (destruct u as [|u];
        [do 3 (destruct v as [|v]; [reflexivity|]); lia|]); lia.
Qed.

Lemma closure_fills_common_relation_witness :
  poGet (closure_visit 1 0 po_eq_chain3 2) 0 2 = PO_EQ
  ∧ poGet (poClosure po_eq_chain3) 0 2 ≠ PO_INCOMPARABLE
  ∧ (poGet (closure_visit 1 0 po_eq_chain3 2) 0 2 ≠ poGet po_eq_chain3 0 2 →
     poGet po_eq_chain3 0 1 = poGet po_eq_chain3 1 2)
  ∧ ∃ k, k < 3
         ∧ poGet (poClosure po_eq_chain3) 0 k = poGet (poClosure po_eq_chain3) 0 2
         ∧ poGet (poClosure po_eq_chain3) k 2 = poGet (poClosure po_eq_chain3) 0 2.
Proof.
  destruct (closure_fills_common_relation po_eq_chain3)
    as (Hvisit & Honly & Hfill);
    [reflexivity|exact po_eq_chain3_mirror|].
  destruct (Hfill 0 1 2 PO_EQ) as [Hv Hc];
    [simpl; lia|simpl; lia|simpl; lia|done|reflexivity..|].
  split; [exact Hv|]. split; [exact Hc|]. split.
  - intros Hne.
    destruct (Hvisit 1 0 2 0 2) as (_ & _ & Heq & _);
      [simpl; lia|simpl; lia|simpl; lia|simpl; lia|simpl; lia|exact Hne|].
    exact Heq.
  - apply (Honly 0 2); [simpl; lia|simpl; lia|reflexivity|exact Hc].
Defined.

(** C4, refuted as stated: with [M[0][1] = EQ], [M[1][2] = EQ] and
    [M[0][2]] incomparable, the closure sets [M[0][2]] to EQ. *)
Lemma closure_propagates_equality :
  poGet po_eq_chain3 0 1 = PO_EQ
  ∧ poGet po_eq_chain3 1 2 = PO_EQ
  ∧ poGet po_eq_chain3 0 2 = PO_INCOMPARABLE
  ∧ poGet (poClosure po_eq_chain3) 0 2 = PO_EQ.
Proof. by vm_compute. Qed.

(** ** Structural facts about the heap *)

Lemma LEFT_double i : LEFT i = 2 * i.
Proof. unfold LEFT. rewrite Nat.shiftl_mul_pow2. simpl. lia. Qed.

Lemma RIGHT_double i : RIGHT i = 2 * i + 1.
Proof. unfold RIGHT. rewrite Nat.shiftl_mul_pow2. simpl. lia. Qed.

Lemma PARENT_half i : PARENT i = i / 2.
Proof. unfold PARENT. by rewrite Nat.shiftr_div_pow2. Qed.

Lemma PARENT_bounds i : 1 < i → 1 ≤ PARENT i < i.
Proof.
  intros Hi. rewrite PARENT_half. split.
  - apply Nat.div_le_lower_bound; lia.
  - apply Nat.div_lt; lia.
Qed.

Section heap_facts.
Context {V : Type} `{!Inhabited V}.
Implicit Types heap : heap_t V.

(** The index [heapify] swaps with, when it swaps. *)
Lemma heapify_largest heap i (largest : nat) :
  largest =
    (let d := h_data heap in
     let largest0 :=
       if (LEFT i <? h_size heap) && (key (d !!! i) <? key (d !!! LEFT i))%Z
       then LEFT i else i in
     if (RIGHT i <? h_size heap) && (key (d !!! largest0) <? key (d !!! i))%Z
     then RIGHT i else largest0) →
  largest = i ∨ (i < largest ∧ largest < h_size heap ∧ (1 ≤ i → 1 ≤ largest)).
Proof.
  intros ->. cbv zeta.
  destruct ((RIGHT i <? h_size heap) && _) eqn:E2.
  { apply andb_true_iff in E2 as [E2%Nat.ltb_lt _].
    rewrite RIGHT_double in *. right. lia. }
  destruct ((LEFT i <? h_size heap) && _) eqn:E1; [|by left].
  apply andb_true_iff in E1 as [E1%Nat.ltb_lt E1'%Z.ltb_lt].
  rewrite LEFT_double in *. destruct i as [|i]; [simpl in E1'; lia|].
  right. lia.
Qed.

Lemma heapify_loop_shape (fuel : nat) :
  ∀ heap i,
    h_size (heapify_loop fuel heap i) = h_size heap
    ∧ h_capacity (heapify_loop fuel heap i) = h_capacity heap
    ∧ length (h_data (heapify_loop fuel heap i)) = length (h_data heap).
Proof.
  induction fuel as [|fuel IH]; intros heap i; [done|].
  cbn [heapify_loop]. cbv zeta.
  remember (if (RIGHT i <? h_size heap) && _ then RIGHT i else _) as largest
    eqn:Hl.
  clear Hl. destruct (largest =? i); [done|].
  match goal with
  | |- context [heapify_loop fuel ?h ?j] => destruct (IH h j) as (-> & -> & ->)
  end.
  simpl. by rewrite !length_insert.
Qed.

Lemma heapify_loop_all (P : V → Prop) (fuel : nat) :
  ∀ heap i,
    heap_wf heap → 1 ≤ i → heap_all P heap →
    heap_all P (heapify_loop fuel heap i).
Proof.
  induction fuel as [|fuel IH]; intros heap i Hwf Hi Hall; [done|].
  cbn [heapify_loop]. cbv zeta.
  remember (if (RIGHT i <? h_size heap) && _ then RIGHT i else _) as largest
    eqn:Hl.
  destruct (heapify_largest heap i largest Hl) as [->|(Hil & Hls & Hl1)].
  { by rewrite Nat.eqb_refl. }
  destruct (Nat.eqb_spec largest i) as [?|_]; [lia|].
  destruct Hwf as [Hlen Hsz].
  apply IH; [split; simpl; [by rewrite !length_insert|done]|by apply Hl1|].
  intros m Hm. simpl in *.
  destruct (decide (m = largest)) as [->|Hml].
  { rewrite list_lookup_total_insert_eq by (rewrite length_insert; lia).
    apply Hall. lia. }
  rewrite list_lookup_total_insert_ne by done.
  destruct (decide (m = i)) as [->|Hmi].
  { rewrite list_lookup_total_insert_eq by lia. apply Hall. lia. }
  rewrite list_lookup_total_insert_ne by done. by apply Hall.
Qed.

(** More fuel than [size - i] does not change what [heapify] computes:
    the recursion of the source ends within the fuel [heapify] is given. *)
Lemma heapify_loop_fuel (fuel1 : nat) :
  ∀ fuel2 heap i,
    h_size heap - i ≤ fuel1 → h_size heap - i ≤ fuel2 →
    heapify_loop fuel1 heap i = heapify_loop fuel2 heap i.
Proof.
  induction fuel1 as [|fuel1 IH]; intros fuel2 heap i H1 H2.
  - destruct fuel2 as [|fuel2]; [done|].
    cbn [heapify_loop]. cbv zeta.
    remember (if (RIGHT i <? h_size heap) && _ then RIGHT i else _) as largest
      eqn:Hl.
    destruct (heapify_largest heap i largest Hl) as [->|(Hil & Hls & _)];
      [by rewrite Nat.eqb_refl|lia].
  - cbn [heapify_loop]. cbv zeta.
    remember (if (RIGHT i <? h_size heap) && _ then RIGHT i else _) as largest
      eqn:Hl.
    destruct (heapify_largest heap i largest Hl) as [->|(Hil & Hls & _)].
    { rewrite Nat.eqb_refl. destruct fuel2 as [|fuel2]; [done|].
      cbn [heapify_loop]. cbv zeta. rewrite <- Hl. by rewrite Nat.eqb_refl. }
    destruct fuel2 as [|fuel2]; [lia|].
    cbn [heapify_loop]. cbv zeta. rewrite <- Hl.
    destruct (Nat.eqb_spec largest i) as [?|_]; [lia|].
    apply IH; simpl; lia.
Qed.

Lemma heap_insert_loop_all (P : V → Prop) (N : nat) (k : Z) (fuel : nat) :
  ∀ d i d' i',
    heap_insert_loop fuel d k i = (d', i') →
    i ≤ N → N < length d → 1 ≤ i →
    (∀ m, 1 ≤ m ≤ N → m ≠ i → P (val (d !!! m))) →
    length d' = length d ∧ 1 ≤ i' ≤ N
    ∧ (∀ m, 1 ≤ m ≤ N → m ≠ i' → P (val (d' !!! m))).
Proof.
  induction fuel as [|fuel IH]; intros d i d' i' Hloop HiN HN Hi Hall.
  { injection Hloop as <- <-. split; [done|]. split; [lia|done]. }
  cbn [heap_insert_loop] in Hloop.
  destruct ((1 <? i) && _) eqn:E; last first.
  { injection Hloop as <- <-. split; [done|]. split; [lia|done]. }
  apply andb_true_iff in E as [E%Nat.ltb_lt _].
  pose proof (PARENT_bounds i E) as Hp.
  apply IH in Hloop as (Hlen & Hi' & Hall'); [| lia | by rewrite length_insert | lia |].
  - rewrite length_insert in Hlen. done.
  - intros m Hm Hmp. destruct (decide (m = i)) as [->|Hmi].
    + rewrite list_lookup_total_insert_eq by lia. apply Hall; lia.
    + rewrite list_lookup_total_insert_ne by done. by apply Hall.
Qed.

(** The sift-up loop ends within [i] turns. *)
Lemma heap_insert_loop_fuel (k : Z) (fuel1 : nat) :
  ∀ fuel2 (d : list (heap_elt_t V)) i,
    i ≤ fuel1 → i ≤ fuel2 →
    heap_insert_loop fuel1 d k i = heap_insert_loop fuel2 d k i.
Proof.
  induction fuel1 as [|fuel1 IH]; intros fuel2 d i H1 H2.
  - assert (i = 0) as -> by lia. by destruct fuel2.
  - destruct fuel2 as [|fuel2]; [assert (i = 0) as -> by lia; done|].
    cbn [heap_insert_loop].
    destruct ((1 <? i) && _) eqn:E; [|done].
    apply andb_true_iff in E as [E%Nat.ltb_lt _].
    pose proof (PARENT_bounds i E). apply IH; lia.
Qed.

Lemma heap_insert_done heap (k : Z) (v : V) :
  h_size heap < h_capacity heap →
  ∃ heap', heap_insert heap k v = Done heap'
           ∧ h_size heap' = h_size heap + 1
           ∧ h_capacity heap' = h_capacity heap.
Proof.
  intros Hlt. unfold heap_insert.
  apply Nat.ltb_lt in Hlt. rewrite Hlt.
  destruct (heap_insert_loop _ _ _ _) as [d i]. by eexists.
Qed.

Lemma heap_insert_full heap (k : Z) (v : V) :
  ¬ h_size heap < h_capacity heap →
  heap_insert heap k v = AssertFail HeapOverflow.
Proof.
  intros Hge. unfold heap_insert.
  apply Nat.ltb_nlt in Hge. by rewrite Hge.
Qed.

Lemma heap_insert_inv (P : V → Prop) heap (k : Z) (v : V) heap' :
  heap_insert heap k v = Done heap' →
  heap_wf heap → heap_all P heap → P v →
  h_size heap < h_capacity heap
  ∧ heap_wf heap' ∧ heap_all P heap'
  ∧ h_size heap' = h_size heap + 1
  ∧ h_capacity heap' = h_capacity heap.
Proof.
  unfold heap_insert. intros Hins [Hlen Hsz] Hall Hv.
  destruct (Nat.ltb_spec (h_size heap) (h_capacity heap)) as [Hlt|]; [|done].
  destruct (heap_insert_loop _ _ _ _) as [d i] eqn:Hloop.
  injection Hins as <-.
  apply (heap_insert_loop_all P (h_size heap + 1)) in Hloop
    as (Hlen' & Hi & Hall'); [|lia..|].
  - split; [done|]. split; [|split; [|done]].
    + split; simpl; [rewrite length_insert; lia|lia].
    + intros m Hm. simpl in *. destruct (decide (m = i)) as [->|Hmi].
      * by rewrite list_lookup_total_insert_eq by lia.
      * rewrite list_lookup_total_insert_ne by done. by apply Hall'.
  - intros m Hm Hne. apply Hall. lia.
Qed.

Lemma heap_extract_max_inv (P : V → Prop) heap (v : V) heap' :
  heap_extract_max heap = Done (v, heap') →
  heap_wf heap → heap_all P heap →
  P v ∧ heap_wf heap' ∧ heap_all P heap'
  ∧ h_size heap' = h_size heap - 1
  ∧ h_capacity heap' = h_capacity heap.
Proof.
  unfold heap_extract_max, heapify. intros Hex [Hlen Hsz] Hall.
  destruct (Nat.ltb_spec 0 (h_size heap)) as [Hpos|]; [|done].
  injection Hex as <- <-.
  set (h1 := Heap (h_size heap - 1) (h_capacity heap)
                  (<[1 := h_data heap !!! h_size heap]> (h_data heap))).
  destruct (heapify_loop_shape (h_size heap - 1) h1 1) as (Hs & Hc & Hl).
  assert (Hwf1 : heap_wf h1).
  { split; simpl; [by rewrite length_insert|lia]. }
  assert (Hall1 : heap_all P h1).
  { intros m Hm. simpl in *. destruct (decide (m = 1)) as [->|Hm1].
    - rewrite list_lookup_total_insert_eq by lia. apply Hall. lia.
    - rewrite list_lookup_total_insert_ne by done. apply Hall. lia. }
  split; [apply Hall; lia|]. split; [|split; [|done]].
  - destruct Hwf1 as [Hlen1 Hsz1]. split; [by rewrite Hl, Hc|by rewrite Hs, Hc].
  - by apply heapify_loop_all.
Qed.

Lemma heap_extract_max_done heap :
  0 < h_size heap → ∃ r, heap_extract_max heap = Done r.
Proof.
  intros Hpos. unfold heap_extract_max.
  apply Nat.ltb_lt in Hpos. rewrite Hpos. by eexists.
Qed.

Lemma heap_all_vals (P : V → Prop) heap :
  heap_wf heap → heap_all P heap → Forall P (heap_vals heap).
Proof.
  intros [Hlen Hsz] Hall. unfold heap_vals.
  apply Forall_fmap, Forall_lookup. intros m x Hx. simpl.
  apply lookup_take_Some in Hx as [Hx Hm].
  rewrite lookup_drop in Hx.
  apply list_lookup_total_correct in Hx as <-. apply Hall. lia.
Qed.

End heap_facts.

(** ** Permutation buffers *)

Lemma foldl_seq_ind_from {A} (P : nat → A → Prop) (f : A → nat → A) (a : A)
    (s len : nat) :
  P s a →
  (∀ m x, s ≤ m < s + len → P m x → P (S m) (f x m)) →
  P (s + len) (foldl f a (seq s len)).
Proof.
  intros H0 Hstep. induction len as [|len IH].
  { by rewrite Nat.add_0_r. }
  rewrite seq_S, foldl_snoc, Nat.add_succ_r.
  apply Hstep; [lia|]. apply IH. intros m x Hm. apply Hstep. lia.
Qed.

(** A loop that writes [g i] at each index [i < k]. *)
Lemma foldl_insert_seq {A} (g : nat → A) (d : list A) (k : nat) :
  k ≤ length d →
  foldl (fun d i => <[i := g i]> d) d (seq 0 k) = (g <$> seq 0 k) ++ drop k d.
Proof.
  induction k as [|k IH]; intros Hk; [done|].
  rewrite seq_S, foldl_snoc, fmap_app, IH by lia. simpl.
  destruct (lookup_lt_is_Some_2 d k) as [x Hx]; [lia|].
  rewrite (drop_S _ _ _ Hx), <- app_assoc. simpl.
  rewrite insert_app_r_alt by (rewrite length_fmap, length_seq; lia).
  rewrite length_fmap, length_seq, Nat.sub_diag. done.
Qed.

Lemma fmap_lookup_total_seq (src : list pelt_t) :
  (fun i => src !!! i) <$> seq 0 (length src) = src.
Proof.
  apply list_eq. intros i. rewrite list_lookup_fmap.
  destruct (decide (i < length src)) as [Hi|Hi].
  - rewrite lookup_seq_lt by done. simpl.
    by rewrite list_lookup_lookup_total_lt.
  - rewrite lookup_seq_ge by lia. simpl. symmetry.
    apply lookup_ge_None_2. lia.
Qed.

Lemma copy_elements_full (dst src : list pelt_t) :
  length dst = length src → copy_elements (length src) dst src = src.
Proof.
  intros Hlen. unfold copy_elements.
  rewrite foldl_insert_seq by lia.
  rewrite fmap_lookup_total_seq, drop_ge by lia. apply app_nil_r.
Qed.

Lemma identity_perm_elements n : pm_elements (identity_perm n) = seq 0 n.
Proof.
  unfold identity_perm, pmIdentity, pmNew. simpl.
  rewrite foldl_insert_seq by (by rewrite length_replicate).
  rewrite drop_ge by (by rewrite length_replicate).
  rewrite app_nil_r. apply list_fmap_id.
Qed.

Lemma insert_head_Permutation (l : list pelt_t) (x : pelt_t) (b : nat) :
  b < length l → l !!! b :: <[b := x]> l ≡ₚ x :: l.
Proof.
  revert b. induction l as [|y l IH]; intros b Hb; simpl in *; [lia|].
  destruct b as [|b]; simpl.
  - apply perm_swap.
  - rewrite (perm_swap y). rewrite IH by lia. apply perm_swap.
Qed.

(** Exchanging two slots of a buffer permutes it. *)
Lemma swap_Permutation (l : list pelt_t) (a b : nat) :
  a < length l → b < length l →
  <[b := l !!! a]> (<[a := l !!! b]> l) ≡ₚ l.
Proof.
  revert a b. induction l as [|x l IH]; intros a b Ha Hb; simpl in *; [lia|].
  destruct a as [|a], b as [|b]; simpl.
  - done.
  - apply insert_head_Permutation. lia.
  - apply insert_head_Permutation. lia.
  - f_equiv. apply IH; lia.
Qed.

Lemma swap_lookup_total (l : list pelt_t) (a b m : nat) :
  a < length l → b < length l →
  <[b := l !!! a]> (<[a := l !!! b]> l) !!! m
  = if decide (m = b) then l !!! a
    else if decide (m = a) then l !!! b else l !!! m.
Proof.
  intros Ha Hb. destruct (decide (m = b)) as [->|Hmb].
  { by rewrite list_lookup_total_insert_eq by (by rewrite length_insert). }
  rewrite list_lookup_total_insert_ne by done.
  destruct (decide (m = a)) as [->|Hma].
  { by rewrite list_lookup_total_insert_eq. }
  by rewrite list_lookup_total_insert_ne.
Qed.

Lemma tail_perm_refl i e : tail_perm i e e.
Proof. by split. Qed.

Lemma tail_perm_length i e e' : tail_perm i e e' → length e' = length e.
Proof.
  intros [Ht Hd]. rewrite <- (take_drop i e'), <- (take_drop i e) at 1.
  rewrite !length_app, Ht. by rewrite Hd.
Qed.

Lemma tail_perm_mono i0 i e e' :
  i0 ≤ i → i ≤ length e → tail_perm i e e' → tail_perm i0 e e'.
Proof.
  intros Hi0 Hi Htp. pose proof (tail_perm_length _ _ _ Htp) as Hlen.
  destruct Htp as [Ht Hd]. split.
  - rewrite <- (Nat.min_l i0 i) by done.
    by rewrite <- !take_take, Ht.
  - rewrite <- (take_drop i e'), <- (take_drop i e) at 1.
    rewrite !drop_app, !length_take, Ht.
    replace (i0 - i `min` length e') with 0 by lia.
    replace (i0 - i `min` length e) with 0 by lia.
    simpl. by rewrite Hd.
Qed.

Lemma tail_perm_trans i e1 e2 e3 :
  tail_perm i e1 e2 → tail_perm i e2 e3 → tail_perm i e1 e3.
Proof. intros [Ht1 Hd1] [Ht2 Hd2]. split; [congruence|by rewrite Hd2]. Qed.

Lemma tail_perm_Permutation i e e' : tail_perm i e e' → e' ≡ₚ e.
Proof.
  intros [Ht Hd]. rewrite <- (take_drop i e'), <- (take_drop i e).
  by rewrite Ht, Hd.
Qed.

Lemma tail_perm_swap i e a b :
  i ≤ a → i ≤ b → a < length e → b < length e →
  tail_perm i e (<[b := e !!! a]> (<[a := e !!! b]> e)).
Proof.
  intros Hia Hib Ha Hb. split.
  - by rewrite !take_insert_ge.
  - rewrite !drop_insert_ge by done.
    replace (e !!! a) with (drop i e !!! (a - i))
      by (rewrite lookup_total_drop; f_equal; lia).
    replace (e !!! b) with (drop i e !!! (b - i))
      by (rewrite lookup_total_drop; f_equal; lia).
    apply swap_Permutation; rewrite length_drop; lia.
Qed.

Lemma tail_perm_lookup i e e' m :
  tail_perm i e e' → m < i → e' !!! m = e !!! m.
Proof.
  intros [Ht _] Hm.
  rewrite <- (lookup_total_take_lt e' i m), <- (lookup_total_take_lt e i m) by done.
  by rewrite Ht.
Qed.

Lemma row_valid_tail_perm po i e e' m :
  tail_perm i e e' → m < i → i ≤ length e →
  row_valid po e m → row_valid po e' m.
Proof.
  intros Htp Hm Hi Hrow x Hx.
  rewrite (tail_perm_lookup i e e' m Htp Hm).
  apply Hrow. destruct (tail_perm_mono (S m) i e e') as [_ Hd]; [lia|done..|].
  by rewrite <- Hd.
Qed.

Lemma row_valid_lookup po e i j :
  row_valid po e i → i < j < length e →
  poGet po (e !!! i) (e !!! j) ≠ PO_GT.
Proof.
  intros Hrow Hj. apply Hrow.
  replace (e !!! j) with (drop (S i) e !!! (j - S i))
    by (rewrite lookup_total_drop; f_equal; lia).
  apply list_elem_of_lookup_total_2. rewrite length_drop. lia.
Qed.

Lemma row_valid_intro po e i :
  (∀ j, i < j < length e → poGet po (e !!! i) (e !!! j) ≠ PO_GT) →
  row_valid po e i.
Proof.
  intros Hall x Hx.
  apply list_elem_of_lookup_total_1 in Hx as (m & Hm & <-).
  rewrite length_drop in Hm. rewrite lookup_total_drop. apply Hall. lia.
Qed.

(** ** Validity checks and the repair pass *)

Lemma is_valid_partial_perm_spec po perm n :
  is_valid_partial_perm po perm n = true ↔ valid_partial po perm n.
Proof.
  unfold is_valid_partial_perm, valid_partial. rewrite forallb_forall. split.
  - intros Hall i j Hi Hj. specialize (Hall i).
    rewrite forallb_forall in Hall.
    assert (Hin : In i (seq 0 (pmLength perm))) by (apply in_seq; lia).
    specialize (Hall Hin j).
    assert (Hjn : In j (seq (i + 1) (n - (i + 1)))) by (apply in_seq; lia).
    apply Hall, negb_true_iff, bool_decide_eq_false in Hjn. done.
  - intros Hall i Hi%in_seq. apply forallb_forall. intros j Hj%in_seq.
    apply negb_true_iff, bool_decide_eq_false. apply Hall; lia.
Qed.

Lemma poIsMin_spec po u :
  poIsMin po u = true ↔ ∀ v, v < dim po → poGet po u v ≠ PO_GT.
Proof.
  unfold poIsMin. rewrite forallb_forall. split.
  - intros Hall v Hv.
    assert (Hin : In v (seq 0 (dim po))) by (apply in_seq; lia).
    apply Hall, negb_true_iff, bool_decide_eq_false in Hin. done.
  - intros Hall v Hv%in_seq. apply negb_true_iff, bool_decide_eq_false.
    apply Hall. lia.
Qed.

Section make_valid.
Variable po : partial_order_t.
Variable n : nat.
Hypothesis Htrans : gt_transitive n po.
Hypothesis Hasym : gt_asymmetric n po.

(** One row of the repair pass: the positions from [i] on are permuted
    and the element left at [i] is not GT any later one. *)
Lemma make_valid_row_spec perm i :
  length (pm_elements perm) = n →
  (∀ x, x ∈ pm_elements perm → x < n) →
  i < n →
  pm_size (make_valid_row po n perm i) = pm_size perm
  ∧ pm_capacity (make_valid_row po n perm i) = pm_capacity perm
  ∧ tail_perm i (pm_elements perm) (pm_elements (make_valid_row po n perm i))
  ∧ row_valid po (pm_elements (make_valid_row po n perm i)) i.
Proof.
  intros Hlen Hrange Hi. unfold make_valid_row.
  set (e := pm_elements perm) in *.
  pose (P := fun (j : nat) (st : permutation_t * nat) =>
    pm_size st.1 = pm_size perm
    ∧ pm_capacity st.1 = pm_capacity perm
    ∧ tail_perm i e (pm_elements st.1)
    ∧ st.2 = pm_elements st.1 !!! i
    ∧ ∀ j', i < j' < j → poGet po st.2 (pm_elements st.1 !!! j') ≠ PO_GT).
  assert (Hfinal : P (i + 1 + (n - (i + 1)))
    (foldl (make_valid_visit po i) (perm, pmElt perm i)
           (seq (i + 1) (n - (i + 1))))).
  { apply (foldl_seq_ind_from P).
    - unfold P. simpl. split; [done|]. split; [done|].
      split; [apply tail_perm_refl|]. split; [done|]. intros; lia.
    - intros j [p v1] Hj (Hsz & Hcap & Htp & Hv1 & Hrow). simpl in *.
      pose proof (tail_perm_length _ _ _ Htp) as Hlen'.
      assert (Hin : ∀ m, m < n → pm_elements p !!! m < n).
      { intros m Hm. apply Hrange.
        rewrite <- (tail_perm_Permutation _ _ _ Htp).
        apply list_elem_of_lookup_total_2. lia. }
      unfold make_valid_visit, P, pmElt.
      destruct (bool_decide_reflect (poGet po v1 (pm_elements p !!! j) = PO_GT))
        as [Hgt|Hngt]; simpl.
      + split; [done|]. split; [done|].
        assert (Hswap : ∀ m,
          <[j := pm_elements p !!! i]>
            (<[i := pm_elements p !!! j]> (pm_elements p)) !!! m
          = if decide (m = j) then pm_elements p !!! i
            else if decide (m = i) then pm_elements p !!! j
                 else pm_elements p !!! m).
        { intros m. apply swap_lookup_total; lia. }
        split; [|split].
        * eapply tail_perm_trans; [exact Htp|].
          apply tail_perm_swap; lia.
        * rewrite Hswap. rewrite decide_False by lia. by rewrite decide_True.
        * intros j' Hj'. rewrite Hswap.
          destruct (decide (j' = j)) as [->|Hne].
          -- rewrite <- Hv1. apply Hasym; [|apply Hin; lia|done].
             rewrite Hv1. apply Hin. lia.
          -- rewrite decide_False by lia. intros Hgt'.
             apply (Hrow j'); [lia|].
             apply (Htrans _ (pm_elements p !!! j)); try done.
             ++ rewrite Hv1. apply Hin. lia.
             ++ apply Hin. lia.
             ++ apply Hin. lia.
      + split; [done|]. split; [done|]. split; [done|]. split; [done|].
        intros j' Hj'. destruct (decide (j' = j)) as [->|Hne]; [done|].
        apply Hrow. lia. }
  replace (i + 1 + (n - (i + 1))) with n in Hfinal by lia.
  destruct (foldl _ _ _) as [p v1]. destruct Hfinal as (Hsz & Hcap & Htp & Hv1 & Hrow).
  simpl in *. split; [done|]. split; [done|]. split; [done|].
  apply row_valid_intro. intros j Hj. rewrite <- Hv1. apply Hrow.
  rewrite (tail_perm_length _ _ _ Htp) in Hj. lia.
Qed.

(** The whole pass: every position from [start] on is made valid. *)
Lemma make_valid_rows_spec perm start :
  length (pm_elements perm) = n →
  (∀ x, x ∈ pm_elements perm → x < n) →
  start ≤ n →
  let perm' := foldl (make_valid_row po n) perm (seq start (n - start)) in
  pm_size perm' = pm_size perm
  ∧ pm_capacity perm' = pm_capacity perm
  ∧ tail_perm start (pm_elements perm) (pm_elements perm')
  ∧ ∀ i, start ≤ i < n → row_valid po (pm_elements perm') i.
Proof.
  intros Hlen Hrange Hstart perm'.
  pose (P := fun (i : nat) (p : permutation_t) =>
    pm_size p = pm_size perm
    ∧ pm_capacity p = pm_capacity perm
    ∧ tail_perm start (pm_elements perm) (pm_elements p)
    ∧ ∀ i', start ≤ i' < i → row_valid po (pm_elements p) i').
  assert (Hfinal : P (start + (n - start)) perm').
  { apply (foldl_seq_ind_from P).
    - unfold P. split; [done|]. split; [done|].
      split; [apply tail_perm_refl|]. intros; lia.
    - intros i p Hi (Hsz & Hcap & Htp & Hrows).
      pose proof (tail_perm_length _ _ _ Htp) as Hlen'.
      destruct (make_valid_row_spec p i) as (Hsz' & Hcap' & Htp' & Hrow');
        [lia| |lia|].
      { intros x Hx. apply Hrange.
        by rewrite <- (tail_perm_Permutation _ _ _ Htp). }
      unfold P. split; [congruence|]. split; [congruence|]. split.
      + eapply tail_perm_trans; [exact Htp|].
        apply (tail_perm_mono start i); [lia|lia|done].
      + intros i' Hi'. destruct (decide (i' = i)) as [->|Hne]; [done|].
        apply (row_valid_tail_perm po i (pm_elements p)); [done|lia|lia|].
        apply Hrows. lia. }
  replace (start + (n - start)) with n in Hfinal by lia. exact Hfinal.
Qed.

End make_valid.

(** ** The best-first driver *)

Lemma foldl_preserves {A B} (P : A → Prop) (f : A → B → A) (l : list B) :
  (∀ x y, P x → P (f x y)) → ∀ a, P a → P (foldl f a l).
Proof.
  intros Hf. induction l as [|y l IH]; intros a Ha; [done|].
  simpl. apply IH. by apply Hf.
Qed.

Lemma make_valid_perm_shape po perm n perm' :
  make_valid_perm po perm n = Done perm' →
  pm_size perm' = pm_size perm
  ∧ pm_capacity perm' = pm_capacity perm
  ∧ length (pm_elements perm') = length (pm_elements perm).
Proof.
  unfold make_valid_perm. destruct (is_valid_partial_perm _ _ _); [|done].
  intros [= <-].
  apply (foldl_preserves (fun p =>
    pm_size p = pm_size perm ∧ pm_capacity p = pm_capacity perm
    ∧ length (pm_elements p) = length (pm_elements perm))); [|done].
  intros p i Hp. unfold make_valid_row.
  apply (foldl_preserves (fun st : permutation_t * nat =>
    pm_size st.1 = pm_size perm ∧ pm_capacity st.1 = pm_capacity perm
    ∧ length (pm_elements st.1) = length (pm_elements perm))); [|done].
  intros [q v1] j (Hs & Hc & Hl). unfold make_valid_visit.
  destruct (bool_decide _); simpl; [|done].
  by rewrite !length_insert.
Qed.

Lemma perm_full_length n p : perm_full n p → length (pm_elements p) = n.
Proof. intros [_ Hp]. by rewrite Hp, length_seq. Qed.

Lemma perm_full_range n p x : perm_full n p → x ∈ pm_elements p → x < n.
Proof. intros [_ Hp]. rewrite Hp. intros Hx%elem_of_seq. lia. Qed.

(** After the repair pass the whole buffer is precedence-valid. *)
Lemma make_valid_perm_repaired po n perm perm' :
  gt_transitive n po → gt_asymmetric n po →
  perm_full n perm → pm_size perm ≤ n →
  make_valid_perm po perm n = Done perm' →
  repaired n po (pmSetSize perm' n).
Proof.
  intros Htrans Hasym Hfull Hsz Hmv.
  pose proof (perm_full_length _ _ Hfull) as Hlen.
  destruct (make_valid_rows_spec po n Htrans Hasym perm (pmLength perm) Hlen)
    as (Hs & Hc & Htp & Hrows); [by intros x; apply perm_full_range|done|].
  unfold make_valid_perm in Hmv.
  destruct (is_valid_partial_perm _ _ _) eqn:Hvalid; [|done].
  injection Hmv as <-. apply is_valid_partial_perm_spec in Hvalid.
  set (perm' := foldl _ _ _) in *.
  pose proof (tail_perm_length _ _ _ Htp) as Hlen'.
  split; [done|]. split.
  - split; simpl; [by rewrite Hc; apply Hfull|].
    rewrite (tail_perm_Permutation _ _ _ Htp). apply Hfull.
  - intros i j Hij. unfold pmElt. simpl.
    destruct (decide (i < pmLength perm)) as [Hi|Hi].
    + apply Hvalid; [|done]. unfold pmLength in *. by rewrite Hs.
    + apply row_valid_lookup; [apply Hrows|]; unfold pmLength in *; lia.
Qed.

(** The assertion that ends the repair pass holds whenever the decided
    prefix was valid before the pass. *)
Lemma make_valid_perm_done po n perm :
  gt_transitive n po → gt_asymmetric n po →
  perm_full n perm → pm_size perm ≤ n → valid_partial po perm n →
  ∃ perm', make_valid_perm po perm n = Done perm'.
Proof.
  intros Htrans Hasym Hfull Hsz Hvalid.
  pose proof (perm_full_length _ _ Hfull) as Hlen.
  destruct (make_valid_rows_spec po n Htrans Hasym perm (pmLength perm) Hlen)
    as (Hs & Hc & Htp & Hrows); [by intros x; apply perm_full_range|done|].
  unfold make_valid_perm. set (perm' := foldl _ _ _) in *.
  pose proof (tail_perm_length _ _ _ Htp) as Hlen'.
  assert (Hv : valid_partial po perm' n).
  { intros i j Hi Hj. unfold pmLength, pmElt in *. rewrite Hs in Hi.
    apply row_valid_lookup; [|lia].
    apply (row_valid_tail_perm po (pm_size perm) (pm_elements perm));
      [done|done|lia|].
    apply row_valid_intro. intros j' Hj'. apply Hvalid; [done|lia]. }
  apply is_valid_partial_perm_spec in Hv. rewrite Hv. by eexists.
Qed.

Lemma pmSwap_perm_full n p a b :
  perm_full n p → a < n → b < n → perm_full n (pmSwap p a b).
Proof.
  intros Hfull Ha Hb. pose proof (perm_full_length _ _ Hfull) as Hlen.
  destruct Hfull as [Hc Hp]. split; [done|]. simpl.
  rewrite swap_Permutation by lia. done.
Qed.

Lemma identity_perm_full n : perm_full n (identity_perm n).
Proof. split; [done|]. by rewrite identity_perm_elements. Qed.

Lemma pmCopyAll_full (dst src : permutation_t) n :
  pm_capacity src = n → length (pm_elements src) = n →
  length (pm_elements dst) = n →
  pmCopyAll dst src = Perm (pm_size src) (pm_capacity dst) (pm_elements src).
Proof.
  intros Hc Hl Hd. unfold pmCopyAll. f_equal.
  rewrite Hc, <- Hl. apply copy_elements_full. congruence.
Qed.

Lemma pmDup_full (src : permutation_t) n :
  pm_capacity src = n → length (pm_elements src) = n → pmDup src = src.
Proof.
  intros Hc Hl. unfold pmDup. destruct src as [sz cap e]. simpl in *.
  f_equal. rewrite Hc, <- Hl. apply copy_elements_full.
  by rewrite length_replicate.
Qed.

(** The length-1 permutation the INIT phase builds for a minimal [i]. *)
Lemma init_perm_queued_ok n po i :
  n ≤ dim po → i < n → poIsMin po i = true →
  queued_ok n po (pmSetSize (pmSwap (identity_perm n) 0 i) 1).
Proof.
  intros Hdim Hi Hmin.
  assert (Hfull : perm_full n (pmSwap (identity_perm n) 0 i)).
  { apply pmSwap_perm_full; [apply identity_perm_full|lia|done]. }
  split; [exact Hfull|]. split; [simpl; lia|].
  intros a b Ha Hb. unfold pmLength in Ha. simpl in Ha.
  assert (a = 0) as -> by lia.
  assert (Hlen : length (pm_elements (identity_perm n)) = n).
  { apply perm_full_length, identity_perm_full. }
  assert (H0 : pmElt (pmSetSize (pmSwap (identity_perm n) 0 i) 1) 0 = i).
  { unfold pmElt, pmSetSize, pmSwap. cbn [pm_elements].
    rewrite swap_lookup_total by lia.
    rewrite identity_perm_elements.
    destruct (decide (0 = i)) as [<-|_].
    - by rewrite lookup_total_seq_lt by lia.
    - rewrite decide_True by done. by rewrite lookup_total_seq_lt by lia. }
  rewrite H0. apply poIsMin_spec; [done|].
  assert (pmElt (pmSetSize (pmSwap (identity_perm n) 0 i) 1) b < n); [|lia].
  apply (perm_full_range n (pmSwap (identity_perm n) 0 i)); [done|].
  unfold pmElt, pmSetSize, pmSwap. cbn [pm_elements].
  apply list_elem_of_lookup_total_2.
  rewrite !length_insert. lia.
Qed.

Section best_first_invariant.
Context {C : Type}.
Variable n : nat.
Variable po : partial_order_t.
Hypothesis Hdim : n ≤ dim po.

Lemma bf_init_loop_inv (fuel : nat) :
  ∀ (bf bf' : bf_state_t C) e,
    bf_inv n po bf → bf_state bf = RC_BFS_INIT →
    bf_init_loop fuel bf = Done (e, bf') →
    bf_inv n po bf'
    ∧ (gt_transitive n po → gt_asymmetric n po → e = RC_ERR_NODATA →
       repaired n po (bf_next_seq bf')).
Proof.
  induction fuel as [|fuel IH]; intros bf bf' e Hinv Hst; [done|].
  destruct Hinv as [Hn Hpo Hwf Hcap Hall [Hbc Hbl] [Hnc Hnl] Hexp].
  cbn [bf_init_loop]. cbv zeta. rewrite Hn, Hpo.
  destruct (Nat.ltb_spec (bf_i bf) n) as [Hi|Hi]; last first.
  { intros [= <- <-]. split; [by split|]. done. }
  destruct (poIsMin po (bf_i bf)) eqn:Hmin; last first.
  { apply IH; [|done]. by split. }
  change (pmIdentity (pmNew n)) with (identity_perm n).
  pose proof (init_perm_queued_ok n po (bf_i bf) Hdim Hi Hmin)
    as Hq.
  set (perm := pmSetSize (pmSwap (identity_perm n) 0 (bf_i bf)) 1) in *.
  destruct Hq as (Hfull & Hsz & Hvalid).
  pose proof (perm_full_length _ _ Hfull) as Hplen.
  destruct (bf_evfunc bf (bf_evcontext bf) perm) as [[err sc] ctx].
  destruct (negb (err =? 0)%Z).
  - rewrite (pmCopyAll_full _ perm n) by (done || apply Hfull).
    destruct (make_valid_perm po _ n) as [next1| |] eqn:Hmv; simpl; [|done..].
    destruct (make_valid_perm_shape _ _ _ _ Hmv) as (Hs1 & Hc1 & Hl1).
    cbn [pm_capacity pm_elements] in Hc1, Hl1.
    intros [= <- <-]. split.
    + split; simpl; try done. split; congruence.
    + intros Htr Has _. simpl.
      eapply make_valid_perm_repaired; [done|done| | |exact Hmv].
      * split; simpl; [done|apply Hfull].
      * done.
  - destruct (heap_insert (bf_pq bf) sc perm) as [pq'| |] eqn:Hins;
      simpl; [|done..].
    apply (heap_insert_inv (queued_ok n po)) in Hins
      as (Hlt & Hwf' & Hall' & Hsz' & Hcap'); [|done..].
    apply IH; [|done]. split; simpl; try done. congruence.
Qed.

Lemma bf_expand_loop_inv (fuel : nat) :
  ∀ (bf bf' : bf_state_t C) e,
    bf_inv n po bf → bf_state bf = RC_BFS_EXPAND →
    bf_expand_loop fuel bf = Done (e, bf') →
    bf_inv n po bf'
    ∧ (gt_transitive n po → gt_asymmetric n po → e = RC_ERR_NODATA →
       repaired n po (bf_next_seq bf')).
Proof.
  induction fuel as [|fuel IH]; intros bf bf' e Hinv Hst; [done|].
  destruct Hinv as [Hn Hpo Hwf Hcap Hall [Hbc Hbl] [Hnc Hnl] Hexp].
  destruct (Hexp Hst) as [Hbperm Hbsz].
  cbn [bf_expand_loop]. cbv zeta. rewrite Hn, Hpo.
  destruct (Nat.ltb_spec (bf_j bf) n) as [Hj|Hj]; last first.
  { intros [= <- <-]. split; [by split|]. done. }
  rewrite (pmCopyAll_full (bf_next_seq bf) (bf_best_seq bf) n) by done.
  unfold pmSize.
  set (next := pmSetSize (pmSwap (Perm _ _ _) _ _) _).
  assert (Hnfull : perm_full n next).
  { split; [done|]. unfold next. simpl.
    rewrite swap_Permutation by lia. done. }
  pose proof (perm_full_length _ _ Hnfull) as Hnlen.
  assert (Hnsz : pm_size next ≤ n) by (unfold next; simpl; lia).
  destruct (is_valid_partial_perm po next n) eqn:Hvalid; last first.
  { apply IH; [|done]. split; simpl; try done. }
  apply is_valid_partial_perm_spec in Hvalid.
  destruct (bf_evfunc bf (bf_evcontext bf) next) as [[err sc] ctx].
  destruct (negb (err =? 0)%Z).
  - destruct (make_valid_perm po next n) as [next1| |] eqn:Hmv; simpl; [|done..].
    destruct (make_valid_perm_shape _ _ _ _ Hmv) as (Hs1 & Hc1 & Hl1).
    intros [= <- <-]. split.
    + split; simpl; try done. split; [by rewrite Hc1; apply Hnfull|congruence].
    + intros Htr Has _. simpl.
      by eapply make_valid_perm_repaired.
  - rewrite (pmDup_full next n) by (done || apply Hnfull).
    destruct (heap_insert (bf_pq bf) sc next) as [pq'| |] eqn:Hins;
      simpl; [|done..].
    apply (heap_insert_inv (queued_ok n po)) in Hins
      as (Hlt & Hwf' & Hall' & Hsz' & Hcap'); [|done..].
    apply IH; [|done]. split; simpl; try done. congruence.
Qed.

Lemma bf_visit_inv (bf bf' : bf_state_t C) (e : Z) :
  bf_inv n po bf → bf_state bf = RC_BFS_VISIT →
  bf_visit bf = Done (e, bf') →
  bf_inv n po bf' ∧ e ≠ RC_ERR_NODATA.
Proof.
  intros Hinv Hst. pose proof Hinv as Hinv0.
  destruct Hinv as [Hn Hpo Hwf Hcap Hall [Hbc Hbl] [Hnc Hnl] Hexp].
  unfold bf_visit. destruct (heap_size (bf_pq bf) =? 0).
  { destruct (_ =? _); [|done]. intros [= <- <-]. done. }
  destruct (heap_extract_max (bf_pq bf)) as [[top pq']| |] eqn:Hex;
    simpl; [|done..].
  apply (heap_extract_max_inv (queued_ok n po)) in Hex
    as ((Hfull & Hsz & Hvalid) & Hwf' & Hall' & Hsz' & Hcap'); [|done..].
  pose proof (perm_full_length _ _ Hfull) as Htlen.
  rewrite (pmCopyAll_full (bf_best_seq bf) top n) by (done || apply Hfull).
  unfold pmLength, pmSize. simpl. rewrite Hn.
  destruct (Nat.eqb_spec (pm_size top) n) as [Heq|Hne]; intros [= <- <-].
  - split; [|done]. split; simpl; try done. congruence.
  - split; [|done]. split; simpl; try done; [congruence|].
    intros _. split; [apply Hfull|lia].
Qed.

Lemma bf_drain_loop_inv (P : permutation_t → Prop) (fuel : nat) :
  ∀ pq pq',
    heap_wf pq → heap_all P pq → bf_drain_loop fuel pq = Done pq' →
    heap_wf pq' ∧ heap_all P pq' ∧ h_capacity pq' = h_capacity pq.
Proof.
  induction fuel as [|fuel IH]; intros pq pq' Hwf Hall; [done|].
  cbn [bf_drain_loop]. destruct (negb (heap_size pq =? 0)); last first.
  { by intros [= <-]. }
  destruct (heap_extract_max pq) as [[top pq1]| |] eqn:Hex; simpl; [|done..].
  apply (heap_extract_max_inv P) in Hex as (_ & Hwf1 & Hall1 & _ & Hcap1);
    [|done..].
  intros Hloop. apply IH in Hloop as (? & ? & ?); [|done..].
  split; [done|]. split; [done|]. congruence.
Qed.

(** Every step that returns keeps the invariant, and a step that returns
    NODATA leaves a repaired full permutation in [next_seq]. *)
Lemma best_first_step_inv (bf bf' : bf_state_t C) (e : Z) :
  bf_inv n po bf → best_first_step bf = Done (e, bf') →
  bf_inv n po bf'
  ∧ (gt_transitive n po → gt_asymmetric n po → e = RC_ERR_NODATA →
     repaired n po (bf_next_seq bf')).
Proof.
  intros Hinv. unfold best_first_step.
  destruct (bf_state bf) eqn:Hst.
  - by apply bf_init_loop_inv.
  - intros Hv. apply bf_visit_inv in Hv as [Hinv' Hne]; [|done..].
    split; [done|]. intros _ _ He. done.
  - by apply bf_expand_loop_inv.
  - destruct Hinv as [Hn Hpo Hwf Hcap Hall Hb Hnx Hexp].
    destruct (bf_drain_loop _ _) as [pq'| |] eqn:Hdr; simpl; [|done..].
    apply (bf_drain_loop_inv (queued_ok n po)) in Hdr as (? & ? & ?);
      [|done..].
    intros [= <- <-]. split; [|done].
    split; simpl; try done. congruence.
Qed.

Lemma best_first_init_inv (evf : evaluation_func_t C) (c : C) :
  bf_inv n po (best_first_init n po evf c).
Proof.
  split; simpl; try done.
  - split; simpl; [by rewrite length_replicate|lia].
  - intros k Hk. simpl in Hk. lia.
  - by rewrite length_replicate.
  - by rewrite length_replicate.
Qed.

Lemma bf_reach_inv (evf : evaluation_func_t C) (bf : bf_state_t C) :
  bf_reach n po evf bf → bf_inv n po bf.
Proof.
  induction 1 as [c|bf bf' e _ IH Hstep|bf c _ IH].
  - apply best_first_init_inv.
  - by apply (best_first_step_inv bf bf' e).
  - destruct IH. by split.
Qed.

End best_first_invariant.

(** ** The assertion of the repair pass *)

Lemma heap_insert_fail {V : Type} `{!Inhabited V} (heap : heap_t V) (k : Z)
    (v : V) (why : assertion) :
  heap_insert heap k v = AssertFail why → why = HeapOverflow.
Proof.
  unfold heap_insert. destruct (_ <? _); [|by intros [= <-]].
  by destruct (heap_insert_loop _ _ _ _).
Qed.

Lemma bf_drain_loop_fail (fuel : nat) :
  ∀ (pq : heap_t permutation_t) (why : assertion),
    bf_drain_loop fuel pq = AssertFail why → why = HeapUnderflow.
Proof.
  induction fuel as [|fuel IH]; intros pq why; [done|].
  cbn [bf_drain_loop]. destruct (negb _); [|done].
  unfold heap_extract_max. destruct (_ <? _); [|by intros [= <-]].
  simpl. apply IH.
Qed.

Section best_first_repair.
Context {C : Type}.
Variable n : nat.
Variable po : partial_order_t.
Hypothesis Hdim : n ≤ dim po.
Hypothesis Htrans : gt_transitive n po.
Hypothesis Hasym : gt_asymmetric n po.

Lemma bf_init_loop_repair_ok (fuel : nat) :
  ∀ bf : bf_state_t C,
    bf_inv n po bf → bf_state bf = RC_BFS_INIT →
    bf_init_loop fuel bf ≠ AssertFail InvalidRepair.
Proof.
  induction fuel as [|fuel IH]; intros bf Hinv Hst; [done|].
  destruct Hinv as [Hn Hpo Hwf Hcap Hall [Hbc Hbl] [Hnc Hnl] Hexp].
  cbn [bf_init_loop]. cbv zeta. rewrite Hn, Hpo.
  destruct (Nat.ltb_spec (bf_i bf) n) as [Hi|Hi]; [|done].
  destruct (poIsMin po (bf_i bf)) eqn:Hmin; last first.
  { apply IH; [|done]. by split. }
  change (pmIdentity (pmNew n)) with (identity_perm n).
  pose proof (init_perm_queued_ok n po (bf_i bf) Hdim Hi Hmin) as Hq.
  set (perm := pmSetSize (pmSwap (identity_perm n) 0 (bf_i bf)) 1) in *.
  destruct Hq as (Hfull & Hsz & Hvalid).
  pose proof (perm_full_length _ _ Hfull) as Hplen.
  destruct (bf_evfunc bf (bf_evcontext bf) perm) as [[err sc] ctx].
  destruct (negb (err =? 0)%Z).
  - rewrite (pmCopyAll_full _ perm n) by (done || apply Hfull).
    destruct (make_valid_perm_done po n
                (Perm (pm_size perm) (pm_capacity (bf_next_seq bf))
                      (pm_elements perm))) as [next1 ->]; try done.
    split; [done|apply Hfull].
  - destruct (heap_insert (bf_pq bf) sc perm) as [pq'|why|] eqn:Hins;
      simpl; [| |done].
    + apply (heap_insert_inv (queued_ok n po)) in Hins
        as (Hlt & Hwf' & Hall' & Hsz' & Hcap'); [|done..].
      apply IH; [|done]. split; simpl; try done. congruence.
    + apply heap_insert_fail in Hins as ->. done.
Qed.

Lemma bf_expand_loop_repair_ok (fuel : nat) :
  ∀ bf : bf_state_t C,
    bf_inv n po bf → bf_state bf = RC_BFS_EXPAND →
    bf_expand_loop fuel bf ≠ AssertFail InvalidRepair.
Proof.
  induction fuel as [|fuel IH]; intros bf Hinv Hst; [done|].
  destruct Hinv as [Hn Hpo Hwf Hcap Hall [Hbc Hbl] [Hnc Hnl] Hexp].
  destruct (Hexp Hst) as [Hbperm Hbsz].
  cbn [bf_expand_loop]. cbv zeta. rewrite Hn, Hpo.
  destruct (Nat.ltb_spec (bf_j bf) n) as [Hj|Hj]; [|done].
  rewrite (pmCopyAll_full (bf_next_seq bf) (bf_best_seq bf) n) by done.
  unfold pmSize.
  set (next := pmSetSize (pmSwap (Perm _ _ _) _ _) _).
  assert (Hnfull : perm_full n next).
  { split; [done|]. unfold next. simpl.
    rewrite swap_Permutation by lia. done. }
  pose proof (perm_full_length _ _ Hnfull) as Hnlen.
  assert (Hnsz : pm_size next ≤ n) by (unfold next; simpl; lia).
  destruct (is_valid_partial_perm po next n) eqn:Hvalid; last first.
  { apply IH; [|done]. split; simpl; try done. }
  apply is_valid_partial_perm_spec in Hvalid.
  destruct (bf_evfunc bf (bf_evcontext bf) next) as [[err sc] ctx].
  destruct (negb (err =? 0)%Z).
  - by destruct (make_valid_perm_done po n next) as [next1 ->].
  - rewrite (pmDup_full next n) by (done || apply Hnfull).
    destruct (heap_insert (bf_pq bf) sc next) as [pq'|why|] eqn:Hins;
      simpl; [| |done].
    + apply (heap_insert_inv (queued_ok n po)) in Hins
        as (Hlt & Hwf' & Hall' & Hsz' & Hcap'); [|done..].
      apply IH; [|done]. split; simpl; try done. congruence.
    + apply heap_insert_fail in Hins as ->. done.
Qed.

(** In a run over a transitive, asymmetric order the assertion that ends
    [make_valid_perm] never fails: an oracle stall is always answered by
    NODATA and a repaired [next_seq]. *)
Lemma best_first_step_repair_ok (evf : evaluation_func_t C)
    (bf : bf_state_t C) :
  bf_reach n po evf bf → best_first_step bf ≠ AssertFail InvalidRepair.
Proof.
  intros Hreach. pose proof (bf_reach_inv n po Hdim evf bf Hreach) as Hinv.
  unfold best_first_step. destruct (bf_state bf) eqn:Hst.
  - by apply bf_init_loop_repair_ok.
  - unfold bf_visit. destruct (_ =? 0); [by destruct (_ =? _)|].
    unfold heap_extract_max. destruct (_ <? _); [|done]. simpl.
    by destruct (_ =? _).
  - by apply bf_expand_loop_repair_ok.
  - destruct (bf_drain_loop _ _) as [pq'|why|] eqn:Hdr; simpl; [done| |done].
    apply bf_drain_loop_fail in Hdr as ->. done.
Qed.

End best_first_repair.

(** The loops of the driver end within the fuel they are given. *)
Section best_first_termination.
Context {C : Type}.

Lemma bf_init_loop_terminates (fuel : nat) :
  ∀ bf : bf_state_t C,
    bf_n bf - bf_i bf < fuel → bf_init_loop fuel bf ≠ Timeout.
Proof.
  induction fuel as [|fuel IH]; intros bf Hfuel; [lia|].
  cbn [bf_init_loop]. cbv zeta.
  destruct (Nat.ltb_spec (bf_i bf) (bf_n bf)) as [Hi|Hi]; [|done].
  destruct (poIsMin _ _); [|apply IH; simpl; lia].
  destruct (bf_evfunc bf _ _) as [[err sc] ctx].
  destruct (negb (err =? 0)%Z).
  - unfold make_valid_perm. by destruct (is_valid_partial_perm _ _ _).
  - unfold heap_insert. destruct (_ <? _); [|done].
    destruct (heap_insert_loop _ _ _ _). simpl. apply IH. simpl. lia.
Qed.

Lemma bf_expand_loop_terminates (fuel : nat) :
  ∀ bf : bf_state_t C,
    bf_n bf - bf_j bf < fuel → bf_expand_loop fuel bf ≠ Timeout.
Proof.
  induction fuel as [|fuel IH]; intros bf Hfuel; [lia|].
  cbn [bf_expand_loop]. cbv zeta.
  destruct (Nat.ltb_spec (bf_j bf) (bf_n bf)) as [Hj|Hj]; [|done].
  destruct (is_valid_partial_perm _ _ _) eqn:Hvalid; [|apply IH; simpl; lia].
  destruct (bf_evfunc bf _ _) as [[err sc] ctx].
  destruct (negb (err =? 0)%Z).
  - unfold make_valid_perm. destruct (is_valid_partial_perm _ (foldl _ _ _) _); simpl; done.
  - unfold heap_insert. destruct (_ <? _); [|done].
    destruct (heap_insert_loop _ _ _ _). simpl. apply IH. simpl. lia.
Qed.

Lemma bf_drain_loop_terminates (fuel : nat) :
  ∀ pq : heap_t permutation_t,
    heap_size pq < fuel → bf_drain_loop fuel pq ≠ Timeout.
Proof.
  induction fuel as [|fuel IH]; intros pq Hfuel; [lia|].
  cbn [bf_drain_loop].
  destruct (Nat.eqb_spec (heap_size pq) 0) as [Hz|Hnz]; [done|]. simpl.
  unfold heap_extract_max. unfold heap_size in *.
  destruct (Nat.ltb_spec 0 (h_size pq)); [|done]. simpl.
  apply IH. unfold heapify.
  destruct (heapify_loop_shape (h_size pq - 1)
    (Heap (h_size pq - 1) (h_capacity pq)
          (<[1 := h_data pq !!! h_size pq]> (h_data pq))) 1) as (Hs & _ & _).
  simpl in *. rewrite Hs. lia.
Qed.

Lemma best_first_step_terminates (bf : bf_state_t C) :
  best_first_step bf ≠ Timeout.
Proof.
  unfold best_first_step. destruct (bf_state bf).
  - apply bf_init_loop_terminates. lia.
  - unfold bf_visit. destruct (_ =? 0); [by destruct (_ =? _)|].
    unfold heap_extract_max. destruct (_ <? _); [|done]. simpl.
    by destruct (_ =? _).
  - apply bf_expand_loop_terminates. lia.
  - pose proof (bf_drain_loop_terminates (heap_size (bf_pq bf) + 1) (bf_pq bf)).
    destruct (bf_drain_loop _ _); simpl; [done|done|]. intros _. apply H; [lia|done].
Qed.

End best_first_termination.

Lemma bf_steps_reach {C : Type} n po (evf : evaluation_func_t C) (k : nat) :
  ∀ bf bf', bf_reach n po evf bf → bf_steps k bf = Done bf' →
            bf_reach n po evf bf'.
Proof.
  induction k as [|k IH]; intros bf bf' Hreach; simpl.
  { by intros [= <-]. }
  destruct (best_first_step bf) as [[e bf1]| |] eqn:Hstep; simpl; [|done..].
  apply IH. by eapply bf_reach_step.
Qed.

(** C9.  In every state of a run of the best-first driver over [n]
    elements (the partial order covering them), every permutation stored
    in the priority queue has capacity [n] and is a valid partial
    permutation: no decided position is GT a later position. *)
Theorem best_first_heap_invariant {C : Type} (n : nat) (po : partial_order_t)
    (evf : evaluation_func_t C) (bf : bf_state_t C) :
  n ≤ dim po →
  bf_reach n po evf bf →
  Forall (fun p => pm_capacity p = n ∧ valid_partial po p n)
         (heap_vals (bf_pq bf)).
Proof.
  intros Hdim Hreach.
  destruct (bf_reach_inv n po Hdim evf bf Hreach) as [_ _ Hwf _ Hall _ _ _].
  apply heap_all_vals; [done|].
  intros k Hk. destruct (Hall k Hk) as ((Hcap & _) & _ & Hvalid). done.
Qed.

Lemma best_first_heap_invariant_witness :
  ∃ bf, bf_steps 1 (best_first_init 2 (poNew 2) flat_oracle tt) = Done bf
        ∧ heap_size (bf_pq bf) = 2
        ∧ Forall (fun p => pm_capacity p = 2 ∧ valid_partial (poNew 2) p 2)
                 (heap_vals (bf_pq bf)).
Proof.
  eexists. split; [vm_compute; reflexivity|]. split; [reflexivity|].
  apply (best_first_heap_invariant 2 (poNew 2) flat_oracle).
  - simpl. lia.
  - eapply bf_reach_step; [apply (bf_reach_init _ _ _ tt)|].
    vm_compute. reflexivity.
Defined.

(** C8, as the code has it.  When the partial order covers the [n]
    elements and its GT relation is transitive and asymmetric on them (as
    after the closure of an input without contradictions), a step of a run
    that returns NODATA leaves in [next_seq] a full permutation of length
    [n] that is precedence-valid: no position is GT a later one. *)
Theorem best_first_nodata_repair {C : Type} (n : nat) (po : partial_order_t)
    (evf : evaluation_func_t C) (bf bf' : bf_state_t C) :
  n ≤ dim po → gt_transitive n po → gt_asymmetric n po →
  bf_reach n po evf bf →
  best_first_step bf = Done (RC_ERR_NODATA, bf') →
  pmLength (bf_next_seq bf') = n
  ∧ pm_capacity (bf_next_seq bf') = n
  ∧ pm_elements (bf_next_seq bf') ≡ₚ seq 0 n
  ∧ ∀ i j, i < j < n →
           poGet po (pmElt (bf_next_seq bf') i) (pmElt (bf_next_seq bf') j)
           ≠ PO_GT.
Proof.
  intros Hdim Htrans Hasym Hreach Hstep.
  pose proof (bf_reach_inv n po Hdim evf bf Hreach) as Hinv.
  destruct (best_first_step_inv n po Hdim bf bf' _ Hinv Hstep) as [_ Hrep].
  destruct (Hrep Htrans Hasym eq_refl) as (Hlen & [Hcap Hperm] & Hvalid).
  done.
Qed.

Lemma po_swap3_gt_transitive : gt_transitive 3 po_swap3.
Proof.
  intros a b c Ha Hb Hc.
  do 3 (destruct a as [|a]; [
    do 3 (destruct b as [|b]; [
      do 3 (destruct c as [|c]; [by vm_compute|]); lia|]); lia|]); lia.
Qed.

Lemma po_swap3_gt_asymmetric : gt_asymmetric 3 po_swap3.
Proof.
  intros a b Ha Hb.
  do 3 (destruct a as [|a]; [
    do 3 (destruct b as [|b]; [by vm_compute|]); lia|]); lia.
Qed.

Lemma best_first_nodata_repair_witness :
  ∃ bf',
    best_first_step
      (best_first_init 3 po_swap3 (failing_oracle RC_ERR_NODATA) tt)
    = Done (RC_ERR_NODATA, bf')
    ∧ pm_elements (bf_next_seq bf') = [0; 2; 1]
    ∧ pmLength (bf_next_seq bf') = 3
    ∧ pm_capacity (bf_next_seq bf') = 3
    ∧ pm_elements (bf_next_seq bf') ≡ₚ seq 0 3
    ∧ ∀ i j, i < j < 3 →
             poGet po_swap3 (pmElt (bf_next_seq bf') i)
                            (pmElt (bf_next_seq bf') j) ≠ PO_GT.
Proof.
  eexists. split; [vm_compute; reflexivity|]. split; [reflexivity|].
  apply (best_first_nodata_repair 3 po_swap3 (failing_oracle RC_ERR_NODATA)
           (best_first_init 3 po_swap3 (failing_oracle RC_ERR_NODATA) tt)).
  - simpl. lia.
  - exact po_swap3_gt_transitive.
  - exact po_swap3_gt_asymmetric.
  - apply bf_reach_init.
  - vm_compute. reflexivity.
Defined.

(** C8, refuted as stated: with the edges 1 > 3 and 3 > 2 set and the
    order not closed, the first step stalls on the candidate that starts
    with 0, returns NODATA and exposes [0,3,2,1], where position 1 holds 3
    and position 2 holds 2 although 3 is GT 2. *)
Lemma repair_needs_transitive_order :
  ∃ bf',
    best_first_step
      (best_first_init 4 po_open4 (failing_oracle RC_ERR_NODATA) tt)
    = Done (RC_ERR_NODATA, bf')
    ∧ pm_elements (bf_next_seq bf') = [0; 3; 2; 1]
    ∧ pmLength (bf_next_seq bf') = 4
    ∧ poGet po_open4 (pmElt (bf_next_seq bf') 1) (pmElt (bf_next_seq bf') 2)
      = PO_GT.
Proof. eexists. split; [vm_compute; reflexivity|]. by vm_compute. Qed.

(** ** The capacity of the queue *)

Section best_first_room.
Context {C : Type}.

Lemma bf_init_loop_room (fuel : nat) :
  ∀ bf : bf_state_t C,
    heap_size (bf_pq bf) + (bf_n bf - bf_i bf) ≤ h_capacity (bf_pq bf) →
    bf_init_loop fuel bf ≠ AssertFail HeapOverflow.
Proof.
  induction fuel as [|fuel IH]; intros bf Hroom; [done|].
  cbn [bf_init_loop]. cbv zeta.
  destruct (Nat.ltb_spec (bf_i bf) (bf_n bf)) as [Hi|Hi]; [|done].
  destruct (poIsMin _ _); [|apply IH; simpl; lia].
  destruct (bf_evfunc bf _ _) as [[err sc] ctx].
  destruct (negb (err =? 0)%Z).
  - unfold make_valid_perm.
    destruct (is_valid_partial_perm _ (foldl _ _ _) _); simpl; done.
  - unfold heap_size in *.
    destruct (heap_insert_done (bf_pq bf) sc
                (pmSetSize (pmSwap (pmIdentity (pmNew (bf_n bf))) 0 (bf_i bf)) 1))
      as (pq' & -> & Hsz & Hcap); [lia|].
    simpl. apply IH. simpl. unfold heap_size. lia.
Qed.

Lemma bf_expand_loop_room (fuel : nat) :
  ∀ bf : bf_state_t C,
    heap_size (bf_pq bf) + (bf_n bf - bf_j bf) ≤ h_capacity (bf_pq bf) →
    bf_expand_loop fuel bf ≠ AssertFail HeapOverflow.
Proof.
  induction fuel as [|fuel IH]; intros bf Hroom; [done|].
  cbn [bf_expand_loop]. cbv zeta.
  destruct (Nat.ltb_spec (bf_j bf) (bf_n bf)) as [Hj|Hj]; [|done].
  destruct (is_valid_partial_perm _ _ _) eqn:Hvalid; [|apply IH; simpl; lia].
  destruct (bf_evfunc bf _ _) as [[err sc] ctx].
  destruct (negb (err =? 0)%Z).
  - unfold make_valid_perm.
    destruct (is_valid_partial_perm _ (foldl _ _ _) _); simpl; done.
  - unfold heap_size in *.
    match goal with
    | |- context [heap_insert ?h ?k ?v] =>
        destruct (heap_insert_done h k v) as (pq' & -> & Hsz & Hcap); [lia|]
    end.
    simpl. apply IH. simpl. unfold heap_size. lia.
Qed.

Lemma bf_drain_loop_room (fuel : nat) :
  ∀ pq : heap_t permutation_t,
    bf_drain_loop fuel pq ≠ AssertFail HeapOverflow.
Proof.
  induction fuel as [|fuel IH]; intros pq; [done|].
  cbn [bf_drain_loop]. destruct (negb _); [|done].
  unfold heap_extract_max. destruct (_ <? _); [|done]. simpl. apply IH.
Qed.

(** A step fails the assertion of [heap_insert] only if the queue has
    no room left for the candidates the step may still insert. *)
Lemma best_first_step_room (bf : bf_state_t C) :
  heap_size (bf_pq bf) + bf_n bf ≤ h_capacity (bf_pq bf) →
  best_first_step bf ≠ AssertFail HeapOverflow.
Proof.
  intros Hroom. unfold best_first_step. destruct (bf_state bf).
  - apply bf_init_loop_room. lia.
  - unfold bf_visit. destruct (_ =? 0); [by destruct (_ =? _)|].
    unfold heap_extract_max. destruct (_ <? _); [|done]. simpl.
    by destruct (_ =? _).
  - apply bf_expand_loop_room. lia.
  - pose proof (bf_drain_loop_room (heap_size (bf_pq bf) + 1) (bf_pq bf))
      as Hdrain.
    destruct (bf_drain_loop _ _); simpl; [done| |done].
    intros [= ->]. by apply Hdrain.
Qed.

End best_first_room.

(** C10, as the code has it.  The product [n * n] that sizes the queue is
    a product of two [int]s.  As long as it does not overflow
    ([n * n <= INT_MAX], that is [n <= 46340]), [best_first_init]
    allocates the queue empty with capacity [n * n]; in every state of a
    run the queue still has that capacity and holds at most [n * n]
    entries; on a queue of that capacity [heap_insert] passes its
    assertion exactly when the queue holds fewer than [n * n] entries, so
    the assertion cannot fail as long as the occupancy after the insertion
    does not exceed [n * n]; and a step that starts with room for [n] more
    entries does not fail that assertion. *)
Theorem best_first_queue_capacity {C : Type} (n : nat) (po : partial_order_t)
    (evf : evaluation_func_t C) (bf : bf_state_t C) :
  (Z.of_nat n * Z.of_nat n ≤ INT_MAX)%Z →
  n ≤ dim po →
  bf_reach n po evf bf →
  (∀ c, h_capacity (bf_pq (best_first_init n po evf c)) = n * n
        ∧ heap_size (bf_pq (best_first_init n po evf c)) = 0)
  ∧ h_capacity (bf_pq bf) = n * n
  ∧ heap_size (bf_pq bf) ≤ n * n
  ∧ (∀ (pq : heap_t permutation_t) (k : Z) (v : permutation_t),
       h_capacity pq = n * n →
       (heap_size pq + 1 ≤ n * n →
        ∃ pq', heap_insert pq k v = Done pq'
               ∧ heap_size pq' = heap_size pq + 1
               ∧ h_capacity pq' = n * n)
       ∧ (n * n < heap_size pq + 1 →
          heap_insert pq k v = AssertFail HeapOverflow))
  ∧ (heap_size (bf_pq bf) + n ≤ n * n →
     best_first_step bf ≠ AssertFail HeapOverflow).
Proof.
  intros Hint Hdim Hreach.
  destruct (bf_reach_inv n po Hdim evf bf Hreach)
    as [Hn _ [_ Hsz] Hcap _ _ _ _].
  rewrite int_mul_small in Hcap by done.
  split.
  { intros c. cbn. by rewrite int_mul_small. }
  split; [done|]. split; [unfold heap_size; lia|].
  split.
  - intros pq k v Hpq. unfold heap_size. split.
    + intros Hroom.
      destruct (heap_insert_done pq k v) as (pq' & -> & ? & ?); [lia|].
      exists pq'. split; [done|]. split; [done|]. congruence.
    + intros Hfull. apply heap_insert_full. lia.
  - intros Hroom. apply best_first_step_room. rewrite Hn, Hcap. done.
Qed.

Lemma best_first_queue_capacity_witness :
  ∃ bf, bf_steps 1 (best_first_init 2 (poNew 2) flat_oracle tt) = Done bf
        ∧ h_capacity (bf_pq bf) = 2 * 2
        ∧ heap_size (bf_pq bf) = 2
        ∧ ∃ pq', heap_insert (bf_pq bf) 5 (identity_perm 2) = Done pq'
                 ∧ heap_size pq' = heap_size (bf_pq bf) + 1
                 ∧ h_capacity pq' = 2 * 2.
Proof.
  eexists. split; [vm_compute; reflexivity|].
  match goal with
  | |- h_capacity (bf_pq ?b) = _ ∧ _ =>
      destruct (best_first_queue_capacity 2 (poNew 2) flat_oracle b)
        as (_ & Hcap & _ & Hins & _)
  end.
  - unfold INT_MAX. lia.
  - simpl. lia.
  - eapply bf_reach_step; [apply (bf_reach_init _ _ _ tt)|].
    vm_compute. reflexivity.
  - split; [exact Hcap|]. split; [reflexivity|].
    apply (Hins _ 5%Z (identity_perm 2)); [exact Hcap|].
    vm_compute. lia.
Defined.

(** C10, refuted as stated: for [n = 65536] the [int] product [n * n]
    wraps to 0, so [best_first_init] allocates a queue of capacity 0, not
    [n * n], and the first insertion fails the assertion of [heap_insert]
    although the occupancy after it, 1, is far below [n * n]. *)
Lemma best_first_queue_capacity_overflow :
  let n := Z.to_nat 65536 in
  (INT_MAX < Z.of_nat n * Z.of_nat n)%Z
  ∧ int_mul n n = 0%Z
  ∧ h_capacity (bf_pq (best_first_init n (poNew 0) flat_oracle tt)) = 0
  ∧ (Z.of_nat (heap_size (bf_pq (best_first_init n (poNew 0)
                                   flat_oracle tt))) + 1
     ≤ Z.of_nat n * Z.of_nat n)%Z
  ∧ heap_insert (bf_pq (best_first_init n (poNew 0) flat_oracle tt))
                0 (pmNew 0)
    = AssertFail HeapOverflow.
Proof.
  intros n.
  assert (Hn : Z.of_nat n = 65536%Z) by (unfold n; lia).
  assert (Hz : int_mul n n = 0%Z).
  { unfold int_mul. rewrite Hn. reflexivity. }
  rewrite Hn. split; [unfold INT_MAX; lia|]. split; [exact Hz|].
  cbn [best_first_init bf_pq]. rewrite Hz.
  split; [reflexivity|]. split; [cbn; lia|]. reflexivity.
Qed.

(** The limit is met in practice: with five unconstrained elements and
    the oracle that prefers short prefixes, the queue fills up and the
    nineteenth step fails the assertion of [heap_insert]. *)
Example best_first_queue_overflow :
  ∃ bf, bf_steps 18 (best_first_init 5 (poNew 5) shortest_first_oracle tt)
        = Done bf
        ∧ bf_state bf = RC_BFS_EXPAND
        ∧ best_first_step bf = AssertFail HeapOverflow.
Proof. eexists. split; [vm_compute; reflexivity|]. by vm_compute. Qed.

(** ** Fuel of the heap loops *)

Lemma heapify_fuel {V : Type} `{!Inhabited V} (heap : heap_t V) (i extra : nat) :
  heapify heap i = heapify_loop (h_size heap + extra) heap i.
Proof. unfold heapify. apply heapify_loop_fuel; lia. Qed.

Lemma heap_insert_fuel {V : Type} `{!Inhabited V} (heap : heap_t V) (k : Z)
    (extra : nat) :
  heap_insert_loop (h_size heap + 1) (h_data heap) k (h_size heap + 1)
  = heap_insert_loop (h_size heap + 1 + extra) (h_data heap) k (h_size heap + 1).
Proof. apply heap_insert_loop_fuel; lia. Qed.

(* ====================================================================== *)
(** * Further properties of the code *)

(** ** The heap: what insertion and extraction keep *)

Lemma insert_Permutation_delete {A} (l : list A) (i : nat) (x : A) :
  i < length l → <[i := x]> l ≡ₚ x :: delete i l.
Proof.
  intros Hi. rewrite insert_take_drop, delete_take_drop by done.
  by rewrite <- Permutation_middle.
Qed.

(** Copying slot [p] over slot [i] and forgetting slot [p] leaves what the
    list held outside slot [i]. *)
Lemma hole_move_Permutation {A} `{!Inhabited A} (l : list A) (p i : nat) :
  p ≠ i → p < length l → i < length l →
  delete p (<[i := l !!! p]> l) ≡ₚ delete i l.
Proof.
  intros Hne Hp Hi.
  apply (Permutation_cons_inv (a := l !!! p)).
  rewrite <- (insert_Permutation_delete l i (l !!! p)) by done.
  symmetry. apply delete_Permutation.
  rewrite list_lookup_insert_ne by done.
  by apply list_lookup_lookup_total_lt.
Qed.

Lemma list_swap_Permutation {A} `{!Inhabited A} (l : list A) (a b : nat) :
  a < length l → b < length l →
  <[b := l !!! a]> (<[a := l !!! b]> l) ≡ₚ l.
Proof.
  intros Ha Hb. destruct (decide (a = b)) as [->|Hne].
  { rewrite list_insert_insert_eq.
    by rewrite list_insert_id by (by apply list_lookup_lookup_total_lt). }
  rewrite insert_Permutation_delete by (by rewrite length_insert).
  rewrite (hole_move_Permutation l b a) by done.
  symmetry. apply delete_Permutation. by apply list_lookup_lookup_total_lt.
Qed.

Section heap_contents.
Context {V : Type} `{!Inhabited V}.
Implicit Types heap : heap_t V.

Lemma heap_slot_entry (d : list (heap_elt_t V)) (N m : nat) :
  1 ≤ m ≤ N → take N (drop 1 d) !!! (m - 1) = d !!! m.
Proof.
  intros Hm. rewrite lookup_total_take_lt by lia.
  rewrite lookup_total_drop. f_equal. lia.
Qed.

Lemma heap_slot_insert (d : list (heap_elt_t V)) (N m : nat) (x : heap_elt_t V) :
  1 ≤ m ≤ N →
  take N (drop 1 (<[m := x]> d)) = <[m - 1 := x]> (take N (drop 1 d)).
Proof.
  intros Hm. rewrite drop_insert_ge by lia. by rewrite take_insert_lt by lia.
Qed.

Lemma heap_insert_loop_entries (N : nat) (k : Z) (fuel : nat) :
  ∀ (d : list (heap_elt_t V)) i d' i',
    heap_insert_loop fuel d k i = (d', i') →
    1 ≤ i ≤ N → N < length d →
    1 ≤ i' ≤ N ∧ length d' = length d
    ∧ delete (i' - 1) (take N (drop 1 d'))
      ≡ₚ delete (i - 1) (take N (drop 1 d)).
Proof.
  induction fuel as [|fuel IH]; intros d i d' i' Hloop Hi HN.
  { by injection Hloop as <- <-. }
  cbn [heap_insert_loop] in Hloop.
  destruct ((1 <? i) && _) eqn:E; [|by injection Hloop as <- <-].
  apply andb_true_iff in E as [E%Nat.ltb_lt _].
  pose proof (PARENT_bounds i E) as Hp.
  apply IH in Hloop as (Hi' & Hlen & Hperm);
    [|lia|by rewrite length_insert].
  rewrite length_insert in Hlen. split; [done|]. split; [done|].
  rewrite Hperm, heap_slot_insert by lia.
  rewrite <- (heap_slot_entry d N (PARENT i)) by lia.
  apply hole_move_Permutation;
    rewrite ?length_take, ?length_drop; lia.
Qed.

Lemma heapify_loop_entries (fuel : nat) :
  ∀ heap i,
    heap_wf heap → 1 ≤ i →
    heap_entries (heapify_loop fuel heap i) ≡ₚ heap_entries heap.
Proof.
  induction fuel as [|fuel IH]; intros heap i Hwf Hi; [done|].
  cbn [heapify_loop]. cbv zeta.
  remember (if (RIGHT i <? h_size heap) && _ then RIGHT i else _) as largest
    eqn:Hl.
  destruct (heapify_largest heap i largest Hl) as [->|(Hil & Hls & Hl1)].
  { by rewrite Nat.eqb_refl. }
  destruct (Nat.eqb_spec largest i) as [?|_]; [lia|].
  destruct Hwf as [Hlen Hsz].
  rewrite IH; [|split; simpl; [by rewrite !length_insert|done]|lia].
  unfold heap_entries. simpl.
  rewrite !heap_slot_insert by lia.
  rewrite <- (heap_slot_entry (h_data heap) (h_size heap) i) by lia.
  rewrite <- (heap_slot_entry (h_data heap) (h_size heap) largest) by lia.
  apply list_swap_Permutation; rewrite length_take, length_drop; lia.
Qed.

Lemma heap_insert_entries heap (k : Z) (v : V) heap' :
  heap_wf heap → heap_insert heap k v = Done heap' →
  heap_entries heap' ≡ₚ HeapElt k v :: heap_entries heap.
Proof.
  intros [Hlen Hsz]. unfold heap_insert.
  destruct (Nat.ltb_spec (h_size heap) (h_capacity heap)) as [Hlt|]; [|done].
  destruct (heap_insert_loop _ _ _ _) as [d i] eqn:Hloop.
  intros [= <-].
  apply (heap_insert_loop_entries (h_size heap + 1)) in Hloop
    as (Hi & Hlen' & Hperm); [|lia..].
  unfold heap_entries. simpl.
  rewrite heap_slot_insert by lia.
  rewrite insert_Permutation_delete
    by (rewrite length_take, length_drop; lia).
  rewrite Hperm. f_equiv.
  replace (h_size heap + 1 - 1) with (h_size heap) by lia.
  rewrite delete_take_drop, take_take.
  rewrite (drop_ge (take _ _)) by (rewrite length_take; lia).
  rewrite app_nil_r. f_equiv. lia.
Qed.

Lemma heap_extract_max_entries heap (v : V) heap' :
  heap_wf heap → heap_extract_max heap = Done (v, heap') →
  v = val (h_data heap !!! 1)
  ∧ heap_entries heap ≡ₚ h_data heap !!! 1 :: heap_entries heap'.
Proof.
  intros [Hlen Hsz]. unfold heap_extract_max, heapify.
  destruct (Nat.ltb_spec 0 (h_size heap)) as [Hpos|]; [|done].
  intros [= <- <-]. split; [done|].
  rewrite heapify_loop_entries; [|split; simpl; [by rewrite length_insert|lia]|done].
  unfold heap_entries. simpl.
  set (l := drop 1 (h_data heap)).
  assert (Hl : length l = h_capacity heap)
    by (unfold l; rewrite length_drop; lia).
  replace (h_data heap !!! 1) with (l !!! 0)
    by (unfold l; by rewrite lookup_total_drop).
  replace (h_data heap !!! h_size heap) with (l !!! (h_size heap - 1))
    by (unfold l; rewrite lookup_total_drop; f_equal; lia).
  replace (drop 1 (<[1 := l !!! (h_size heap - 1)]> (h_data heap)))
    with (<[0 := l !!! (h_size heap - 1)]> l)
    by (unfold l; by rewrite drop_insert_ge by lia).
  destruct (decide (h_size heap = 1)) as [->|Hne].
  { simpl. destruct l as [|x l']; simpl in *; [lia|]. by rewrite take_0. }
  replace (h_size heap) with (S (h_size heap - 1)) at 1 by lia.
  rewrite (take_S_r l (h_size heap - 1) (l !!! (h_size heap - 1)))
    by (apply list_lookup_lookup_total_lt; lia).
  rewrite take_insert_lt by lia.
  rewrite insert_Permutation_delete by (rewrite length_take; lia).
  rewrite <- Permutation_cons_append.
  rewrite (Permutation_swap (l !!! (h_size heap - 1)) (l !!! 0)).
  f_equiv. apply delete_Permutation.
  rewrite lookup_take_lt by lia. apply list_lookup_lookup_total_lt. lia.
Qed.

(** The sift-up loop: every pair but the one under the hole stays in
    order, the children of the hole are below the new key and below the
    hole's parent. *)
Lemma heap_insert_loop_order (N : nat) (k : Z) (fuel : nat) :
  ∀ (d : list (heap_elt_t V)) i d' i',
    heap_insert_loop fuel d k i = (d', i') →
    i ≤ fuel → 1 ≤ i ≤ N → N < length d →
    (∀ c, 2 ≤ c ≤ N → c ≠ i → (key (d !!! c) ≤ key (d !!! PARENT c))%Z) →
    (∀ c, 2 ≤ c ≤ N → PARENT c = i → (key (d !!! c) < k)%Z) →
    (∀ c, 2 ≤ c ≤ N → PARENT c = i → 2 ≤ i →
          (key (d !!! c) ≤ key (d !!! PARENT i))%Z) →
    1 ≤ i' ≤ N ∧ length d' = length d
    ∧ (∀ c, 2 ≤ c ≤ N → c ≠ i' → (key (d' !!! c) ≤ key (d' !!! PARENT c))%Z)
    ∧ (∀ c, 2 ≤ c ≤ N → PARENT c = i' → (key (d' !!! c) < k)%Z)
    ∧ (2 ≤ i' → (k ≤ key (d' !!! PARENT i'))%Z).
Proof.
  induction fuel as [|fuel IH]; intros d i d' i' Hloop Hfuel Hi HN Ha Hb Hc.
  { lia. }
  cbn [heap_insert_loop] in Hloop.
  destruct ((1 <? i) && _) eqn:E; last first.
  { injection Hloop as <- <-. split; [done|]. split; [done|].
    split; [done|]. split; [done|]. intros Hi2.
    apply andb_false_iff in E as [E%Nat.ltb_ge|E%Z.ltb_ge]; [lia|done]. }
  apply andb_true_iff in E as [E%Nat.ltb_lt Ek%Z.ltb_lt].
  pose proof (PARENT_bounds i E) as Hp.
  assert (Hget : ∀ m, <[i := d !!! PARENT i]> d !!! m
                      = if decide (m = i) then d !!! PARENT i else d !!! m).
  { intros m. destruct (decide (m = i)) as [->|Hne].
    - by rewrite list_lookup_total_insert_eq by lia.
    - by rewrite list_lookup_total_insert_ne. }
  apply IH in Hloop as (Hi' & Hlen & Ha' & Hb' & Hc');
    [|lia|lia|by rewrite length_insert|..].
  - rewrite length_insert in Hlen. done.
  - intros c Hc2 Hcp. rewrite !Hget.
    destruct (decide (c = i)) as [->|Hci].
    + rewrite decide_False by lia. done.
    + destruct (decide (PARENT c = i)) as [Hpc|Hpc].
      * apply Hc; [done|done|lia].
      * by apply Ha.
  - intros c Hc2 Hcp. rewrite Hget.
    destruct (decide (c = i)) as [->|Hci]; [done|].
    eapply Z.le_lt_trans; [apply Ha; done|]. by rewrite Hcp.
  - intros c Hc2 Hcp Hp2. rewrite !Hget.
    assert (Hpp : PARENT (PARENT i) < PARENT i).
    { apply PARENT_bounds. lia. }
    rewrite (decide_False (P := PARENT (PARENT i) = i)) by lia.
    destruct (decide (c = i)) as [->|Hci].
    + apply Ha; lia.
    + etrans; [apply Ha; done|]. rewrite Hcp. apply Ha; lia.
Qed.

Lemma heap_insert_ordered heap (k : Z) (v : V) heap' :
  heap_wf heap → heap_ordered heap → heap_insert heap k v = Done heap' →
  heap_ordered heap'.
Proof.
  intros [Hlen Hsz] Hord. unfold heap_insert.
  destruct (Nat.ltb_spec (h_size heap) (h_capacity heap)) as [Hlt|]; [|done].
  destruct (heap_insert_loop _ _ _ _) as [d i] eqn:Hloop.
  intros [= <-].
  apply (heap_insert_loop_order (h_size heap + 1)) in Hloop
    as (Hi & Hlen' & Ha & Hb & Hc); [|lia..| | |].
  - intros c Hc2. simpl in *.
    destruct (decide (c = i)) as [->|Hci].
    + rewrite list_lookup_total_insert_eq by lia. simpl.
      pose proof (PARENT_bounds i ltac:(lia)).
      rewrite list_lookup_total_insert_ne by lia. apply Hc. lia.
    + rewrite list_lookup_total_insert_ne by done.
      destruct (decide (PARENT c = i)) as [Hpc|Hpc].
      * rewrite Hpc, list_lookup_total_insert_eq by lia. simpl.
        apply Z.lt_le_incl. by apply Hb.
      * rewrite list_lookup_total_insert_ne by done. by apply Ha.
  - intros c Hc2 Hne. apply Hord. lia.
  - intros c Hc2 Hpc. pose proof (PARENT_bounds c ltac:(lia)). lia.
  - intros c Hc2 Hpc. pose proof (PARENT_bounds c ltac:(lia)). lia.
Qed.

Lemma heap_ordered_root heap :
  heap_ordered heap →
  ∀ i, 1 ≤ i ≤ h_size heap →
       (key (h_data heap !!! i) ≤ key (h_data heap !!! 1%nat))%Z.
Proof.
  intros Hord i. induction i as [i IH] using lt_wf_ind. intros Hi.
  destruct (decide (i = 1)) as [->|Hne]; [done|].
  pose proof (PARENT_bounds i ltac:(lia)) as Hp.
  etrans; [apply Hord; lia|]. apply IH; lia.
Qed.

Lemma heap_ordered_root_is_max heap :
  heap_wf heap → heap_ordered heap → heap_root_is_max heap.
Proof.
  intros [Hlen Hsz] Hord k Hk. unfold heap_keys in Hk.
  apply list_elem_of_fmap in Hk as (e & -> & He).
  apply list_elem_of_lookup_total_1 in He as (m & Hm & <-).
  rewrite length_take, length_drop in Hm.
  replace m with (S m - 1) by lia.
  rewrite (heap_slot_entry _ _ (S m)) by lia.
  apply heap_ordered_root; [done|lia].
Qed.

Lemma heap_new_wf (n : nat) : heap_wf (heap_new (V := V) n).
Proof. split; simpl; [by rewrite length_replicate|lia]. Qed.

Lemma heap_new_ordered (n : nat) : heap_ordered (heap_new (V := V) n).
Proof. intros i Hi. simpl in Hi. lia. Qed.

End heap_contents.

Lemma heap_run_inserts (ks : list Z) :
  ∀ h h',
    heap_wf h → heap_ordered h →
    heap_run h (HInsert <$> ks) = Done h' →
    heap_wf h' ∧ heap_ordered h'
    ∧ heap_entries h' ≡ₚ ((fun k => HeapElt k k) <$> ks) ++ heap_entries h.
Proof.
  induction ks as [|k ks IH]; intros h h' Hwf Hord; simpl.
  { by intros [= <-]. }
  destruct (heap_insert h k k) as [h1| |] eqn:Hins; simpl; [|done..].
  pose proof (heap_insert_entries h k k h1 Hwf Hins) as Hent.
  pose proof (heap_insert_ordered h k k h1 Hwf Hord Hins) as Hord1.
  apply (heap_insert_inv (fun _ => True)) in Hins as (_ & Hwf1 & _);
    [|done..].
  intros Hrun. apply IH in Hrun as (? & ? & Hent'); [|done..].
  split; [done|]. split; [done|].
  rewrite Hent', Hent. by rewrite <- Permutation_middle.
Qed.

(** X1.  [heap_insert] keeps the heap property: on a heap whose live
    slots are in order (no key above its parent's), a successful insertion
    leaves the slots in order, so the root holds a greatest key. *)
Theorem heap_insert_keeps_heap_order {V : Type} `{!Inhabited V}
    (heap heap' : heap_t V) (k : Z) (v : V) :
  heap_wf heap → heap_ordered heap →
  heap_insert heap k v = Done heap' →
  heap_wf heap' ∧ heap_ordered heap' ∧ heap_root_is_max heap'.
Proof.
  intros Hwf Hord Hins.
  pose proof (heap_insert_ordered heap k v heap' Hwf Hord Hins) as Hord'.
  apply (heap_insert_inv (fun _ => True)) in Hins as (_ & Hwf' & _);
    [|done..].
  split; [done|]. split; [done|]. by apply heap_ordered_root_is_max.
Qed.

Lemma heap_insert_keeps_heap_order_witness :
  ∃ h h', heap_run (heap_new 3) (HInsert <$> [5; 3]%Z) = Done h
          ∧ heap_keys h = [5; 3]%Z
          ∧ heap_insert h 7%Z 7%Z = Done h'
          ∧ heap_keys h' = [7; 3; 5]%Z
          ∧ heap_wf h' ∧ heap_ordered h' ∧ heap_root_is_max h'.
Proof.
  do 2 eexists. split; [vm_compute; reflexivity|].
  match goal with
  | |- heap_keys ?h = _ ∧ _ => set (h0 := h)
  end.
  split; [reflexivity|]. split; [vm_compute; reflexivity|].
  split; [reflexivity|].
  apply (heap_insert_keeps_heap_order h0 _ 7%Z 7%Z).
  - split; vm_compute; [reflexivity|lia].
  - intros i Hi. cbn [h_size h0] in Hi. assert (i = 2) as -> by lia.
    vm_compute. discriminate.
  - vm_compute. reflexivity.
Defined.

(** X2.  After any run of insertions into a fresh heap, the first
    [heap_extract_max] returns the greatest of the inserted keys (values
    being the keys), and leaves the other keys in the heap. *)
Theorem heap_first_extract_is_max (c : nat) (ks : list Z) (h h' : heap_t Z)
    (v : Z) :
  heap_run (heap_new c) (HInsert <$> ks) = Done h →
  heap_extract_max h = Done (v, h') →
  v ∈ ks ∧ (∀ k, k ∈ ks → (k ≤ v)%Z) ∧ v :: heap_keys h' ≡ₚ ks.
Proof.
  intros Hrun Hex.
  apply heap_run_inserts in Hrun as (Hwf & Hord & Hent);
    [|apply heap_new_wf|apply heap_new_ordered].
  unfold heap_entries in Hent at 2. simpl in Hent.
  rewrite take_0, app_nil_r in Hent.
  pose proof (heap_ordered_root_is_max h Hwf Hord) as Hmax.
  destruct (heap_extract_max_entries h v h' Hwf Hex) as [Hv Hperm].
  assert (Hkeys : heap_keys h ≡ₚ ks).
  { change (heap_keys h) with (key <$> heap_entries h).
    rewrite Hent, <- list_fmap_compose. simpl. by rewrite list_fmap_id. }
  assert (Hvk : v = key (h_data h !!! 1)).
  { assert (Hall : Forall (fun e => val e = key e) (heap_entries h)).
    { rewrite Hent. apply Forall_fmap, Forall_true. done. }
    rewrite Hv. rewrite Hperm in Hall. by apply Forall_cons in Hall as [? _]. }
  assert (Hsplit : v :: heap_keys h' ≡ₚ ks).
  { rewrite <- Hkeys. change (heap_keys h) with (key <$> heap_entries h).
    rewrite Hperm. simpl. by rewrite Hvk. }
  split; [rewrite <- Hsplit; apply list_elem_of_here|]. split; [|done].
  intros k Hk. rewrite Hvk. apply Hmax. by rewrite Hkeys.
Qed.

Lemma heap_first_extract_is_max_witness :
  ∃ h h', heap_run (heap_new 3) (HInsert <$> [4; 9; 2]%Z) = Done h
          ∧ heap_extract_max h = Done (9%Z, h')
          ∧ 9%Z ∈ [4; 9; 2]%Z
          ∧ (∀ k, k ∈ [4; 9; 2]%Z → (k ≤ 9)%Z)
          ∧ 9%Z :: heap_keys h' ≡ₚ [4; 9; 2]%Z.
Proof.
  do 2 eexists. split; [vm_compute; reflexivity|].
  split; [vm_compute; reflexivity|].
  eapply (heap_first_extract_is_max 3 [4; 9; 2]%Z); vm_compute; reflexivity.
Defined.

(** X3.  A successful [heap_insert] adds exactly the new entry: the live
    entries afterwards are the old ones and the pair inserted, and the
    size grows by one. *)
Theorem heap_insert_adds_entry {V : Type} `{!Inhabited V}
    (heap heap' : heap_t V) (k : Z) (v : V) :
  heap_wf heap →
  heap_insert heap k v = Done heap' →
  heap_entries heap' ≡ₚ HeapElt k v :: heap_entries heap
  ∧ heap_size heap' = heap_size heap + 1
  ∧ h_capacity heap' = h_capacity heap.
Proof.
  intros Hwf Hins. split; [by apply heap_insert_entries|].
  by apply (heap_insert_inv (fun _ => True)) in Hins as (_ & _ & _ & ? & ?).
Qed.

Lemma heap_insert_adds_entry_witness :
  ∃ h', heap_insert (heap_new (V := Z) 2) 7%Z 7%Z = Done h'
        ∧ heap_entries h' ≡ₚ HeapElt 7%Z 7%Z :: heap_entries (heap_new 2)
        ∧ heap_size h' = heap_size (heap_new (V := Z) 2) + 1
        ∧ h_capacity h' = h_capacity (heap_new (V := Z) 2).
Proof.
  eexists. split; [reflexivity|].
  apply (heap_insert_adds_entry (heap_new 2) _ 7%Z 7%Z).
  - apply heap_new_wf.
  - reflexivity.
Defined.

(** X4.  [heap_extract_max] returns the value stored at the root and
    removes exactly that entry: whatever [heapify] does to the order, the
    entries left are the old ones without the root, and the size drops by
    one. *)
Theorem heap_extract_max_removes_root {V : Type} `{!Inhabited V}
    (heap heap' : heap_t V) (v : V) :
  heap_wf heap →
  heap_extract_max heap = Done (v, heap') →
  v = val (h_data heap !!! 1)
  ∧ heap_entries heap ≡ₚ h_data heap !!! 1 :: heap_entries heap'
  ∧ heap_size heap' = heap_size heap - 1
  ∧ heap_wf heap'.
Proof.
  intros Hwf Hex.
  destruct (heap_extract_max_entries heap v heap' Hwf Hex) as [Hv Hperm].
  apply (heap_extract_max_inv (fun _ => True)) in Hex
    as (_ & Hwf' & _ & Hsz & _); done.
Qed.

Lemma heap_extract_max_removes_root_witness :
  ∃ h h', heap_run (heap_new 3) (HInsert <$> [5; 4; 3]%Z) = Done h
          ∧ heap_extract_max h = Done (5%Z, h')
          ∧ 5%Z = val (h_data h !!! 1)
          ∧ heap_entries h ≡ₚ h_data h !!! 1 :: heap_entries h'
          ∧ heap_size h' = heap_size h - 1
          ∧ heap_wf h'.
Proof.
  do 2 eexists. split; [vm_compute; reflexivity|].
  split; [vm_compute; reflexivity|].
  eapply heap_extract_max_removes_root.
  - split; vm_compute; [reflexivity|lia].
  - vm_compute. reflexivity.
Defined.

(** ** Permutations: swap, copy, duplicate, compare *)

Lemma list_eq_lookup_total (l1 l2 : list nat) :
  length l1 = length l2 →
  (∀ m, m < length l1 → l1 !!! m = l2 !!! m) → l1 = l2.
Proof.
  intros Hlen Hall. apply list_eq. intros m.
  destruct (decide (m < length l1)) as [Hm|Hm].
  - rewrite !list_lookup_lookup_total_lt by lia. f_equal. by apply Hall.
  - rewrite !lookup_ge_None_2 by lia. done.
Qed.

Lemma copy_elements_take_drop (k : nat) (dst src : list nat) :
  k ≤ length dst → k ≤ length src →
  copy_elements k dst src = take k src ++ drop k dst.
Proof.
  intros Hd Hs. unfold copy_elements.
  rewrite (foldl_insert_seq (fun i => src !!! i)) by done.
  f_equal. apply list_eq_lookup_total.
  - rewrite length_fmap, length_seq, length_take. lia.
  - intros m Hm. rewrite length_fmap, length_seq in Hm.
    rewrite (list_lookup_total_fmap (fun i => src !!! i))
      by (rewrite length_seq; lia).
    rewrite lookup_total_seq_lt by done. simpl.
    by rewrite lookup_total_take_lt.
Qed.

Lemma pmEqual_pointwise (pm1 pm2 : permutation_t) :
  pmEqual pm1 pm2 = true
  ↔ pm_size pm1 = pm_size pm2
    ∧ ∀ i, i < pm_size pm1 → pm_elements pm1 !!! i = pm_elements pm2 !!! i.
Proof.
  unfold pmEqual.
  destruct (Nat.eqb_spec (pm_size pm1) (pm_size pm2)) as [Heq|Hne]; simpl.
  - rewrite forallb_forall. split.
    + intros Hall. split; [done|]. intros i Hi.
      apply Nat.eqb_eq, Hall, in_seq. lia.
    + intros [_ Hall] i Hi%in_seq. apply Nat.eqb_eq, Hall. lia.
  - split; [done|]. by intros [? _].
Qed.

Lemma pmSwap_twice (pm : permutation_t) (i j : nat) :
  i < length (pm_elements pm) → j < length (pm_elements pm) →
  pmSwap (pmSwap pm i j) i j = pm.
Proof.
  intros Hi Hj. destruct pm as [sz cap e]. unfold pmSwap. simpl in *.
  f_equal. apply list_eq_lookup_total.
  { by rewrite !length_insert. }
  intros m Hm.
  rewrite (swap_lookup_total (<[j := e !!! i]> (<[i := e !!! j]> e)))
    by (by rewrite !length_insert).
  rewrite !swap_lookup_total by done.
  repeat case_decide; congruence.
Qed.

(** X5.  Swapping the same two slots twice restores the permutation. *)
Theorem pmSwap_involutive (pm : permutation_t) (i j : nat) :
  i < length (pm_elements pm) → j < length (pm_elements pm) →
  pmSwap (pmSwap pm i j) i j = pm.
Proof. apply pmSwap_twice. Qed.

Lemma pmSwap_involutive_witness :
  pmSwap (pmSwap (identity_perm 4) 1 3) 1 3 = identity_perm 4.
Proof. apply pmSwap_involutive; vm_compute; lia. Defined.

(** X6.  [pmSwap] exchanges the two slots and touches nothing else: the
    length, the capacity and every other slot are kept, and the buffer
    holds the same elements as before. *)
Theorem pmSwap_exchanges (pm : permutation_t) (i j : nat) :
  i < length (pm_elements pm) → j < length (pm_elements pm) →
  pmLength (pmSwap pm i j) = pmLength pm
  ∧ pm_capacity (pmSwap pm i j) = pm_capacity pm
  ∧ pmElt (pmSwap pm i j) i = pmElt pm j
  ∧ pmElt (pmSwap pm i j) j = pmElt pm i
  ∧ (∀ m, m ≠ i → m ≠ j → pmElt (pmSwap pm i j) m = pmElt pm m)
  ∧ pm_elements (pmSwap pm i j) ≡ₚ pm_elements pm.
Proof.
  intros Hi Hj. unfold pmLength, pmElt, pmSwap. simpl.
  split; [done|]. split; [done|].
  rewrite !swap_lookup_total by done.
  split; [repeat case_decide; congruence|].
  split; [by rewrite decide_True|]. split.
  - intros m Hmi Hmj. rewrite swap_lookup_total by done.
    by rewrite !decide_False.
  - by apply swap_Permutation.
Qed.

Lemma pmSwap_exchanges_witness :
  pmLength (pmSwap (identity_perm 4) 1 3) = pmLength (identity_perm 4)
  ∧ pm_capacity (pmSwap (identity_perm 4) 1 3) = pm_capacity (identity_perm 4)
  ∧ pmElt (pmSwap (identity_perm 4) 1 3) 1 = pmElt (identity_perm 4) 3
  ∧ pmElt (pmSwap (identity_perm 4) 1 3) 3 = pmElt (identity_perm 4) 1
  ∧ (∀ m, m ≠ 1 → m ≠ 3 →
          pmElt (pmSwap (identity_perm 4) 1 3) m = pmElt (identity_perm 4) m)
  ∧ pm_elements (pmSwap (identity_perm 4) 1 3)
    ≡ₚ pm_elements (identity_perm 4).
Proof. apply pmSwap_exchanges; vm_compute; lia. Defined.

(** X7.  [pmEqual] compares the decided prefixes only: it answers true
    exactly when the two lengths agree and the first [length] slots agree,
    whatever the capacities and the undecided slots are. *)
Theorem pmEqual_compares_prefix (pm1 pm2 : permutation_t) :
  pm_size pm1 ≤ length (pm_elements pm1) →
  pm_size pm2 ≤ length (pm_elements pm2) →
  pmEqual pm1 pm2 = true
  ↔ pm_size pm1 = pm_size pm2
    ∧ take (pm_size pm1) (pm_elements pm1)
      = take (pm_size pm2) (pm_elements pm2).
Proof.
  intros H1 H2. rewrite pmEqual_pointwise. split.
  - intros [Hsz Hall]. split; [done|]. rewrite <- Hsz.
    apply list_eq_lookup_total.
    + rewrite !length_take. lia.
    + intros m Hm. rewrite length_take in Hm.
      rewrite !lookup_total_take_lt by lia. apply Hall. lia.
  - intros [Hsz Htake]. split; [done|]. intros i Hi.
    rewrite <- (lookup_total_take_lt (pm_elements pm1) (pm_size pm1)) by done.
    rewrite Htake, lookup_total_take_lt by lia. done.
Qed.

Lemma pmEqual_compares_prefix_witness :
  pmEqual (Perm 2 4 [3; 1; 0; 2]) (Perm 2 3 [3; 1; 2]) = true
  ↔ 2 = 2 ∧ take 2 [3; 1; 0; 2] = take 2 [3; 1; 2].
Proof.
  apply (pmEqual_compares_prefix (Perm 2 4 [3; 1; 0; 2]) (Perm 2 3 [3; 1; 2]));
    simpl; lia.
Defined.

(** X8.  [pmCopy] copies the decided prefix of the source and nothing
    more: the destination gets the source's length and first [length]
    slots, keeps its capacity and its remaining slots, and compares equal
    to the source. *)
Theorem pmCopy_copies_prefix (copy ptr : permutation_t) :
  pm_size ptr ≤ length (pm_elements ptr) →
  pm_size ptr ≤ length (pm_elements copy) →
  pmCopy copy ptr
  = Perm (pm_size ptr) (pm_capacity copy)
         (take (pm_size ptr) (pm_elements ptr)
          ++ drop (pm_size ptr) (pm_elements copy))
  ∧ pmEqual (pmCopy copy ptr) ptr = true.
Proof.
  intros Hs Hd. assert (Heq : pmCopy copy ptr
    = Perm (pm_size ptr) (pm_capacity copy)
           (take (pm_size ptr) (pm_elements ptr)
            ++ drop (pm_size ptr) (pm_elements copy))).
  { unfold pmCopy. by rewrite copy_elements_take_drop. }
  split; [done|]. rewrite Heq. apply pmEqual_pointwise. simpl.
  split; [done|]. intros i Hi.
  rewrite lookup_total_app_l by (rewrite length_take; lia).
  by rewrite lookup_total_take_lt.
Qed.

Lemma pmCopy_copies_prefix_witness :
  pmCopy (Perm 0 4 [9; 9; 9; 9]) (Perm 2 3 [3; 1; 2])
  = Perm 2 4 (take 2 [3; 1; 2] ++ drop 2 [9; 9; 9; 9])
  ∧ pmEqual (pmCopy (Perm 0 4 [9; 9; 9; 9]) (Perm 2 3 [3; 1; 2]))
            (Perm 2 3 [3; 1; 2]) = true.
Proof.
  apply (pmCopy_copies_prefix (Perm 0 4 [9; 9; 9; 9]) (Perm 2 3 [3; 1; 2]));
    simpl; lia.
Defined.

(** X9.  [pmCopyAll] copies every slot of the source, decided or not,
    with its length: the destination, whose capacity is at least the
    source's, keeps its capacity and the slots beyond the source's
    capacity.  A copy back restores the source: for buffers of one
    capacity, copying [src] into [dst] and the result into [src] gives
    [src] again. *)
Theorem pmCopyAll_round_trip (dst src : permutation_t) :
  length (pm_elements src) = pm_capacity src →
  length (pm_elements dst) = pm_capacity dst →
  pm_capacity src ≤ pm_capacity dst →
  pm_elements (pmCopyAll dst src)
  = pm_elements src ++ drop (pm_capacity src) (pm_elements dst)
  ∧ pmLength (pmCopyAll dst src) = pmLength src
  ∧ pm_capacity (pmCopyAll dst src) = pm_capacity dst
  ∧ (pm_capacity dst = pm_capacity src →
     pmCopyAll src (pmCopyAll dst src) = src).
Proof.
  intros Hs Hd Hle. unfold pmCopyAll at 1 2 3. cbn [pm_elements pm_capacity].
  rewrite copy_elements_take_drop by lia. rewrite take_ge by lia.
  split; [done|]. split; [done|]. split; [done|].
  intros Hcap.
  rewrite (pmCopyAll_full dst src (pm_capacity src)) by (done || lia).
  rewrite (pmCopyAll_full src _ (pm_capacity src)) by (done || (cbn; lia)).
  by destruct src.
Qed.

Lemma pmCopyAll_round_trip_witness :
  pm_elements (pmCopyAll (pmNew 3) (Perm 1 3 [2; 0; 1]))
  = [2; 0; 1] ++ drop 3 (pm_elements (pmNew 3))
  ∧ pmLength (pmCopyAll (pmNew 3) (Perm 1 3 [2; 0; 1])) = 1
  ∧ pm_capacity (pmCopyAll (pmNew 3) (Perm 1 3 [2; 0; 1])) = 3
  ∧ (3 = 3 →
     pmCopyAll (Perm 1 3 [2; 0; 1]) (pmCopyAll (pmNew 3) (Perm 1 3 [2; 0; 1]))
     = Perm 1 3 [2; 0; 1]).
Proof.
  apply (pmCopyAll_round_trip (pmNew 3) (Perm 1 3 [2; 0; 1]));
    [reflexivity|reflexivity|simpl; lia].
Defined.

(** X10.  [pmDup] gives a permutation with the capacity, the length and
    all the slots of its argument, the undecided ones included; it
    compares equal to the argument. *)
Theorem pmDup_copies_all (ptr : permutation_t) :
  length (pm_elements ptr) = pm_capacity ptr →
  pmDup ptr = ptr ∧ pmEqual (pmDup ptr) ptr = true.
Proof.
  intros Hlen.
  rewrite (pmDup_full ptr (pm_capacity ptr)) by done.
  split; [done|]. by apply pmEqual_pointwise.
Qed.

Lemma pmDup_copies_all_witness :
  pmDup (Perm 1 3 [2; 0; 1]) = Perm 1 3 [2; 0; 1]
  ∧ pmEqual (pmDup (Perm 1 3 [2; 0; 1])) (Perm 1 3 [2; 0; 1]) = true.
Proof. apply pmDup_copies_all. reflexivity. Defined.

(** X11.  [pmIdentity] fills the whole buffer: whatever it held, slot [i]
    then holds [i] for every [i] below the capacity, and the length is the
    capacity. *)
Theorem pmIdentity_fills (pm : permutation_t) :
  length (pm_elements pm) = pm_capacity pm →
  pmIdentity pm = Perm (pm_capacity pm) (pm_capacity pm) (seq 0 (pm_capacity pm))
  ∧ ∀ i, i < pm_capacity pm → pmElt (pmIdentity pm) i = i.
Proof.
  intros Hlen. assert (Heq : pmIdentity pm
    = Perm (pm_capacity pm) (pm_capacity pm) (seq 0 (pm_capacity pm))).
  { unfold pmIdentity. f_equal.
    rewrite (foldl_insert_seq (fun i => i)) by lia.
    rewrite drop_ge, app_nil_r by lia. apply list_fmap_id. }
  split; [done|]. intros i Hi. rewrite Heq. unfold pmElt. simpl.
  by rewrite lookup_total_seq_lt.
Qed.

Lemma pmIdentity_fills_witness :
  pmIdentity (Perm 1 3 [2; 0; 1]) = Perm 3 3 (seq 0 3)
  ∧ ∀ i, i < 3 → pmElt (pmIdentity (Perm 1 3 [2; 0; 1])) i = i.
Proof. apply (pmIdentity_fills (Perm 1 3 [2; 0; 1])). reflexivity. Defined.

(** X12.  [pmSetElt] writes one slot: the slot reads back the value, the
    other slots and the capacity are kept, and the length becomes [i + 1]
    when [i] was not yet decided and is kept otherwise, so it never
    shrinks. *)
Theorem pmSetElt_writes_slot (pm : permutation_t) (i : nat) (v : nat) :
  i < length (pm_elements pm) →
  pmElt (pmSetElt pm i v) i = v
  ∧ (∀ m, m ≠ i → pmElt (pmSetElt pm i v) m = pmElt pm m)
  ∧ pm_capacity (pmSetElt pm i v) = pm_capacity pm
  ∧ pmLength (pmSetElt pm i v) = Nat.max (pmLength pm) (i + 1).
Proof.
  intros Hi. unfold pmElt, pmSetElt, pmLength. simpl.
  split; [by rewrite list_lookup_total_insert_eq|].
  split; [by intros m Hm; rewrite list_lookup_total_insert_ne|].
  split; [done|]. destruct (Nat.leb_spec (pm_size pm) i); lia.
Qed.

Lemma pmSetElt_writes_slot_witness :
  pmElt (pmSetElt (Perm 1 3 [2; 0; 1]) 2 7) 2 = 7
  ∧ (∀ m, m ≠ 2 → pmElt (pmSetElt (Perm 1 3 [2; 0; 1]) 2 7) m
                  = pmElt (Perm 1 3 [2; 0; 1]) m)
  ∧ pm_capacity (pmSetElt (Perm 1 3 [2; 0; 1]) 2 7) = 3
  ∧ pmLength (pmSetElt (Perm 1 3 [2; 0; 1]) 2 7) = Nat.max 1 (2 + 1).
Proof. apply (pmSetElt_writes_slot (Perm 1 3 [2; 0; 1]) 2 7). simpl. lia. Defined.

(** ** Partial orders: entries, mirror, closure, minimal elements *)

(** Every entry of a fresh matrix reads INCOMPARABLE.  (So does, in the
    model, a read outside the block: the theorems about [poNew] bound [n]
    so that the block has its [n * n] entries.) *)
Lemma poGet_poNew (n u v : nat) : poGet (poNew n) u v = PO_INCOMPARABLE.
Proof.
  unfold poGet, poNew. cbn [po_data dim].
  generalize (Z.to_nat (int_mul n n)). intros k.
  destruct (decide (u * n + v < k)) as [Hlt|Hge].
  - by apply lookup_total_replicate_2.
  - rewrite list_lookup_total_alt, lookup_ge_None_2; [done|].
    rewrite length_replicate. lia.
Qed.


Lemma gt_minimal_prefix po (k : nat) :
  0 < dim po → gt_transitive (dim po) po → gt_asymmetric (dim po) po →
  k ≤ dim po →
  ∃ u, u < dim po ∧ ∀ v, v < k → poGet po u v ≠ PO_GT.
Proof.
  intros Hpos Htrans Hasym. induction k as [|k IH]; intros Hk.
  { exists 0. split; [done|]. intros; lia. }
  destruct IH as (u & Hu & Hmin); [lia|].
  destruct (decide (poGet po u k = PO_GT)) as [Hgt|Hngt].
  - exists k. split; [lia|]. intros v Hv Hkv.
    destruct (decide (v = k)) as [->|Hne].
    + by apply (Hasym k k).
    + apply (Hmin v); [lia|]. apply (Htrans u k v); [done|lia|lia|done..].
  - exists u. split; [done|]. intros v Hv.
    destruct (decide (v = k)) as [->|Hne]; [done|]. apply Hmin. lia.
Qed.

(** X13.  [poSetOrder] writes the pair and then its mirror: afterwards
    [(v,u)] holds the inverse relation, [(u,v)] holds the relation itself
    when [u] and [v] differ (on the diagonal the inverse, written last,
    is what stays), every other entry is kept, and so is the dimension. *)
Theorem poSetOrder_read_back (po : partial_order_t) (u v : nat)
    (rel : po_relation_t) :
  po_wf po → u < dim po → v < dim po →
  dim (poSetOrder po u v rel) = dim po
  ∧ poGet (poSetOrder po u v rel) v u = poInverse rel
  ∧ (u ≠ v → poGet (poSetOrder po u v rel) u v = rel)
  ∧ ∀ u' v', u' < dim po → v' < dim po →
             ¬ (u' = u ∧ v' = v) → ¬ (u' = v ∧ v' = u) →
             poGet (poSetOrder po u v rel) u' v' = poGet po u' v'.
Proof.
  intros Hwf Hu Hv. split; [done|]. split; [|split].
  - rewrite poGet_poSetOrder by done. by rewrite decide_True.
  - intros Hne. rewrite poGet_poSetOrder by done.
    rewrite decide_False by (intros [? ?]; congruence).
    by rewrite decide_True.
  - intros u' v' Hu' Hv' Hn1 Hn2. rewrite poGet_poSetOrder by done.
    by rewrite !decide_False.
Qed.

Lemma poSetOrder_read_back_witness :
  dim (poSetOrder (poNew 3) 2 2 PO_LT) = 3
  ∧ poGet (poSetOrder (poNew 3) 2 2 PO_LT) 2 2 = PO_GT
  ∧ (2 ≠ 2 → poGet (poSetOrder (poNew 3) 2 2 PO_LT) 2 2 = PO_LT)
  ∧ ∀ u' v', u' < 3 → v' < 3 → ¬ (u' = 2 ∧ v' = 2) → ¬ (u' = 2 ∧ v' = 2) →
             poGet (poSetOrder (poNew 3) 2 2 PO_LT) u' v'
             = poGet (poNew 3) u' v'.
Proof.
  apply (poSetOrder_read_back (poNew 3) 2 2 PO_LT);
    [reflexivity|simpl; lia|simpl; lia].
Defined.

(** X14.  A matrix fresh from [poNew] relates nothing.  When the [int]
    product [n * n] does not overflow, the matrix has dimension [n] and
    its [n * n] entries, every pair below the dimension is incomparable
    (for [poGet], [poIncomparable] and [poComparable] alike), and so
    every element is minimal. *)
Theorem poNew_relates_nothing (n u v : nat) :
  (Z.of_nat n * Z.of_nat n ≤ INT_MAX)%Z →
  u < n → v < n →
  dim (poNew n) = n
  ∧ length (po_data (poNew n)) = n * n
  ∧ u * n + v < length (po_data (poNew n))
  ∧ poGet (poNew n) u v = PO_INCOMPARABLE
  ∧ poIncomparable (poNew n) u v = true
  ∧ poComparable (poNew n) u v = false
  ∧ poIsMin (poNew n) u = true.
Proof.
  intros Hint Hu Hv. pose proof (poGet_poNew n u v) as Hget.
  pose proof (poNew_wf n Hint) as Hwf. unfold po_wf in Hwf.
  cbn [dim] in Hwf.
  split; [done|]. split; [done|].
  split; [rewrite Hwf; by apply po_index_lt|].
  split; [done|]. unfold poIncomparable, poComparable.
  fold (poGet (poNew n) u v). rewrite Hget. split; [done|]. split; [done|].
  apply poIsMin_spec. intros w Hw. by rewrite poGet_poNew.
Qed.

Lemma poNew_relates_nothing_witness :
  dim (poNew 3) = 3
  ∧ length (po_data (poNew 3)) = 3 * 3
  ∧ 1 * 3 + 2 < length (po_data (poNew 3))
  ∧ poGet (poNew 3) 1 2 = PO_INCOMPARABLE
  ∧ poIncomparable (poNew 3) 1 2 = true
  ∧ poComparable (poNew 3) 1 2 = false
  ∧ poIsMin (poNew 3) 1 = true.
Proof. apply poNew_relates_nothing; [unfold INT_MAX|..]; lia. Defined.



(** X16.  [poClosure] only fills in: on a matrix with the mirror
    invariant it keeps the dimension, the mirror invariant and every
    entry that was comparable; it changes incomparable entries only. *)
Theorem poClosure_only_fills (po : partial_order_t) :
  po_wf po → po_mirror po →
  dim (poClosure po) = dim po
  ∧ po_wf (poClosure po)
  ∧ po_mirror (poClosure po)
  ∧ ∀ u v, u < dim po → v < dim po →
           poGet po u v ≠ PO_INCOMPARABLE →
           poGet (poClosure po) u v = poGet po u v.
Proof.
  intros Hwf Hm.
  destruct (closure_pivots_extend (seq 0 (dim po)) po Hwf Hm)
    as (Hwf' & Hm' & Hdim & Hkeep).
  { apply Forall_forall. intros k Hk%elem_of_seq. lia. }
  done.
Qed.

Lemma poClosure_only_fills_witness :
  dim (poClosure po_chain3) = 3
  ∧ po_wf (poClosure po_chain3)
  ∧ po_mirror (poClosure po_chain3)
  ∧ ∀ u v, u < 3 → v < 3 →
           poGet po_chain3 u v ≠ PO_INCOMPARABLE →
           poGet (poClosure po_chain3) u v = poGet po_chain3 u v.
Proof.
  apply (poClosure_only_fills po_chain3);
    [reflexivity|exact po_chain3_mirror].
Defined.

(** X17.  [poClosure] is sound for an input without contradictions: when
    the comparable entries of a matrix with the mirror invariant agree
    with a relation [T] that is transitive on LT, EQ and GT, every
    comparable entry of the closure is the value [T] gives to the pair,
    and the closure composes equal comparable entries, EQ included. *)
Theorem poClosure_sound (po : partial_order_t)
    (T : nat → nat → po_relation_t) :
  po_wf po → po_mirror po → po_agrees po T → rel_transitive (dim po) T →
  (∀ u v, u < dim po → v < dim po →
          poGet (poClosure po) u v ≠ PO_INCOMPARABLE →
          poGet (poClosure po) u v = T u v)
  ∧ ∀ u w v, u < dim po → w < dim po → v < dim po →
             poGet (poClosure po) u w ≠ PO_INCOMPARABLE →
             poGet (poClosure po) u w = poGet (poClosure po) w v →
             poGet (poClosure po) u v = poGet (poClosure po) u w.
Proof.
  intros Hwf Hm Hagree HT.
  destruct (poClosure_closed T (dim po) HT po eq_refl Hwf Hm Hagree)
    as [Hdim _ _ Hag Htrans].
  split.
  - intros u v Hu Hv. apply Hag; by rewrite Hdim.
  - intros u w v Hu Hw Hv. by apply Htrans.
Qed.

Lemma poClosure_sound_witness :
  (∀ u v, u < 3 → v < 3 →
          poGet (poClosure po_chain3) u v ≠ PO_INCOMPARABLE →
          poGet (poClosure po_chain3) u v = rank_relation id u v)
  ∧ ∀ u w v, u < 3 → w < 3 → v < 3 →
             poGet (poClosure po_chain3) u w ≠ PO_INCOMPARABLE →
             poGet (poClosure po_chain3) u w = poGet (poClosure po_chain3) w v →
             poGet (poClosure po_chain3) u v = poGet (poClosure po_chain3) u w.
Proof.
  apply (poClosure_sound po_chain3 (rank_relation id)).
  - reflexivity.
  - exact po_chain3_mirror.
  - exact po_chain3_agrees.
  - apply rank_relation_transitive.
Defined.

(** X18.  A non-empty order whose GT relation is transitive and
    asymmetric has an element that [poIsMin] accepts, so the first phase
    of the best-first search has something to start from. *)
Theorem poIsMin_exists (po : partial_order_t) :
  0 < dim po → gt_transitive (dim po) po → gt_asymmetric (dim po) po →
  ∃ u, u < dim po ∧ poIsMin po u = true.
Proof.
  intros Hpos Htrans Hasym.
  destruct (gt_minimal_prefix po (dim po) Hpos Htrans Hasym) as (u & Hu & Hmin);
    [done|].
  exists u. split; [done|]. by apply poIsMin_spec.
Qed.

Lemma poIsMin_exists_witness :
  ∃ u, u < 3 ∧ poIsMin po_swap3 u = true.
Proof.
  apply (poIsMin_exists po_swap3).
  - simpl; lia.
  - exact po_swap3_gt_transitive.
  - exact po_swap3_gt_asymmetric.
Defined.

(** ** Valid swaps and the repair pass *)

Lemma check_valid_swap_spec po perm u v :
  check_valid_swap po perm u v = true
  ↔ poGet po (pmElt perm u) (pmElt perm v) = PO_INCOMPARABLE
    ∧ ∀ i, u < i < v →
           poGet po (pmElt perm u) (pmElt perm i) = PO_INCOMPARABLE
           ∧ poGet po (pmElt perm i) (pmElt perm v) = PO_INCOMPARABLE.
Proof.
  unfold check_valid_swap, poComparable.
  fold (poGet po (pmElt perm u) (pmElt perm v)).
  destruct (bool_decide_reflect
    (poGet po (pmElt perm u) (pmElt perm v) = PO_INCOMPARABLE)) as [Huv|Huv];
    simpl; [|split; [done|by intros [? _]]].
  rewrite forallb_forall. split.
  - intros Hall. split; [done|]. intros i Hi.
    assert (Hin : In i (seq (u + 1) (v - (u + 1)))) by (apply in_seq; lia).
    apply Hall in Hin. apply negb_true_iff, orb_false_iff in Hin as [H1 H2].
    apply negb_false_iff, bool_decide_eq_true in H1, H2. done.
  - intros [_ Hall] i Hi%in_seq. destruct (Hall i) as [H1 H2]; [lia|].
    apply negb_true_iff, orb_false_iff.
    split; apply negb_false_iff, bool_decide_eq_true; done.
Qed.

Lemma tail_perm_sym i e e' : tail_perm i e e' → tail_perm i e' e.
Proof. intros [Ht Hd]. by split. Qed.

Lemma valid_partial_rows po perm n :
  length (pm_elements perm) = n →
  valid_partial po perm n
  ↔ ∀ i, i < pm_size perm → row_valid po (pm_elements perm) i.
Proof.
  intros Hlen. split.
  - intros Hvalid i Hi. apply row_valid_intro. intros j Hj.
    apply Hvalid; [done|lia].
  - intros Hrows i j Hi Hj. apply row_valid_lookup; [by apply Hrows|lia].
Qed.

(** The check of the decided prefix does not see how the undecided tail
    is arranged. *)
Lemma valid_partial_tail_perm po perm perm' n :
  length (pm_elements perm) = n → pm_size perm ≤ n →
  pm_size perm' = pm_size perm →
  tail_perm (pm_size perm) (pm_elements perm) (pm_elements perm') →
  valid_partial po perm n → valid_partial po perm' n.
Proof.
  intros Hlen Hsz Hsz' Htp Hvalid.
  pose proof (tail_perm_length _ _ _ Htp) as Hlen'.
  apply valid_partial_rows; [lia|]. intros i Hi.
  apply (row_valid_tail_perm po (pm_size perm) (pm_elements perm));
    [done|lia|lia|].
  apply (valid_partial_rows po perm n Hlen); [done|lia].
Qed.

(** The repair pass, whatever the order is: it moves the undecided tail
    only. *)
Lemma make_valid_row_tail po n perm i :
  length (pm_elements perm) = n → i < n →
  pm_size (make_valid_row po n perm i) = pm_size perm
  ∧ pm_capacity (make_valid_row po n perm i) = pm_capacity perm
  ∧ tail_perm i (pm_elements perm) (pm_elements (make_valid_row po n perm i)).
Proof.
  intros Hlen Hi. unfold make_valid_row.
  pose (P := fun (j : nat) (st : permutation_t * nat) =>
    pm_size st.1 = pm_size perm
    ∧ pm_capacity st.1 = pm_capacity perm
    ∧ tail_perm i (pm_elements perm) (pm_elements st.1)).
  apply (foldl_seq_ind_from P).
  - unfold P. simpl. split; [done|]. split; [done|]. apply tail_perm_refl.
  - intros j [p v1] Hj (Hs & Hc & Htp). simpl in *.
    pose proof (tail_perm_length _ _ _ Htp) as Hlen'.
    unfold make_valid_visit, P. destruct (bool_decide _); simpl; [|done].
    split; [done|]. split; [done|].
    eapply tail_perm_trans; [exact Htp|]. apply tail_perm_swap; lia.
Qed.

Lemma make_valid_rows_tail po n perm start :
  length (pm_elements perm) = n → start ≤ n →
  let perm' := foldl (make_valid_row po n) perm (seq start (n - start)) in
  pm_size perm' = pm_size perm
  ∧ pm_capacity perm' = pm_capacity perm
  ∧ tail_perm start (pm_elements perm) (pm_elements perm').
Proof.
  intros Hlen Hstart perm'.
  pose (P := fun (i : nat) (p : permutation_t) =>
    pm_size p = pm_size perm
    ∧ pm_capacity p = pm_capacity perm
    ∧ tail_perm start (pm_elements perm) (pm_elements p)).
  apply (foldl_seq_ind_from P).
  - unfold P. split; [done|]. split; [done|]. apply tail_perm_refl.
  - intros i p Hi (Hs & Hc & Htp).
    pose proof (tail_perm_length _ _ _ Htp) as Hlen'.
    destruct (make_valid_row_tail po n p i) as (Hs' & Hc' & Htp'); [lia|lia|].
    unfold P. split; [congruence|]. split; [congruence|].
    eapply tail_perm_trans; [exact Htp|].
    apply (tail_perm_mono start i); [lia|lia|done].
Qed.

Lemma check_valid_swap_keeps_valid (po : partial_order_t)
    (perm : permutation_t) (n u v : nat) :
  po_mirror po →
  u < v → v < n → n ≤ length (pm_elements perm) →
  (∀ m, m < n → pmElt perm m < dim po) →
  precedence_valid po perm n →
  check_valid_swap po perm u v = true →
  precedence_valid po (pmSwap perm u v) n.
Proof.
  intros Hm Huv Hvn Hlen Hrange Hvalid Hcheck.
  apply check_valid_swap_spec in Hcheck as [Hinc Hmid].
  assert (Hinv : ∀ a b, a < n → b < n →
    poGet po (pmElt perm a) (pmElt perm b) = PO_INCOMPARABLE →
    poGet po (pmElt perm b) (pmElt perm a) ≠ PO_GT).
  { intros a b Ha Hb Hab. rewrite (Hm (pmElt perm a) (pmElt perm b))
      by (by apply Hrange). by rewrite Hab. }
  intros a b Hab. unfold pmElt, pmSwap. simpl.
  rewrite !swap_lookup_total by lia.
  fold (pmElt perm u) (pmElt perm v) (pmElt perm a) (pmElt perm b).
  repeat case_decide; subst; try lia;
    try match goal with
        | |- poGet _ (pmElt _ v) (pmElt _ ?b) ≠ _ => destruct (decide (b < v))
        | |- poGet _ (pmElt _ ?a) (pmElt _ u) ≠ _ => destruct (decide (u < a))
        end;
    first [ solve [apply Hvalid; lia]
          | solve [apply Hinv; [lia|lia|first [exact Hinc|apply Hmid; lia]]] ].
Qed.

(** X19.  A swap that [check_valid_swap] accepts is safe: on an order
    with the mirror invariant, exchanging positions [u < v] of a
    precedence-valid arrangement gives a precedence-valid arrangement. *)
Theorem check_valid_swap_safe (po : partial_order_t) (perm : permutation_t)
    (n u v : nat) :
  po_mirror po →
  u < v → v < n → n ≤ length (pm_elements perm) →
  (∀ m, m < n → pmElt perm m < dim po) →
  precedence_valid po perm n →
  check_valid_swap po perm u v = true →
  precedence_valid po (pmSwap perm u v) n.
Proof. apply check_valid_swap_keeps_valid. Qed.

Lemma check_valid_swap_safe_witness :
  precedence_valid po_swap3 (pmSwap (Perm 3 3 [0; 2; 1]) 0 1) 3.
Proof.
  apply (check_valid_swap_safe po_swap3 (Perm 3 3 [0; 2; 1]) 3 0 1).
  - intros a b Ha Hb. change (dim po_swap3) with 3 in *.
    do 3 (destruct a as [|a];
          [do 3 (destruct b as [|b]; [reflexivity|]); lia|]); lia.
  - lia.
  - lia.
  - vm_compute. lia.
  - intros m Hm. change (dim po_swap3) with 3.
    do 3 (destruct m as [|m]; [vm_compute; lia|]). lia.
  - intros i j Hij.
    do 3 (destruct i as [|i];
          [do 3 (destruct j as [|j]; [first [lia|by vm_compute]|]); lia|]); lia.
  - reflexivity.
Defined.

Lemma make_valid_perm_outcome (po : partial_order_t)
    (perm : permutation_t) (n : nat) :
  length (pm_elements perm) = n → pm_size perm ≤ n →
  ((∃ perm', make_valid_perm po perm n = Done perm')
   ↔ valid_partial po perm n)
  ∧ (¬ valid_partial po perm n →
     make_valid_perm po perm n = AssertFail InvalidRepair)
  ∧ ∀ perm', make_valid_perm po perm n = Done perm' →
             pmLength perm' = pmLength perm
             ∧ pm_capacity perm' = pm_capacity perm
             ∧ take (pmLength perm) (pm_elements perm')
               = take (pmLength perm) (pm_elements perm)
             ∧ drop (pmLength perm) (pm_elements perm')
               ≡ₚ drop (pmLength perm) (pm_elements perm).
Proof.
  intros Hlen Hsz.
  destruct (make_valid_rows_tail po n perm (pmLength perm) Hlen Hsz)
    as (Hs & Hc & Htp).
  unfold make_valid_perm. set (perm1 := foldl _ _ _) in *.
  pose proof (tail_perm_length _ _ _ Htp) as Hlen1.
  assert (Hiff : is_valid_partial_perm po perm1 n = true
                 ↔ valid_partial po perm n).
  { rewrite is_valid_partial_perm_spec. split.
    - apply valid_partial_tail_perm; [lia|lia|done|].
      rewrite Hs. by apply tail_perm_sym.
    - by apply valid_partial_tail_perm. }
  destruct (is_valid_partial_perm po perm1 n).
  - split; [|split].
    + split; [intros _; by apply Hiff|by eexists].
    + intros Hn. destruct Hn. by apply Hiff.
    + intros perm' [= <-]. unfold pmLength. destruct Htp as [Ht Hd]. done.
  - split; [|split].
    + split; [by intros [? ?]|]. intros Hv%Hiff. done.
    + done.
    + done.
Qed.

(** X20.  Whatever the relations of the order are (its elements being
    within the order's dimension, as [poGet] asserts), [make_valid_perm]
    moves the undecided tail only: the length, the capacity and the
    decided prefix are kept and the tail is rearranged.  Its closing
    assertion looks at the decided prefix alone, so the call returns
    exactly when the prefix was valid before the pass; the assertion does
    not tell whether the tail was put in order. *)
Theorem make_valid_perm_checks_prefix_only (po : partial_order_t)
    (perm : permutation_t) (n : nat) :
  length (pm_elements perm) = n → pm_size perm ≤ n →
  (∀ m, m < n → pmElt perm m < dim po) →
  ((∃ perm', make_valid_perm po perm n = Done perm')
   ↔ valid_partial po perm n)
  ∧ (¬ valid_partial po perm n →
     make_valid_perm po perm n = AssertFail InvalidRepair)
  ∧ ∀ perm', make_valid_perm po perm n = Done perm' →
             pmLength perm' = pmLength perm
             ∧ pm_capacity perm' = pm_capacity perm
             ∧ take (pmLength perm) (pm_elements perm')
               = take (pmLength perm) (pm_elements perm)
             ∧ drop (pmLength perm) (pm_elements perm')
               ≡ₚ drop (pmLength perm) (pm_elements perm).
Proof. intros Hlen Hsz _. by apply make_valid_perm_outcome. Qed.

Lemma make_valid_perm_checks_prefix_only_witness :
  ((∃ perm', make_valid_perm po_open4 (Perm 1 4 [0; 1; 2; 3]) 4 = Done perm')
   ↔ valid_partial po_open4 (Perm 1 4 [0; 1; 2; 3]) 4)
  ∧ (¬ valid_partial po_open4 (Perm 1 4 [0; 1; 2; 3]) 4 →
     make_valid_perm po_open4 (Perm 1 4 [0; 1; 2; 3]) 4
     = AssertFail InvalidRepair)
  ∧ ∀ perm', make_valid_perm po_open4 (Perm 1 4 [0; 1; 2; 3]) 4 = Done perm' →
             pmLength perm' = 1
             ∧ pm_capacity perm' = 4
             ∧ take 1 (pm_elements perm') = take 1 [0; 1; 2; 3]
             ∧ drop 1 (pm_elements perm') ≡ₚ drop 1 [0; 1; 2; 3].
Proof.
  apply (make_valid_perm_checks_prefix_only po_open4 (Perm 1 4 [0; 1; 2; 3]) 4);
    [simpl; lia|simpl; lia|].
  intros m Hm. change (dim po_open4) with 4.
  do 4 (destruct m as [|m]; [vm_compute; lia|]). lia.
Defined.

(** X21.  On an order that covers the [n] elements and whose GT relation
    is transitive and asymmetric over them, [make_valid_perm] is a
    topological sort of the tail: given a permutation of [0 .. n-1] with a
    valid decided prefix it returns, and the whole buffer is then a
    permutation of [0 .. n-1] in which no position is GT a later one. *)
Theorem make_valid_perm_sorts_tail (po : partial_order_t)
    (perm : permutation_t) (n : nat) :
  n ≤ dim po →
  gt_transitive n po → gt_asymmetric n po →
  perm_full n perm → pm_size perm ≤ n → valid_partial po perm n →
  ∃ perm', make_valid_perm po perm n = Done perm'
           ∧ perm_full n perm'
           ∧ precedence_valid po perm' n.
Proof.
  intros _ Htrans Hasym Hfull Hsz Hvalid.
  destruct (make_valid_perm_done po n perm) as [perm' Hmv]; [done..|].
  exists perm'. split; [done|].
  destruct (make_valid_perm_repaired po n perm perm') as (_ & Hfull' & Hprec);
    [done..|].
  split; [exact Hfull'|exact Hprec].
Qed.

Lemma make_valid_perm_sorts_tail_witness :
  ∃ perm', make_valid_perm po_swap3 (Perm 1 3 [0; 1; 2]) 3 = Done perm'
           ∧ pm_elements perm' = [0; 2; 1]
           ∧ perm_full 3 perm'
           ∧ precedence_valid po_swap3 perm' 3.
Proof.
  destruct (make_valid_perm_sorts_tail po_swap3 (Perm 1 3 [0; 1; 2]) 3)
    as (perm' & Hmv & Hfull & Hvalid).
  - simpl. lia.
  - exact po_swap3_gt_transitive.
  - exact po_swap3_gt_asymmetric.
  - split; reflexivity.
  - simpl; lia.
  - apply is_valid_partial_perm_spec. reflexivity.
  - exists perm'. split; [exact Hmv|]. split; [|done].
    assert (Hc : make_valid_perm po_swap3 (Perm 1 3 [0; 1; 2]) 3
                 = Done (Perm 1 3 [0; 2; 1])) by reflexivity.
    rewrite Hc in Hmv. by injection Hmv as <-.
Defined.

(** ** Hill climbing: what one step does to the current best *)

Lemma pmCopy_filled (n : nat) (dst src : permutation_t) :
  pm_filled n src → pm_capacity dst = n → length (pm_elements dst) = n →
  pmCopy dst src = src.
Proof.
  intros (Hs & Hc & Hl) Hdc Hdl. unfold pmCopy. destruct src as [sz cap e].
  simpl in *. subst sz cap. rewrite Hdc. f_equal.
  rewrite <- Hl at 1. apply copy_elements_full. congruence.
Qed.

Lemma pmSwap_filled (n : nat) (pm : permutation_t) (a b : nat) :
  pm_filled n pm → pm_filled n (pmSwap pm a b).
Proof.
  intros (Hs & Hc & Hl). unfold pm_filled, pmSwap. simpl.
  by rewrite !length_insert.
Qed.

Lemma one_swap_of_filled po n best best' :
  pm_filled n best → one_swap_of po n best best' → pm_filled n best'.
Proof.
  intros Hf [->|(a & b & _ & _ & ->)]; [done|]. by apply pmSwap_filled.
Qed.

Section hill_climb_moves.
Context {C : Type}.
Variable po : partial_order_t.

(** The scan over the pairs, for any oracle: [next_seq] is restored after
    every candidate, so each candidate is one swap of the arrangement the
    pass started from, and [best_seq] is that arrangement or one of the
    candidates. *)
Lemma hc_scan_moves (evf : evaluation_func_t C) (n : nat)
    (N0 : permutation_t) (fuel : nat) :
  pm_filled n N0 →
  ∀ hc ctx i j bs sc,
    hc_n hc = n → hc_next_seq hc = N0 →
    one_swap_of po n N0 (hc_best_seq hc) →
    (i < n - 1 → i < j < n) →
    hc_scan po evf fuel hc ctx i j bs = Done sc →
    hc_n (sc_hc sc) = n
    ∧ one_swap_of po n N0 (hc_best_seq (sc_hc sc))
    ∧ ((sc_err sc = 0%Z ∧ hc_next_seq (sc_hc sc) = N0)
       ∨ (sc_err sc ≠ 0%Z ∧ sc_i sc < sc_j sc < n
          ∧ hc_next_seq (sc_hc sc) = pmSwap N0 (sc_i sc) (sc_j sc))).
Proof.
  intros HN0. induction fuel as [|fuel IH];
    intros hc ctx i j bs sc Hn Hnext Hbest Hcur; [done|].
  cbn [hc_scan]. cbv zeta. rewrite Hn, Hnext.
  destruct (Nat.ltb_spec i (n - 1)) as [Hi|Hi]; last first.
  { intros [= <-]. simpl. split; [done|]. split; [done|]. by left. }
  specialize (Hcur Hi).
  assert (Hcur' : ∀ i' j',
    (if n <=? j + 1 then (i + 1, i + 1 + 1) else (i, j + 1)) = (i', j') →
    i' < n - 1 → i' < j' < n).
  { intros i' j'. destruct (Nat.leb_spec n (j + 1)); intros [= <- <-]; lia. }
  pose proof HN0 as (HNs & HNc & HNl).
  destruct (check_valid_swap po N0 i j) eqn:Hvalid.
  - destruct (evf ctx (pmSwap N0 i j)) as [[err s] ctx'] eqn:He.
    destruct (Z.eqb_spec err 0) as [->|Herr]; cbn [negb].
    + rewrite pmSwap_twice by lia.
      destruct (bs <? s)%Z;
        destruct (if n <=? j + 1 then _ else _) as [i' j'] eqn:Hij;
        intros Hscan; apply IH in Hscan; try done; cbn; eauto.
      rewrite (pmCopy_filled n).
      * right. exists i, j. done.
      * by apply pmSwap_filled.
      * by apply (one_swap_of_filled po n N0 _ HN0 Hbest).
      * by apply (one_swap_of_filled po n N0 _ HN0 Hbest).
    + intros [= <-]. cbn. split; [done|]. split; [done|]. right. done.
  - destruct (if n <=? j + 1 then _ else _) as [i' j'] eqn:Hij.
    intros Hscan. apply IH in Hscan; try done. eauto.
Qed.

(** The same scan with an oracle that scores by [f]: it never stops
    early, and the score it keeps is that of [best_seq], which no
    candidate visited so far beats. *)
Lemma hc_scan_scores (f : permutation_t → Z) (n : nat)
    (N0 : permutation_t) (fuel : nat) :
  pm_filled n N0 →
  ∀ hc (ctx : C) i j bs sc,
    hc_n hc = n → hc_next_seq hc = N0 →
    pm_filled n (hc_best_seq hc) →
    (i < n - 1 → i < j < n) →
    bs = f (hc_best_seq hc) → (f N0 ≤ bs)%Z →
    (∀ a b, a < b < n → a < i ∨ (a = i ∧ b < j) →
            check_valid_swap po N0 a b = true →
            (f (pmSwap N0 a b) ≤ bs)%Z) →
    hc_scan po (score_oracle f) fuel hc ctx i j bs = Done sc →
    sc_err sc = 0%Z ∧ sc_ctx sc = ctx
    ∧ (f N0 ≤ f (hc_best_seq (sc_hc sc)))%Z
    ∧ ∀ a b, a < b < n → check_valid_swap po N0 a b = true →
             (f (pmSwap N0 a b) ≤ f (hc_best_seq (sc_hc sc)))%Z.
Proof.
  intros HN0. induction fuel as [|fuel IH];
    intros hc ctx i j bs sc Hn Hnext Hbest Hcur Hbs Hstart Hseen; [done|].
  cbn [hc_scan]. cbv zeta. rewrite Hn, Hnext.
  destruct (Nat.ltb_spec i (n - 1)) as [Hi|Hi]; last first.
  { intros [= <-]. simpl. split; [done|]. split; [done|]. rewrite <- Hbs.
    split; [done|]. intros a b Hab. apply Hseen; [done|]. lia. }
  specialize (Hcur Hi).
  assert (Hcur' : ∀ i' j',
    (if n <=? j + 1 then (i + 1, i + 1 + 1) else (i, j + 1)) = (i', j') →
    (i' < n - 1 → i' < j' < n)
    ∧ ∀ a b, a < b < n → a < i' ∨ (a = i' ∧ b < j') →
             (a < i ∨ (a = i ∧ b < j)) ∨ (a = i ∧ b = j)).
  { intros i' j'. destruct (Nat.leb_spec n (j + 1)); intros [= <- <-];
      (split; [lia|]); intros a b Hab Hor; lia. }
  pose proof HN0 as (HNs & HNc & HNl).
  pose proof Hbest as (HBs & HBc & HBl).
  destruct (check_valid_swap po N0 i j) eqn:Hvalid.
  - unfold score_oracle at 1. cbn [Z.eqb negb].
    rewrite pmSwap_twice by lia.
    destruct (Z.ltb_spec bs (f (pmSwap N0 i j))) as [Hlt|Hge];
      destruct (if n <=? j + 1 then _ else _) as [i' j'] eqn:Hij;
      destruct (Hcur' i' j' eq_refl) as [Hc' Hpairs];
      intros Hscan; apply IH in Hscan; try done; cbn;
      try (rewrite (pmCopy_filled n); [|by apply pmSwap_filled|done..]);
      first [ done | by apply pmSwap_filled | lia
            | intros a b Hab Hor Hv;
              destruct (Hpairs a b Hab Hor) as [Hold|[-> ->]];
              [specialize (Hseen a b Hab Hold Hv); lia|lia] ].
  - destruct (if n <=? j + 1 then _ else _) as [i' j'] eqn:Hij.
    destruct (Hcur' i' j' eq_refl) as [Hc' Hpairs].
    intros Hscan. apply IH in Hscan; try done.
    intros a b Hab Hor Hv.
    destruct (Hpairs a b Hab Hor) as [Hold|[-> ->]]; [|congruence].
    by apply Hseen.
Qed.

(** One step, for any oracle. *)
Lemma hill_climb_step_moves (evf : evaluation_func_t C)
    (hc hc' : hc_state_t) (ctx ctx' : C) (e : Z) :
  hc_full hc →
  hill_climb_step po evf hc ctx = Done (e, hc', ctx') →
  hc_full hc' ∧ hc_n hc' = hc_n hc
  ∧ one_swap_of po (hc_n hc) (hc_best_seq hc) (hc_best_seq hc').
Proof.
  intros (Hbest & Hnc & Hnl & Hcur). unfold hill_climb_step.
  destruct (evf ctx (hc_best_seq hc)) as [[err0 bs] ctx1].
  assert (Hcopy : pmCopy (hc_next_seq hc) (hc_best_seq hc) = hc_best_seq hc)
    by (by apply (pmCopy_filled (hc_n hc))).
  rewrite Hcopy.
  destruct (Z.eqb_spec err0 0) as [->|Herr0]; cbn [negb]; last first.
  { cbn [hc_passes]. replace (RC_ERR_NODATA =? 0)%Z with false by done.
    cbn. intros [= <- <- <-]. unfold hc_full. cbn.
    split; [|split; [done|by left]].
    destruct Hbest as (? & ? & ?). done. }
  cbn [hc_passes]. cbn [Z.eqb andb].
  destruct (hc_improved hc) eqn:Himp; last first.
  { cbn. rewrite Himp. cbn. intros [= <- <- <-].
    split; [done|]. split; [done|]. by left. }
  cbn [hc_n hc_i hc_j hc_improved hc_best_seq hc_next_seq].
  rewrite Hcopy.
  destruct (hc_scan po evf _ _ _ _ _ _) as [sc| |] eqn:Hscan; [|done..].
  cbn [mbind outcome_bind].
  apply (hc_scan_moves evf (hc_n hc) (hc_best_seq hc) _ Hbest) in Hscan
    as (Hn' & Hone & Hcases); [|done|done|by left|done].
  pose proof (one_swap_of_filled _ _ _ _ Hbest Hone) as Hfilled.
  destruct Hcases as [(He & Hnext)|(He & Hij & Hnext)].
  - rewrite He. cbn. intros [= <- <- <-]. unfold hc_full. cbn.
    rewrite Hn', Hnext. split; [|done].
    destruct Hbest as (? & ? & ?). split; [done|]. split; [done|].
    split; [done|]. lia.
  - apply Z.eqb_neq in He as He'. rewrite He'. cbn. rewrite He'. cbn.
    intros [= <- <- <-]. unfold hc_full. cbn. rewrite Hn', Hnext.
    split; [|done].
    destruct (pmSwap_filled (hc_n hc) (hc_best_seq hc) (sc_i sc) (sc_j sc))
      as (? & ? & ?); [done|].
    split; [done|]. split; [done|]. split; [done|]. lia.
Qed.

End hill_climb_moves.

Lemma hill_climb_init_full (start : permutation_t) :
  pm_filled (pmLength start) start →
  hc_full (hill_climb_init start)
  ∧ hill_climb_init start
    = HC (pmLength start) 0 1 true start (pmNew (pmLength start)).
Proof.
  intros (Hs & Hc & Hl). unfold hill_climb_init.
  rewrite (pmDup_full start (pmLength start)) by done.
  split; [|done]. unfold hc_full. cbn.
  split; [done|]. split; [done|]. rewrite length_replicate.
  split; [done|]. lia.
Qed.

(** X22.  Whatever the oracle answers, one step of the hill climber
    moves the current best by at most one accepted swap: afterwards
    [best_seq] is the old one, or the old one with a single pair [a < b]
    exchanged that [check_valid_swap] accepts on the old one.  Candidates
    are always swaps of the arrangement the pass started from, never of an
    improvement found during the pass.  The state stays well-formed. *)
Theorem hill_climb_step_one_swap {C : Type} (po : partial_order_t)
    (evf : evaluation_func_t C) (hc hc' : hc_state_t) (ctx ctx' : C) (e : Z) :
  hc_full hc →
  hill_climb_step po evf hc ctx = Done (e, hc', ctx') →
  hc_full hc' ∧ hc_n hc' = hc_n hc
  ∧ (hill_climb_result hc' = hill_climb_result hc
     ∨ ∃ a b, a < b < hc_n hc
              ∧ check_valid_swap po (hill_climb_result hc) a b = true
              ∧ hill_climb_result hc'
                = pmSwap (hill_climb_result hc) a b).
Proof. apply hill_climb_step_moves. Qed.

Lemma hill_climb_step_one_swap_witness :
  ∃ hc',
    hill_climb_step (poNew 4) weighted_oracle
      (hill_climb_init (identity_perm 4)) tt = Done (RC_ERR_COMPLETE, hc', tt)
    ∧ hc_full hc' ∧ hc_n hc' = 4
    ∧ (hill_climb_result hc' = identity_perm 4
       ∨ ∃ a b, a < b < 4
                ∧ check_valid_swap (poNew 4) (identity_perm 4) a b = true
                ∧ hill_climb_result hc' = pmSwap (identity_perm 4) a b).
Proof.
  eexists. split; [vm_compute; reflexivity|].
  apply (hill_climb_step_one_swap (poNew 4) weighted_oracle
           (hill_climb_init (identity_perm 4)) _ tt tt RC_ERR_COMPLETE).
  - apply hill_climb_init_full. vm_compute. done.
  - vm_compute. reflexivity.
Defined.

(** X23.  With an oracle that always answers, scoring by [f], the first
    step on a full permutation whose elements are within the order's
    dimension is one pass of steepest ascent over the accepted swaps: it returns COMPLETE, [best_seq] is the start or one
    accepted swap of it, and its score is at least that of the start and
    of every accepted swap of the start.  The search then stands still: a
    further step returns COMPLETE without changing the state, whether or
    not the new best has improving neighbours. *)
Theorem hill_climb_first_step_best_neighbour {C : Type}
    (po : partial_order_t) (f : permutation_t → Z) (start : permutation_t)
    (ctx : C) :
  pm_filled (pmLength start) start →
  (∀ m, m < pmLength start → pmElt start m < dim po) →
  ∃ hc',
    hill_climb_step po (score_oracle f) (hill_climb_init start) ctx
    = Done (RC_ERR_COMPLETE, hc', ctx)
    ∧ one_swap_of po (pmLength start) start (hill_climb_result hc')
    ∧ (f start ≤ f (hill_climb_result hc'))%Z
    ∧ (∀ a b, a < b < pmLength start →
              check_valid_swap po start a b = true →
              (f (pmSwap start a b) ≤ f (hill_climb_result hc'))%Z)
    ∧ hill_climb_step po (score_oracle f) hc' ctx
      = Done (RC_ERR_COMPLETE, hc', ctx).
Proof.
  intros Hstart _. destruct (hill_climb_init_full start Hstart) as [_ ->].
  set (n := pmLength start) in *.
  unfold hill_climb_step at 1. unfold score_oracle at 1.
  cbn [negb Z.eqb hc_passes andb hc_improved hc_best_seq hc_next_seq
       hc_n hc_i hc_j].
  assert (Hcopy : pmCopy (pmNew n) start = start).
  { apply (pmCopy_filled n); [done|done|]. simpl. by rewrite length_replicate. }
  rewrite Hcopy.
  destruct (hc_scan_done po (score_oracle f) (hc_scan_bound n 0 1)
              (HC n 0 1 true start start) ctx 0 1 (f start))
    as (sc & Hscan & _); [done|].
  rewrite Hscan. cbn [mbind outcome_bind].
  pose proof Hscan as Hscan'.
  apply (hc_scan_moves po (score_oracle f) n start _ Hstart) in Hscan
    as (Hn' & Hone & Hcases); [|done|done|by left|cbn; lia].
  apply (hc_scan_scores po f n start _ Hstart) in Hscan'
    as (He & Hctx & Hge & Hall);
    [|done|done|done|cbn; lia|done|cbn; lia|intros; lia].
  rewrite He, Hctx. cbn.
  eexists. split; [reflexivity|]. cbn.
  split; [done|]. split; [done|]. split; [done|].
  unfold hill_climb_step, score_oracle. cbn. done.
Qed.

Lemma hill_climb_first_step_best_neighbour_witness :
  ∃ hc',
    hill_climb_step (poNew 4) (score_oracle weighted_score)
      (hill_climb_init (identity_perm 4)) tt
    = Done (RC_ERR_COMPLETE, hc', tt)
    ∧ one_swap_of (poNew 4) 4 (identity_perm 4) (hill_climb_result hc')
    ∧ (weighted_score (identity_perm 4)
       ≤ weighted_score (hill_climb_result hc'))%Z
    ∧ (∀ a b, a < b < 4 →
              check_valid_swap (poNew 4) (identity_perm 4) a b = true →
              (weighted_score (pmSwap (identity_perm 4) a b)
               ≤ weighted_score (hill_climb_result hc'))%Z)
    ∧ hill_climb_step (poNew 4) (score_oracle weighted_score) hc' tt
      = Done (RC_ERR_COMPLETE, hc', tt).
Proof.
  apply (hill_climb_first_step_best_neighbour (poNew 4) weighted_score
           (identity_perm 4) tt).
  - vm_compute. done.
  - intros m Hm. change (pmLength (identity_perm 4)) with 4 in Hm.
    change (dim (poNew 4)) with 4.
    do 4 (destruct m as [|m]; [vm_compute; lia|]). lia.
Defined.

(** X24.  Hill climbing never leaves the valid orderings: on an order
    with the mirror invariant that covers the [n] elements, if [best_seq]
    is a permutation of [0 .. n-1] in which no position is GT a later one,
    it still is one after a step, whatever the oracle answers. *)
Theorem hill_climb_step_keeps_valid {C : Type} (po : partial_order_t)
    (evf : evaluation_func_t C) (hc hc' : hc_state_t) (ctx ctx' : C) (e : Z) :
  po_mirror po → hc_n hc ≤ dim po →
  hc_full hc →
  perm_full (hc_n hc) (hill_climb_result hc) →
  precedence_valid po (hill_climb_result hc) (hc_n hc) →
  hill_climb_step po evf hc ctx = Done (e, hc', ctx') →
  perm_full (hc_n hc') (hill_climb_result hc')
  ∧ precedence_valid po (hill_climb_result hc') (hc_n hc').
Proof.
  intros Hm Hdim Hfull Hperm Hvalid Hstep. unfold hill_climb_result in *.
  destruct (hill_climb_step_moves po evf hc hc' ctx ctx' e Hfull Hstep)
    as (_ & -> & [->|(a & b & Hab & Hcheck & ->)]); [done|].
  pose proof (perm_full_length _ _ Hperm) as Hlen. split.
  - apply pmSwap_perm_full; [done|lia|lia].
  - apply check_valid_swap_keeps_valid; try done; try lia.
    intros m Hmn.
    assert (pmElt (hc_best_seq hc) m < hc_n hc); [|lia].
    apply (perm_full_range _ (hc_best_seq hc)); [done|].
    apply list_elem_of_lookup_total_2. lia.
Qed.

Lemma hill_climb_step_keeps_valid_witness :
  ∃ hc',
    hill_climb_step po_swap3 weighted_oracle
      (hill_climb_init (Perm 3 3 [0; 2; 1])) tt = Done (RC_ERR_COMPLETE, hc', tt)
    ∧ pm_elements (hill_climb_result hc') = [2; 0; 1]
    ∧ perm_full (hc_n hc') (hill_climb_result hc')
    ∧ precedence_valid po_swap3 (hill_climb_result hc') (hc_n hc').
Proof.
  eexists. split; [vm_compute; reflexivity|]. split; [reflexivity|].
  apply (hill_climb_step_keeps_valid po_swap3 weighted_oracle
           (hill_climb_init (Perm 3 3 [0; 2; 1])) _ tt tt RC_ERR_COMPLETE).
  - intros a b Ha Hb. change (dim po_swap3) with 3 in *.
    do 3 (destruct a as [|a];
          [do 3 (destruct b as [|b]; [reflexivity|]); lia|]); lia.
  - vm_compute. lia.
  - apply hill_climb_init_full. vm_compute. done.
  - split; [reflexivity|]. vm_compute.
    apply (Permutation_skip 0), Permutation_swap.
  - intros i j Hij. change (hc_n _) with 3 in Hij.
    do 3 (destruct i as [|i];
          [do 3 (destruct j as [|j]; [first [lia|by vm_compute]|]); lia|]); lia.
  - vm_compute. reflexivity.
Defined.

(** ** Best-first search: the result and the end of a run *)

Section best_first_phases.
Context {C : Type}.

(** The INIT loop does not touch [best_seq]; it ends in the VISIT phase
    with its cursor at [n], or stops with NODATA in the phase it was in. *)
Lemma bf_init_loop_keeps (fuel : nat) :
  ∀ (bf bf' : bf_state_t C) e,
    bf_init_loop fuel bf = Done (e, bf') →
    bf_best_seq bf' = bf_best_seq bf ∧ bf_n bf' = bf_n bf
    ∧ ((e = RC_ERR_NODATA ∧ bf_state bf' = bf_state bf)
       ∨ (e = RC_ERR_NONE ∧ bf_state bf' = RC_BFS_VISIT
          ∧ bf_n bf ≤ bf_i bf')).
Proof.
  induction fuel as [|fuel IH]; intros bf bf' e; [done|].
  cbn [bf_init_loop]. cbv zeta.
  destruct (Nat.ltb_spec (bf_i bf) (bf_n bf)) as [Hi|Hi]; last first.
  { intros [= <- <-]. cbn. split; [done|]. split; [done|]. right. done. }
  destruct (poIsMin _ _).
  - destruct (bf_evfunc bf _ _) as [[err sc] ctx].
    destruct (negb (err =? 0)%Z).
    + destruct (make_valid_perm _ _ _); cbn; [|done..].
      intros [= <- <-]. cbn. split; [done|]. split; [done|]. by left.
    + destruct (heap_insert _ _ _); cbn; [|done..].
      intros H%IH. exact H.
  - intros H%IH. exact H.
Qed.

(** The EXPAND loop does not touch [best_seq] or the INIT cursor. *)
Lemma bf_expand_loop_keeps (fuel : nat) :
  ∀ (bf bf' : bf_state_t C) e,
    bf_expand_loop fuel bf = Done (e, bf') →
    bf_best_seq bf' = bf_best_seq bf ∧ bf_n bf' = bf_n bf
    ∧ bf_i bf' = bf_i bf
    ∧ ((e = RC_ERR_NODATA ∧ bf_state bf' = bf_state bf)
       ∨ (e = RC_ERR_NONE ∧ bf_state bf' = RC_BFS_VISIT)).
Proof.
  induction fuel as [|fuel IH]; intros bf bf' e; [done|].
  cbn [bf_expand_loop]. cbv zeta.
  destruct (Nat.ltb_spec (bf_j bf) (bf_n bf)) as [Hj|Hj]; last first.
  { intros [= <- <-]. cbn. split; [done|]. split; [done|]. split; [done|].
    right. done. }
  destruct (is_valid_partial_perm _ _ _).
  - destruct (bf_evfunc bf _ _) as [[err sc] ctx].
    destruct (negb (err =? 0)%Z).
    + destruct (make_valid_perm _ _ _); cbn; [|done..].
      intros [= <- <-]. cbn. split; [done|]. split; [done|].
      split; [done|]. by left.
    + destruct (heap_insert _ _ _); cbn; [|done..].
      intros H%IH. exact H.
  - intros H%IH. exact H.
Qed.

(** The DONE loop empties the queue. *)
Lemma bf_drain_loop_empties (fuel : nat) :
  ∀ pq : heap_t permutation_t,
    heap_size pq < fuel →
    ∃ pq', bf_drain_loop fuel pq = Done pq' ∧ heap_size pq' = 0
           ∧ h_capacity pq' = h_capacity pq.
Proof.
  induction fuel as [|fuel IH]; intros pq Hfuel; [lia|].
  cbn [bf_drain_loop].
  destruct (Nat.eqb_spec (heap_size pq) 0) as [Hz|Hnz]; cbn [negb].
  { by exists pq. }
  unfold heap_extract_max. unfold heap_size in *.
  destruct (Nat.ltb_spec 0 (h_size pq)); [|lia]. cbn [mbind outcome_bind snd].
  unfold heapify.
  destruct (heapify_loop_shape (h_size pq - 1)
    (Heap (h_size pq - 1) (h_capacity pq)
          (<[1 := h_data pq !!! h_size pq]> (h_data pq))) 1) as (Hs & Hc & _).
  cbn [h_size h_capacity] in *.
  destruct (IH (heapify_loop (h_size pq - 1)
    (Heap (h_size pq - 1) (h_capacity pq)
          (<[1 := h_data pq !!! h_size pq]> (h_data pq))) 1))
    as (pq' & Hdrain & Hz' & Hc'); [rewrite Hs; lia|].
  exists pq'. split; [exact Hdrain|]. split; [done|]. congruence.
Qed.

(** Which phase gives which status. *)
Lemma best_first_step_phases (bf bf' : bf_state_t C) (e : Z) :
  best_first_step bf = Done (e, bf') →
  (e = RC_ERR_COMPLETE →
   bf_state bf = RC_BFS_VISIT ∧ pmLength (bf_best_seq bf') = bf_n bf)
  ∧ (e = RC_ERR_NODATA →
     (bf_state bf = RC_BFS_INIT ∨ bf_state bf = RC_BFS_EXPAND)
     ∧ bf_state bf' = bf_state bf)
  ∧ (bf_state bf = RC_BFS_DONE →
     e = RC_ERR_NONE ∧ bf_state bf' = RC_BFS_INIT
     ∧ heap_size (bf_pq bf') = 0)
  ∧ (bf_state bf ≠ RC_BFS_VISIT → bf_best_seq bf' = bf_best_seq bf).
Proof.
  unfold best_first_step. destruct (bf_state bf) eqn:Hst.
  - intros (Hb & _ & [[-> Hs]|(-> & Hs & _)])%bf_init_loop_keeps;
      repeat first [progress intros | split]; try done; try congruence;
      by left.
  - unfold bf_visit. destruct (Nat.eqb_spec (heap_size (bf_pq bf)) 0).
    + destruct (Nat.eqb_spec (pmLength (bf_best_seq bf)) (bf_n bf)); [|done].
      intros [= <- <-].
      repeat first [progress intros | split]; done.
    + destruct (heap_extract_max _) as [[top pq]| |]; cbn; [|done..].
      destruct (_ =? bf_n bf) eqn:Heq; intros [= <- <-];
        repeat first [progress intros | split]; try done.
      cbn. by apply Nat.eqb_eq.
  - intros (Hb & _ & _ & [[-> Hs]|(-> & Hs)])%bf_expand_loop_keeps;
      repeat first [progress intros | split]; try done; try congruence;
      by right.
  - destruct (bf_drain_loop_empties (heap_size (bf_pq bf) + 1) (bf_pq bf))
      as (pq' & -> & Hz & _); [lia|].
    cbn. intros [= <- <-].
    repeat first [progress intros | split]; done.
Qed.

End best_first_phases.

Section best_first_result.
Context {C : Type}.
Variable n : nat.
Variable po : partial_order_t.
Hypothesis Hdim : n ≤ dim po.

Lemma best_first_init_result_ok (evf : evaluation_func_t C) (c : C) :
  bf_result_ok n po (best_first_init n po evf c).
Proof.
  split; [|split]; cbn; [|done|done].
  intros <-. split; [by split|]. intros i j Hij. lia.
Qed.

Lemma best_first_step_result_ok (bf bf' : bf_state_t C) (e : Z) :
  bf_inv n po bf → bf_result_ok n po bf →
  best_first_step bf = Done (e, bf') →
  bf_result_ok n po bf'.
Proof.
  intros Hinv (Hres & Hcur & Hdone) Hstep.
  destruct (best_first_step_phases bf bf' e Hstep) as (Hc & Hnd & Hd & Hkeep).
  pose proof Hinv as [Hn Hpo Hwf Hcap Hall [Hbc Hbl] [Hnc Hnl] Hexp].
  unfold best_first_step in Hstep. destruct (bf_state bf) eqn:Hst.
  - apply bf_init_loop_keeps in Hstep as (Hb & _ & Hcase).
    unfold bf_result_ok. rewrite Hb. split; [done|].
    destruct Hcase as [[-> Hs]|(-> & Hs & Hi)]; rewrite Hs, ?Hst.
    + done.
    + split; [intros _; lia|done].
  - clear Hkeep. unfold bf_visit in Hstep.
    destruct (heap_size (bf_pq bf) =? 0).
    { destruct (_ =? _); [|done]. injection Hstep as <- <-.
      split; [done|]. split; [by rewrite Hst|]. by rewrite Hst. }
    destruct (heap_extract_max (bf_pq bf)) as [[top pq']| |] eqn:Hex;
      cbn in Hstep; [|done..].
    apply (heap_extract_max_inv (queued_ok n po)) in Hex
      as ((Hfull & Hsz & Hvalid) & _); [|done..].
    pose proof (perm_full_length _ _ Hfull) as Htlen.
    rewrite (pmCopyAll_full (bf_best_seq bf) top n) in Hstep
      by (done || apply Hfull).
    unfold pmLength, pmSize in *. cbn in Hstep. rewrite Hn in Hstep.
    assert (Hi : n ≤ bf_i bf) by (by apply Hcur).
    destruct (Nat.eqb_spec (pm_size top) n) as [Heq|Hne];
      injection Hstep as <- <-; cbn.
    + split; [|done]. intros _. split.
      * split; [done|]. apply Hfull.
      * intros i j Hij. apply Hvalid; [|done]. unfold pmLength. lia.
    + split; [done|]. split; [done|]. done.
  - apply bf_expand_loop_keeps in Hstep as (Hb & _ & Hi & Hcase).
    unfold bf_result_ok. rewrite Hb, Hi. split; [done|].
    assert (n ≤ bf_i bf) by (by apply Hcur).
    destruct Hcase as [[-> Hs]|(-> & Hs)]; rewrite Hs, ?Hst; done.
  - destruct Hd as (_ & Hs & _); [done|].
    unfold bf_result_ok. rewrite Hkeep, Hs by done. done.
Qed.

Lemma bf_reach_result_ok (evf : evaluation_func_t C) (bf : bf_state_t C) :
  bf_reach n po evf bf → bf_result_ok n po bf.
Proof.
  induction 1 as [c|bf bf' e Hreach IH Hstep|bf c _ IH].
  - apply best_first_init_result_ok.
  - apply (best_first_step_result_ok bf bf' e); [|done..].
    by apply (bf_reach_inv n po Hdim evf).
  - exact IH.
Qed.

Lemma bf_steps_S (k : nat) (bf : bf_state_t C) :
  bf_steps (S k) bf = (r ← best_first_step bf; bf_steps k r.2).
Proof. reflexivity. Qed.

(** Once the run is complete it stays so. *)
Lemma best_first_complete_again (bf : bf_state_t C) :
  bf_inv n po bf → bf_result_ok n po bf →
  (bf_state bf = RC_BFS_DONE
   ∨ (bf_state bf = RC_BFS_VISIT ∧ heap_size (bf_pq bf) = 0
      ∧ pmLength (bf_best_seq bf) = n)) →
  ∃ k bf2, k ≤ 2 ∧ bf_steps k bf = Done bf2
           ∧ bf_best_seq bf2 = bf_best_seq bf
           ∧ heap_size (bf_pq bf2) = 0
           ∧ best_first_step bf2 = Done (RC_ERR_COMPLETE, bf2).
Proof.
  intros Hinv (Hres & Hcur & Hdone) [Hst|(Hst & Hz & Hlen)].
  - destruct (bf_drain_loop_empties (heap_size (bf_pq bf) + 1) (bf_pq bf))
      as (pq' & Hdrain & Hz & _); [lia|].
    assert (Hi : n ≤ bf_i bf) by (apply Hcur; by rewrite Hst).
    assert (Hn : bf_n bf = n) by apply Hinv.
    specialize (Hdone Hst). unfold pmLength in Hdone.
    set (bf1 := BF (bf_n bf) (bf_i bf) (bf_j bf) (bf_improved bf) pq'
                   (bf_po bf) (bf_best_seq bf) (bf_next_seq bf)
                   (bf_evfunc bf) (bf_evcontext bf) RC_BFS_INIT).
    set (bf2 := BF (bf_n bf) (bf_i bf) (bf_j bf) (bf_improved bf) pq'
                   (bf_po bf) (bf_best_seq bf) (bf_next_seq bf)
                   (bf_evfunc bf) (bf_evcontext bf) RC_BFS_VISIT).
    assert (H1 : best_first_step bf = Done (RC_ERR_NONE, bf1)).
    { unfold best_first_step. by rewrite Hst, Hdrain. }
    assert (H2 : best_first_step bf1 = Done (RC_ERR_NONE, bf2)).
    { unfold best_first_step, bf1. cbn [bf_state bf_n bf_i].
      replace (bf_n bf - bf_i bf + 1) with 1 by lia.
      cbn [bf_init_loop]. cbv zeta. cbn [bf_n bf_i].
      destruct (Nat.ltb_spec (bf_i bf) (bf_n bf)) as [?|_]; [lia|]. done. }
    exists 2, bf2. split; [done|]. split.
    { rewrite (bf_steps_S 1), H1. cbn [mbind outcome_bind snd].
      rewrite (bf_steps_S 0), H2. done. }
    split; [done|]. split; [done|].
    unfold best_first_step, bf_visit, bf2, pmLength.
    cbn [bf_state bf_pq bf_best_seq bf_n].
    rewrite Hz, Hdone, Hn, !Nat.eqb_refl. done.
  - exists 0, bf. split; [lia|]. split; [done|]. split; [done|].
    split; [done|]. unfold best_first_step, bf_visit. rewrite Hst, Hz. cbn.
    assert (Hn : bf_n bf = n) by apply Hinv.
    rewrite Hlen, Hn, Nat.eqb_refl. done.
Qed.

End best_first_result.

(** X25.  The answer of the best-first search is a valid ordering: when a
    step of a run over [n] elements returns COMPLETE, [best_seq] has
    length [n], holds each of [0 .. n-1] once, and no position is GT a
    later one.  Nothing is assumed of the order beyond its covering the
    elements. *)
Theorem best_first_complete_result_valid {C : Type} (n : nat)
    (po : partial_order_t) (evf : evaluation_func_t C)
    (bf bf' : bf_state_t C) :
  n ≤ dim po →
  bf_reach n po evf bf →
  best_first_step bf = Done (RC_ERR_COMPLETE, bf') →
  pmLength (best_first_result bf') = n
  ∧ pm_elements (best_first_result bf') ≡ₚ seq 0 n
  ∧ precedence_valid po (best_first_result bf') n.
Proof.
  intros Hdim Hreach Hstep. unfold best_first_result.
  destruct (best_first_step_phases bf bf' _ Hstep) as ((_ & Hlen) & _);
    [done|].
  assert (Hn : bf_n bf = n) by apply (bf_reach_inv n po Hdim evf bf Hreach).
  rewrite Hn in Hlen.
  destruct (bf_reach_result_ok n po Hdim evf bf') as (Hres & _).
  { by eapply bf_reach_step. }
  destruct (Hres Hlen) as [[_ Hperm] Hvalid]. done.
Qed.

Lemma best_first_complete_result_valid_witness :
  ∃ bf bf',
    bf_steps 9 (best_first_init 3 po_swap3 flat_oracle tt) = Done bf
    ∧ best_first_step bf = Done (RC_ERR_COMPLETE, bf')
    ∧ pmLength (best_first_result bf') = 3
    ∧ pm_elements (best_first_result bf') ≡ₚ seq 0 3
    ∧ precedence_valid po_swap3 (best_first_result bf') 3.
Proof.
  eexists. eexists. split; [vm_compute; reflexivity|].
  split; [vm_compute; reflexivity|].
  eapply (best_first_complete_result_valid 3 po_swap3 flat_oracle).
  - simpl. lia.
  - apply (bf_steps_reach 3 po_swap3 flat_oracle 9
             (best_first_init 3 po_swap3 flat_oracle tt));
      [apply bf_reach_init|vm_compute; reflexivity].
  - vm_compute. reflexivity.
Defined.

(** X26.  A finished search stays finished.  After a step of a run has
    returned COMPLETE, at most two more steps (the drain of the queue and
    an INIT phase that finds its cursor already at [n]) lead to a state
    with an empty queue and the same [best_seq] in which every step
    returns COMPLETE and changes nothing: stepping on does not start the
    search again. *)
Theorem best_first_completion_is_final {C : Type} (n : nat)
    (po : partial_order_t) (evf : evaluation_func_t C)
    (bf0 bf : bf_state_t C) :
  n ≤ dim po →
  bf_reach n po evf bf0 →
  best_first_step bf0 = Done (RC_ERR_COMPLETE, bf) →
  ∃ k bf2, k ≤ 2 ∧ bf_steps k bf = Done bf2
           ∧ best_first_result bf2 = best_first_result bf
           ∧ heap_size (bf_pq bf2) = 0
           ∧ best_first_step bf2 = Done (RC_ERR_COMPLETE, bf2).
Proof.
  intros Hdim Hreach Hstep.
  assert (Hreach' : bf_reach n po evf bf) by (by eapply bf_reach_step).
  apply (best_first_complete_again n po Hdim).
  - by apply (bf_reach_inv n po Hdim evf).
  - by apply (bf_reach_result_ok n po Hdim evf).
  - assert (Hn : bf_n bf0 = n) by apply (bf_reach_inv n po Hdim evf bf0 Hreach).
    unfold best_first_step in Hstep. destruct (bf_state bf0) eqn:Hst.
    + by apply bf_init_loop_status in Hstep as [?|?].
    + unfold bf_visit in Hstep.
      destruct (Nat.eqb_spec (heap_size (bf_pq bf0)) 0) as [Hz|Hnz].
      * destruct (Nat.eqb_spec (pmLength (bf_best_seq bf0)) (bf_n bf0));
          [|done].
        injection Hstep as <-. right. split; [done|]. split; [done|].
        congruence.
      * destruct (heap_extract_max _) as [[top pq]| |]; cbn in Hstep;
          [|done..].
        destruct (_ =? _); [|done]. injection Hstep as <-. by left.
    + by apply bf_expand_loop_status in Hstep as [?|?].
    + destruct (bf_drain_loop _ _); cbn in Hstep; done.
Qed.

Lemma best_first_completion_is_final_witness :
  ∃ bf0 bf,
    bf_steps 9 (best_first_init 3 po_swap3 flat_oracle tt) = Done bf0
    ∧ best_first_step bf0 = Done (RC_ERR_COMPLETE, bf)
    ∧ ∃ k bf2, k ≤ 2 ∧ bf_steps k bf = Done bf2
               ∧ best_first_result bf2 = best_first_result bf
               ∧ heap_size (bf_pq bf2) = 0
               ∧ best_first_step bf2 = Done (RC_ERR_COMPLETE, bf2).
Proof.
  eexists. eexists. split; [vm_compute; reflexivity|].
  split; [vm_compute; reflexivity|].
  eapply (best_first_completion_is_final 3 po_swap3 flat_oracle).
  - simpl. lia.
  - apply (bf_steps_reach 3 po_swap3 flat_oracle 9
             (best_first_init 3 po_swap3 flat_oracle tt));
      [apply bf_reach_init|vm_compute; reflexivity].
  - vm_compute. reflexivity.
Defined.

(** X27.  Which phase gives which status.  COMPLETE comes from the VISIT
    phase only, and [best_seq] then has length [n]; NODATA comes from the
    INIT and EXPAND phases only and leaves the phase as it was, so the
    next step resumes the same loop; the DONE phase always returns NONE,
    empties the queue and goes back to INIT; and [best_seq] changes in no
    phase but VISIT. *)
Theorem best_first_status_by_phase {C : Type} (bf bf' : bf_state_t C)
    (e : Z) :
  best_first_step bf = Done (e, bf') →
  (e = RC_ERR_COMPLETE →
   bf_state bf = RC_BFS_VISIT ∧ pmLength (best_first_result bf') = bf_n bf)
  ∧ (e = RC_ERR_NODATA →
     (bf_state bf = RC_BFS_INIT ∨ bf_state bf = RC_BFS_EXPAND)
     ∧ bf_state bf' = bf_state bf)
  ∧ (bf_state bf = RC_BFS_DONE →
     e = RC_ERR_NONE ∧ bf_state bf' = RC_BFS_INIT
     ∧ heap_size (bf_pq bf') = 0)
  ∧ (bf_state bf ≠ RC_BFS_VISIT →
     best_first_result bf' = best_first_result bf).
Proof. apply best_first_step_phases. Qed.

Lemma best_first_status_by_phase_witness :
  ∃ bf',
    best_first_step (best_first_init 3 po_swap3 (failing_oracle 7) tt)
    = Done (RC_ERR_NODATA, bf')
    ∧ bf_state bf' = RC_BFS_INIT
    ∧ best_first_result bf' = pmNew 3.
Proof.
  eexists. split; [vm_compute; reflexivity|].
  destruct (best_first_status_by_phase
              (best_first_init 3 po_swap3 (failing_oracle 7) tt) _
              RC_ERR_NODATA ltac:(vm_compute; reflexivity))
    as (_ & Hnd & _ & Hkeep).
  split; [by apply Hnd|]. by apply Hkeep.
Defined.

(** ** Best-first search: which assertions can fail *)

Lemma heap_insert_outcome {V : Type} `{!Inhabited V} (heap : heap_t V)
    (k : Z) (v : V) :
  (∃ heap', heap_insert heap k v = Done heap'
            ∧ h_size heap' = h_size heap + 1)
  ∨ heap_insert heap k v = AssertFail HeapOverflow.
Proof.
  destruct (decide (h_size heap < h_capacity heap)) as [Hlt|Hge].
  - left. destruct (heap_insert_done heap k v Hlt) as (h' & ? & ? & ?). eauto.
  - right. by apply heap_insert_full.
Qed.

(** Among finitely many elements a transitive and asymmetric GT leaves
    one that is GT none of them. *)
Lemma gt_minimal_index po n (g : nat → nat) (lo hi : nat) :
  gt_transitive n po → gt_asymmetric n po →
  (∀ m, lo ≤ m < hi → g m < n) → lo < hi →
  ∃ j, lo ≤ j < hi ∧ ∀ m, lo ≤ m < hi → poGet po (g j) (g m) ≠ PO_GT.
Proof.
  intros Htrans Hasym. induction hi as [|hi IH]; intros Hg Hlt; [lia|].
  destruct (decide (lo = hi)) as [->|Hne].
  { exists hi. split; [lia|]. intros m Hm. assert (m = hi) as -> by lia.
    intros Hgt. apply (Hasym (g hi) (g hi)); try done; apply Hg; lia. }
  destruct IH as (j & Hj & Hmin); [intros m Hm; apply Hg; lia|lia|].
  destruct (decide (poGet po (g j) (g hi) = PO_GT)) as [Hgt|Hngt].
  - exists hi. split; [lia|]. intros m Hm Hgt'.
    destruct (decide (m = hi)) as [->|Hmne].
    + apply (Hasym (g hi) (g hi)); try done; apply Hg; lia.
    + apply (Hmin m); [lia|].
      apply (Htrans (g j) (g hi) (g m)); try done; apply Hg; lia.
  - exists j. split; [lia|]. intros m Hm.
    destruct (decide (m = hi)) as [->|Hmne]; [done|]. apply Hmin. lia.
Qed.

(** A valid partial permutation that is not yet full has a valid child. *)
Lemma valid_child_exists po n (best : permutation_t) :
  gt_transitive n po → gt_asymmetric n po →
  perm_full n best → pm_size best < n → valid_partial po best n →
  ∃ j, pm_size best ≤ j < n
       ∧ valid_partial po
           (pmSetSize (pmSwap best (pmSize best) j) (pmSize best + 1)) n.
Proof.
  intros Htrans Hasym Hfull Hsz Hvalid.
  pose proof (perm_full_length _ _ Hfull) as Hlen.
  assert (Hrange : ∀ m, m < n → pm_elements best !!! m < n).
  { intros m Hm. apply (perm_full_range n best); [done|].
    apply list_elem_of_lookup_total_2. lia. }
  destruct (gt_minimal_index po n (fun m => pm_elements best !!! m)
              (pm_size best) n Htrans Hasym) as (j & Hj & Hmin);
    [intros m Hm; apply Hrange; lia|done|].
  exists j. split; [done|]. intros a b Ha Hb. unfold valid_partial in Hvalid.
  unfold pmLength, pmElt, pmSetSize, pmSwap, pmSize in *.
  cbn [pm_size pm_elements] in *.
  rewrite !swap_lookup_total by lia.
  destruct (decide (a = pm_size best)) as [->|Hne].
  - repeat case_decide; subst; apply Hmin; lia.
  - repeat case_decide; subst; try lia; apply Hvalid; lia.
Qed.

Section best_first_progress.
Context {C : Type}.
Variable n : nat.
Variable po : partial_order_t.
Hypothesis Hdim : n ≤ dim po.

(** The INIT loop: the only assertion that can fail is the one of
    [heap_insert], and the loop leaves the search alive. *)
Lemma bf_init_loop_progress (fuel : nat) :
  ∀ bf : bf_state_t C,
    bf_inv n po bf → bf_state bf = RC_BFS_INIT →
    (∀ why, bf_init_loop fuel bf = AssertFail why → why = HeapOverflow)
    ∧ (∀ e bf', bf_init_loop fuel bf = Done (e, bf') →
                bf_live n po bf → bf_live n po bf').
Proof.
  induction fuel as [|fuel IH]; intros bf Hinv Hst; [done|].
  pose proof Hinv as [Hn Hpo Hwf Hcap Hall [Hbc Hbl] [Hnc Hnl] Hexp].
  unfold bf_live at 1. rewrite Hst.
  cbn [bf_init_loop]. cbv zeta. rewrite Hn, Hpo.
  destruct (Nat.ltb_spec (bf_i bf) n) as [Hi|Hi]; last first.
  { split; [done|]. intros e bf' [= <- <-] Hlive. unfold bf_live. cbn.
    destruct Hlive as [?|[?|(u & Hu & _)]]; [by left|by right|lia]. }
  destruct (poIsMin po (bf_i bf)) eqn:Hmin; last first.
  { match goal with
    | |- context [bf_init_loop fuel ?b] =>
        destruct (IH b) as [Hf Hd]; [by split|done|]
    end.
    split; [exact Hf|]. intros e bf' Hdone Hlive. apply (Hd _ _ Hdone).
    unfold bf_live. cbn. rewrite Hst.
    destruct Hlive as [?|[?|(u & Hu & Humin)]]; [by left|by right; left|].
    right. right. exists u. split; [|done].
    destruct (decide (u = bf_i bf)) as [->|?]; [congruence|lia]. }
  change (pmIdentity (pmNew n)) with (identity_perm n).
  pose proof (init_perm_queued_ok n po (bf_i bf) Hdim Hi Hmin) as Hq.
  set (perm := pmSetSize (pmSwap (identity_perm n) 0 (bf_i bf)) 1) in *.
  destruct Hq as (Hfull & Hsz & Hvalid).
  pose proof (perm_full_length _ _ Hfull) as Hplen.
  destruct (bf_evfunc bf (bf_evcontext bf) perm) as [[err sc] ctx].
  destruct (negb (err =? 0)%Z).
  - rewrite (pmCopyAll_full _ perm n) by (done || apply Hfull).
    destruct (make_valid_perm_outcome po
                (Perm (pm_size perm) (pm_capacity (bf_next_seq bf))
                      (pm_elements perm)) n) as ([_ Hex] & _ & _);
      [done|done|].
    destruct Hex as [next1 Hmv]; [exact Hvalid|]. rewrite Hmv. cbn.
    split; [done|]. intros e bf' [= <- <-] Hlive.
    unfold bf_live. cbn. rewrite Hst. exact Hlive.
  - destruct (heap_insert_outcome (bf_pq bf) sc perm)
      as [(pq' & Hins & Hsz')|Hins]; rewrite Hins; cbn; last first.
    { split; [by intros why [= <-]|done]. }
    apply (heap_insert_inv (queued_ok n po)) in Hins
      as (Hlt & Hwf' & Hall' & _ & Hcap'); [|done..].
    match goal with
    | |- context [bf_init_loop fuel ?b] =>
        destruct (IH b) as [Hf Hd];
          [split; cbn; try done; congruence|done|]
    end.
    split; [exact Hf|]. intros e bf' Hdone _. apply (Hd _ _ Hdone).
    unfold bf_live. cbn. rewrite Hst. left. unfold heap_size. lia.
Qed.

(** The EXPAND loop, likewise. *)
Lemma bf_expand_loop_progress (fuel : nat) :
  ∀ bf : bf_state_t C,
    bf_inv n po bf → bf_state bf = RC_BFS_EXPAND →
    (∀ why, bf_expand_loop fuel bf = AssertFail why → why = HeapOverflow)
    ∧ (∀ e bf', bf_expand_loop fuel bf = Done (e, bf') →
                bf_live n po bf → bf_live n po bf').
Proof.
  induction fuel as [|fuel IH]; intros bf Hinv Hst; [done|].
  pose proof Hinv as [Hn Hpo Hwf Hcap Hall [Hbc Hbl] [Hnc Hnl] Hexp].
  destruct (Hexp Hst) as [Hbperm Hbsz].
  unfold bf_live at 1. rewrite Hst.
  cbn [bf_expand_loop]. cbv zeta. rewrite Hn, Hpo.
  destruct (Nat.ltb_spec (bf_j bf) n) as [Hj|Hj]; last first.
  { split; [done|]. intros e bf' [= <- <-] Hlive. unfold bf_live. cbn.
    destruct Hlive as [?|(j & Hjj & _)]; [by left|lia]. }
  rewrite (pmCopyAll_full (bf_next_seq bf) (bf_best_seq bf) n) by done.
  unfold pmSize.
  set (next := pmSetSize (pmSwap (Perm _ _ _) _ _) _).
  assert (Hnfull : perm_full n next).
  { split; [done|]. unfold next. simpl.
    rewrite swap_Permutation by lia. done. }
  pose proof (perm_full_length _ _ Hnfull) as Hnlen.
  assert (Hnsz : pm_size next ≤ n) by (unfold next; simpl; lia).
  assert (Hchild : valid_partial po
            (pmSetSize (pmSwap (bf_best_seq bf) (pm_size (bf_best_seq bf))
                               (bf_j bf))
                       (pm_size (bf_best_seq bf) + 1)) n
          ↔ valid_partial po next n) by done.
  destruct (is_valid_partial_perm po next n) eqn:Hvalid; last first.
  { match goal with
    | |- context [bf_expand_loop fuel ?b] =>
        destruct (IH b) as [Hf Hd]; [by split|done|]
    end.
    split; [exact Hf|]. intros e bf' Hdone Hlive. apply (Hd _ _ Hdone).
    unfold bf_live. cbn. rewrite Hst. unfold pmSize.
    destruct Hlive as [?|(j & Hjj & Hjv)]; [by left|].
    right. exists j. split; [|done].
    destruct (decide (j = bf_j bf)) as [->|?]; [|lia].
    apply Hchild, is_valid_partial_perm_spec in Hjv.
    change (is_valid_partial_perm po next n = true) in Hjv. congruence. }
  apply is_valid_partial_perm_spec in Hvalid.
  destruct (bf_evfunc bf (bf_evcontext bf) next) as [[err sc] ctx].
  destruct (negb (err =? 0)%Z).
  - destruct (make_valid_perm_outcome po next n) as ([_ Hex] & _ & _);
      [done|done|].
    destruct Hex as [next1 Hmv]; [exact Hvalid|]. rewrite Hmv. cbn.
    split; [done|]. intros e bf' [= <- <-] Hlive.
    unfold bf_live. cbn. rewrite Hst. exact Hlive.
  - rewrite (pmDup_full next n) by (done || apply Hnfull).
    destruct (heap_insert_outcome (bf_pq bf) sc next)
      as [(pq' & Hins & Hsz')|Hins]; rewrite Hins; cbn; last first.
    { split; [by intros why [= <-]|done]. }
    apply (heap_insert_inv (queued_ok n po)) in Hins
      as (Hlt & Hwf' & Hall' & _ & Hcap'); [|done..].
    match goal with
    | |- context [bf_expand_loop fuel ?b] =>
        destruct (IH b) as [Hf Hd];
          [split; cbn; try done; congruence|done|]
    end.
    split; [exact Hf|]. intros e bf' Hdone _. apply (Hd _ _ Hdone).
    unfold bf_live. cbn. rewrite Hst. left. unfold heap_size. lia.
Qed.

(** The VISIT phase: the only assertion that can fail is the one that
    wants a full [best_seq] when the queue is empty. *)
Lemma bf_visit_progress (bf : bf_state_t C) :
  bf_inv n po bf → bf_state bf = RC_BFS_VISIT →
  (∀ why, bf_visit bf = AssertFail why →
          why = NoResult ∧ ¬ bf_live n po bf)
  ∧ (gt_transitive n po → gt_asymmetric n po →
     ∀ e bf', bf_visit bf = Done (e, bf') → bf_live n po bf → bf_live n po bf').
Proof.
  intros Hinv Hst.
  pose proof Hinv as [Hn Hpo Hwf Hcap Hall [Hbc Hbl] [Hnc Hnl] Hexp].
  unfold bf_live at 1 2. rewrite Hst. unfold bf_visit. rewrite Hn.
  destruct (Nat.eqb_spec (heap_size (bf_pq bf)) 0) as [Hz|Hnz].
  { destruct (Nat.eqb_spec (pmLength (bf_best_seq bf)) n) as [Hl|Hl].
    - split; [done|]. intros _ _ e bf' [= <- <-] _.
      unfold bf_live. rewrite Hst. by right.
    - split; [|done]. intros why [= <-]. split; [done|]. intros [?|?]; lia. }
  unfold heap_extract_max at 1 2. unfold heap_size in Hnz.
  destruct (Nat.ltb_spec 0 (h_size (bf_pq bf))) as [Hpos|?]; [|lia].
  cbn [mbind outcome_bind].
  set (top := val (h_data (bf_pq bf) !!! 1)).
  assert (Htop : queued_ok n po top).
  { apply Hall. lia. }
  destruct Htop as (Hfull & Hsz & Hvalid).
  pose proof (perm_full_length _ _ Hfull) as Htlen.
  rewrite (pmCopyAll_full (bf_best_seq bf) top n) by (done || apply Hfull).
  unfold pmLength, pmSize. cbn [pm_size].
  destruct (Nat.eqb_spec (pm_size top) n) as [Heq|Hne].
  - split; [done|]. intros _ _ e bf' [= <- <-] _. by unfold bf_live.
  - split; [done|]. intros Htrans Hasym e bf' [= <- <-] _.
    unfold bf_live. cbn. right.
    destruct (valid_child_exists po n
                (Perm (pm_size top) (pm_capacity (bf_best_seq bf))
                      (pm_elements top)) Htrans Hasym)
      as (j & Hj & Hjv); [by split; [|apply Hfull]|cbn; lia|exact Hvalid|].
    exists j. split; [exact Hj|exact Hjv].
Qed.

Lemma best_first_step_progress (bf : bf_state_t C) :
  bf_inv n po bf → bf_result_ok n po bf →
  (∀ why, best_first_step bf = AssertFail why →
          why = HeapOverflow
          ∨ (why = NoResult ∧ bf_state bf = RC_BFS_VISIT
             ∧ ¬ bf_live n po bf))
  ∧ (gt_transitive n po → gt_asymmetric n po →
     ∀ e bf', best_first_step bf = Done (e, bf') →
              bf_live n po bf → bf_live n po bf').
Proof.
  intros Hinv (_ & _ & Hdone). unfold best_first_step.
  destruct (bf_state bf) eqn:Hst.
  - destruct (bf_init_loop_progress (bf_n bf - bf_i bf + 1) bf Hinv Hst)
      as [Hf Hd].
    split; [intros why Hw; left; by apply Hf|]. intros _ _. exact Hd.
  - destruct (bf_visit_progress bf Hinv Hst) as [Hf Hd].
    split; [|exact Hd]. intros why Hw. right.
    destruct (Hf why Hw) as [-> Hnl]. done.
  - destruct (bf_expand_loop_progress (bf_n bf - bf_j bf + 1) bf Hinv Hst)
      as [Hf Hd].
    split; [intros why Hw; left; by apply Hf|]. intros _ _. exact Hd.
  - destruct (bf_drain_loop_empties (heap_size (bf_pq bf) + 1) (bf_pq bf))
      as (pq' & -> & Hz & _); [lia|].
    cbn. split; [done|]. intros _ _ e bf' [= <- <-] _.
    unfold bf_live. cbn. right. left. by apply Hdone.
Qed.

Lemma bf_reach_live (evf : evaluation_func_t C) (bf : bf_state_t C) :
  dim po = n → gt_transitive n po → gt_asymmetric n po →
  bf_reach n po evf bf → bf_live n po bf.
Proof.
  intros Hdimeq Htrans Hasym.
  induction 1 as [c|bf bf' e Hreach IH Hstep|bf c _ IH].
  - unfold bf_live. cbn. destruct (decide (n = 0)) as [->|Hpos].
    { right. by left. }
    right. right.
    destruct (gt_minimal_prefix po (dim po)) as (u & Hu & Hmin);
      [lia|by rewrite Hdimeq..|done|].
    exists u. split; [lia|]. by apply poIsMin_spec.
  - destruct (best_first_step_progress bf) as [_ Hd].
    + by apply (bf_reach_inv n po Hdim evf).
    + by apply (bf_reach_result_ok n po Hdim evf).
    + by apply (Hd Htrans Hasym e bf').
  - exact IH.
Qed.

End best_first_progress.

(** Without a minimal element the INIT phase queues nothing. *)
Lemma bf_init_loop_no_min {C : Type} (fuel : nat) :
  ∀ bf : bf_state_t C,
    (∀ u, u < bf_n bf → poIsMin (bf_po bf) u = false) →
    bf_n bf - bf_i bf < fuel →
    ∃ i', bf_init_loop fuel bf
          = Done (RC_ERR_NONE,
                  BF (bf_n bf) i' (bf_j bf) (bf_improved bf) (bf_pq bf)
                     (bf_po bf) (bf_best_seq bf) (bf_next_seq bf)
                     (bf_evfunc bf) (bf_evcontext bf) RC_BFS_VISIT).
Proof.
  induction fuel as [|fuel IH]; intros bf Hnomin Hfuel; [lia|].
  cbn [bf_init_loop]. cbv zeta.
  destruct (Nat.ltb_spec (bf_i bf) (bf_n bf)) as [Hi|Hi]; [|by eexists].
  rewrite Hnomin by done.
  match goal with
  | |- context [bf_init_loop fuel ?b] =>
      destruct (IH b) as [i' Hi']; [done|cbn; lia|]
  end.
  exists i'. exact Hi'.
Qed.

(** X28.  Which assertions a step of a run can fail.  A step always
    comes to an end.  The assertion of [make_valid_perm] and that of
    [heap_extract_max] never fail; a step fails either the assertion of
    [heap_insert], the queue being full, or, in the VISIT phase, the
    assertion that wants a full [best_seq] when the queue is empty.  When
    the order has exactly the [n] elements of the search and its GT
    relation is transitive and asymmetric the latter cannot happen
    either: a full queue is then the only way a step can fail. *)
Theorem best_first_step_failures {C : Type} (n : nat) (po : partial_order_t)
    (evf : evaluation_func_t C) (bf : bf_state_t C) :
  n ≤ dim po →
  bf_reach n po evf bf →
  best_first_step bf ≠ Timeout
  ∧ (∀ why, best_first_step bf = AssertFail why →
            why = HeapOverflow
            ∨ (why = NoResult ∧ bf_state bf = RC_BFS_VISIT))
  ∧ (dim po = n → gt_transitive n po → gt_asymmetric n po →
     ∀ why, best_first_step bf = AssertFail why → why = HeapOverflow).
Proof.
  intros Hdim Hreach.
  pose proof (bf_reach_inv n po Hdim evf bf Hreach) as Hinv.
  pose proof (bf_reach_result_ok n po Hdim evf bf Hreach) as Hres.
  destruct (best_first_step_progress n po Hdim bf Hinv Hres) as [Hf _].
  split; [apply best_first_step_terminates|]. split.
  - intros why Hw. destruct (Hf why Hw) as [?|(? & ? & _)]; [by left|by right].
  - intros Hdimeq Htrans Hasym why Hw.
    destruct (Hf why Hw) as [?|(_ & _ & Hnl)]; [done|].
    destruct Hnl. by apply (bf_reach_live n po Hdim evf).
Qed.

Lemma best_first_step_failures_witness :
  ∃ bf, bf_steps 18 (best_first_init 5 (poNew 5) shortest_first_oracle tt)
        = Done bf
        ∧ best_first_step bf = AssertFail HeapOverflow
        ∧ best_first_step bf ≠ Timeout
        ∧ (∀ why, best_first_step bf = AssertFail why →
                  why = HeapOverflow
                  ∨ (why = NoResult ∧ bf_state bf = RC_BFS_VISIT))
        ∧ (∀ why, best_first_step bf = AssertFail why → why = HeapOverflow).
Proof.
  eexists. split; [vm_compute; reflexivity|].
  match goal with
  | |- best_first_step ?b = _ ∧ _ =>
      destruct (best_first_step_failures 5 (poNew 5) shortest_first_oracle b)
        as (Hend & Hwhy & Hgt)
  end.
  - simpl. lia.
  - apply (bf_steps_reach 5 (poNew 5) shortest_first_oracle 18
             (best_first_init 5 (poNew 5) shortest_first_oracle tt));
      [apply bf_reach_init|vm_compute; reflexivity].
  - split; [by vm_compute|]. split; [exact Hend|]. split; [exact Hwhy|].
    apply Hgt.
    + reflexivity.
    + intros a b c _ _ _ Hab. rewrite poGet_poNew in Hab. discriminate.
    + intros a b _ _ Hab. rewrite poGet_poNew in Hab. discriminate.
Defined.

(** X29.  An order in which every element is GT some other one gives the
    search nothing to start from: the first step queues nothing, without
    asking the oracle, and returns NONE, and the second step fails the
    assertion that wants a full [best_seq]. *)
Theorem best_first_no_minimal_element {C : Type} (n : nat)
    (po : partial_order_t) (evf : evaluation_func_t C) (c : C) :
  0 < n → (∀ u, u < n → poIsMin po u = false) →
  ∃ bf1, best_first_step (best_first_init n po evf c)
         = Done (RC_ERR_NONE, bf1)
         ∧ heap_size (bf_pq bf1) = 0
         ∧ bf_evcontext bf1 = c
         ∧ best_first_step bf1 = AssertFail NoResult.
Proof.
  intros Hpos Hnomin.
  destruct (bf_init_loop_no_min (n - 0 + 1) (best_first_init n po evf c))
    as [i' Hi']; [done|cbn; lia|].
  eexists. split; [exact Hi'|]. cbn. split; [done|]. split; [done|].
  unfold best_first_step, bf_visit. cbn.
  destruct n as [|n']; [lia|done].
Qed.

Lemma best_first_no_minimal_element_witness :
  ∃ bf1, best_first_step (best_first_init 3 po_cycle3 flat_oracle tt)
         = Done (RC_ERR_NONE, bf1)
         ∧ heap_size (bf_pq bf1) = 0
         ∧ bf_evcontext bf1 = tt
         ∧ best_first_step bf1 = AssertFail NoResult.
Proof.
  apply (best_first_no_minimal_element 3 po_cycle3 flat_oracle tt).
  - lia.
  - intros u Hu. do 3 (destruct u as [|u]; [reflexivity|]). lia.
Defined.

(** ** Printing a permutation *)

Lemma string_length_app (s1 s2 : string) :
  String.length (s1 +:+ s2) = String.length s1 + String.length s2.
Proof.
  induction s1 as [|c s1 IH]; [done|].
  change (S (String.length (s1 +:+ s2))
          = S (String.length s1 + String.length s2)).
  by rewrite IH.
Qed.

Lemma string_app_empty (s : string) : s +:+ "" = s.
Proof.
  induction s as [|c s IH]; [done|].
  change (String c (s +:+ "") = String c s). by rewrite IH.
Qed.

Lemma string_app_assoc (s1 s2 s3 : string) :
  (s1 +:+ s2) +:+ s3 = s1 +:+ (s2 +:+ s3).
Proof.
  induction s1 as [|c s1 IH]; [done|].
  change (String c ((s1 +:+ s2) +:+ s3) = String c (s1 +:+ (s2 +:+ s3))).
  by rewrite IH.
Qed.

Lemma pmPrint_text_length (items : list string) :
  String.length (pmPrint_text items) = sum_list (String.length <$> items).
Proof.
  induction items as [|s items IH]; simpl; [done|].
  by rewrite string_length_app, IH.
Qed.

(** The loop only appends, and never lets the text grow past [bufsiz]. *)
Lemma pmPrint_loop_bounds pm bufsiz (todo : list nat) :
  ∀ buf,
    (∃ s, pmPrint_loop pm bufsiz todo buf = buf +:+ s)
    ∧ String.length (pmPrint_loop pm bufsiz todo buf)
      ≤ Nat.max (String.length buf) bufsiz.
Proof.
  induction todo as [|i todo IH]; intros buf; simpl.
  { split; [|lia]. exists "". by rewrite string_app_empty. }
  destruct (Nat.ltb_spec bufsiz
              (String.length buf + String.length (pmPrint_item pm i)))
    as [Hcut|Hfit].
  { split; [|lia]. exists "". by rewrite string_app_empty. }
  destruct (IH (buf +:+ pmPrint_item pm i)) as [[s Hs] Hlen]. split.
  - exists (pmPrint_item pm i +:+ s). by rewrite Hs, string_app_assoc.
  - rewrite string_length_app in Hlen. lia.
Qed.

(** When everything fits, nothing is cut. *)
Lemma pmPrint_loop_fits pm bufsiz (todo : list nat) :
  ∀ buf,
    String.length buf + sum_list (String.length <$> (pmPrint_item pm <$> todo))
    ≤ bufsiz →
    pmPrint_loop pm bufsiz todo buf
    = buf +:+ pmPrint_text (pmPrint_item pm <$> todo).
Proof.
  induction todo as [|i todo IH]; intros buf Hfit.
  { simpl. by rewrite string_app_empty. }
  assert (Hfit' : String.length buf
                  + (String.length (pmPrint_item pm i)
                     + sum_list (String.length <$> (pmPrint_item pm <$> todo)))
                  ≤ bufsiz) by exact Hfit.
  change (pmPrint_text (pmPrint_item pm <$> i :: todo))
    with (pmPrint_item pm i +:+ pmPrint_text (pmPrint_item pm <$> todo)).
  cbn [pmPrint_loop]. cbv zeta.
  destruct (Nat.ltb_spec bufsiz
              (String.length buf + String.length (pmPrint_item pm i)))
    as [Hcut|_]; [lia|].
  rewrite IH by (rewrite string_length_app; lia).
  apply string_app_assoc.
Qed.

(** X30.  What [pmPrint] writes always opens with a bracket and closes
    with one; the test in its loop keeps the text before the closing
    bracket within [bufsiz] characters, so the whole text has at most
    [max 1 bufsiz + 1] characters, one more than [bufsiz] at worst.  When
    the opening bracket and the items together take no more than
    [bufsiz] characters nothing is cut, and the text is the bracket, the
    items and the closing bracket. *)
Theorem pmPrint_bounds (pm : permutation_t) (bufsiz : nat) :
  (∃ body, pmPrint pm bufsiz = "[" +:+ body +:+ "]")
  ∧ String.length (pmPrint pm bufsiz) ≤ Nat.max 1 bufsiz + 1
  ∧ (1 + sum_list (String.length <$> pmPrint_items pm) ≤ bufsiz →
     pmPrint pm bufsiz = "[" +:+ pmPrint_text (pmPrint_items pm) +:+ "]"
     ∧ String.length (pmPrint pm bufsiz)
       = sum_list (String.length <$> pmPrint_items pm) + 2).
Proof.
  unfold pmPrint, pmPrint_items.
  destruct (pmPrint_loop_bounds pm bufsiz (seq 0 (pm_size pm)) "[")
    as [[s Hs] Hlen].
  split; [|split].
  - exists s. by rewrite Hs, string_app_assoc.
  - rewrite string_length_app. simpl in *. lia.
  - intros Hfit. rewrite pmPrint_loop_fits by done.
    split; [apply string_app_assoc|].
    rewrite !string_length_app, pmPrint_text_length. simpl. lia.
Qed.

Lemma pmPrint_bounds_witness :
  pmPrint (Perm 2 3 [1; 0; 2]) 4 = "[1 0]"
  ∧ String.length (pmPrint (Perm 2 3 [1; 0; 2]) 4) = 4 + 1.
Proof.
  destruct (pmPrint_bounds (Perm 2 3 [1; 0; 2]) 4) as (_ & _ & Hfit).
  destruct Hfit as [Htext Hlen]; [vm_compute; lia|].
  split; [rewrite Htext; reflexivity|rewrite Hlen; reflexivity].
Defined.

(** ** How the drivers report the oracle's status *)

Section hill_climb_failure.
Context {C : Type}.
Variable po : partial_order_t.
Variable evf : evaluation_func_t C.



End hill_climb_failure.

Section best_first_failure.
Context {C : Type}.
Variable n : nat.
Variable po : partial_order_t.
Hypothesis Hdim : n ≤ dim po.



End best_first_failure.



